(** * lichess-analyzer: the streaming aggregation pipeline of [src/server.js]

    A shallow embedding of the request handler [app.post("/api/analyze")] and
    of its helper [forEachNdjson], together with the aggregation loop of the
    buffer-then-parse version of the same handler ([src/unnamed/part_000]).

    Modelling conventions.
    - A value of the feed is a [value]: what [JSON.parse] builds, plus
      [undefined]. A string inside a value is a [string]; the text that
      [forEachNdjson] cuts into lines is a list of characters, UTF-16 code
      units for the decoder the handler creates.
    - A number read from the feed is an IEEE-754 binary64 value, [spec_float]
      with [prec = 53] and [emax = 1024]; [+], [*] and [/] are [SFadd],
      [SFmul] and [SFdiv] at that format.
    - The counters that the code creates at [0] and only bumps with [++]
      ([gameCount], [gamesPlayed], ...) are natural numbers [N].
    - A thrown exception is the [Throw] case of the [result] monad.
    - What the code leaves to the language and does not look into is a
      parameter: [JSON.parse] is a function argument, the conversions of
      strings, arrays and objects to numbers and strings are the class
      [Coercions], the streaming text decoder is the class [TextDecoder]
      (with the UTF-8 decoder as its instance). *)

From Stdlib Require Import String Ascii.
From Stdlib Require Import List ZArith NArith QArith Bool Lia.
Close Scope Q_scope.
From Stdlib Require Import Floats.SpecFloat.
From Equations Require Import Equations.
Open Scope string_scope.
Import ListNotations.
Open Scope list_scope.

(** ** Exceptions and the error monad *)

(** What the [catch] block of the handler looks at: [e.name], [e.message]. *)
Record exn : Type := mkExn { exn_name : string; exn_message : string }.

Inductive result (A : Type) : Type :=
| Ok (a : A)
| Throw (e : exn).
Arguments Ok {A} a.
Arguments Throw {A} e.

Definition bind {A B : Type} (r : result A) (k : A -> result B) : result B :=
  match r with
  | Ok a => k a
  | Throw e => Throw e
  end.

Declare Scope result_scope.
Delimit Scope result_scope with result.
Notation "x <- r ;; k" := (bind r (fun x => k))
  (at level 61, r at next level, right associativity) : result_scope.
Notation "' p <- r ;; k" := (bind r (fun p => k))
  (at level 61, p pattern, r at next level, right associativity) : result_scope.
Open Scope result_scope.

Lemma bind_assoc {A B C : Type} (r : result A) (f : A -> result B) (g : B -> result C) :
  bind (bind r f) g = bind r (fun a => bind (f a) g).
Proof. destruct r; reflexivity. Qed.

Lemma bind_ext {A B : Type} (r : result A) (f g : A -> result B) :
  (forall a, f a = g a) -> bind r f = bind r g.
Proof. intros H; destruct r; simpl; auto. Qed.

Lemma bind_Ok_r {A : Type} (r : result A) : bind r (fun a => Ok a) = r.
Proof. destruct r; reflexivity. Qed.

Definition TypeError (msg : string) : exn := mkExn "TypeError" msg.
Definition SyntaxError (msg : string) : exn := mkExn "SyntaxError" msg.
Definition PlainError (msg : string) : exn := mkExn "Error" msg.

(** Keeps the equation of a scrutinee in scope (for recursion by measure). *)
Definition inspect {A : Type} (a : A) : {b : A | a = b} := exist _ a eq_refl.

(** ** [forEachNdjson] (src/server.js, lines 21-45) *)

(** The text side: characters of the decoded string. [is_newline c] is
    [c === "\n"]; [is_space] is the set [String.prototype.trim] removes. *)
Class Text (char : Type) : Type := {
  is_newline : char -> bool;
  is_space : char -> bool
}.

(** [new TextDecoder()] used with [{ stream: true }]: a transducer that
    consumes the bytes one at a time, keeps the bytes of an incomplete
    character in its state, and is flushed by the final [decode()]. *)
Class TextDecoder (char : Type) : Type := {
  dstate : Type;
  dinit : dstate;
  dstep : dstate -> Byte.byte -> dstate * list char;
  dflush : dstate -> list char
}.

(** How the body stream ends: [done], or a rejected [reader.read()]. *)
Inductive stream_end : Type :=
| Done
| ReadError (e : exn).

(** [response.body]: [None] when the response has no body. The chunks are
    finitely many and followed by an end: a body that never ends, on which
    the loop of lines 28-31 reads for ever, is not a value of this type. *)
Definition body : Type := option (list (list Byte.byte) * stream_end).

Section LineSplitter.

Context {char : Type} {T : Text char} {D : TextDecoder char}.

(** [JSON.parse]: [None] is a thrown [SyntaxError]. *)
Context {J : Type} (JSON_parse : list char -> option J).

(** The state the callback mutates, and the callback. *)
Context {St : Type} (onItem : J -> St -> result St).

(** [decoder.decode(value, { stream: true })] *)
Fixpoint decode_stream (d : dstate) (value : list Byte.byte) : dstate * list char :=
  match value with
  | [] => (d, [])
  | b :: rest =>
      let '(d1, out1) := dstep d b in
      let '(d2, out2) := decode_stream d1 rest in
      (d2, out1 ++ out2)
  end.

(** [buffer.indexOf("\n")], with [None] for [-1]. *)
Fixpoint indexOf_newline (buffer : list char) : option nat :=
  match buffer with
  | [] => None
  | c :: rest =>
      if is_newline c then Some 0
      else option_map S (indexOf_newline rest)
  end.

Fixpoint trimStart (s : list char) : list char :=
  match s with
  | [] => []
  | c :: rest => if is_space c then trimStart rest else s
  end.

(** [s.trim()] *)
Definition trim (s : list char) : list char :=
  rev (trimStart (rev (trimStart s))).

(** Truthiness of a string: [if (line)]. *)
Definition nonempty (s : list char) : bool :=
  match s with [] => false | _ :: _ => true end.

(** [if (line) onItem(JSON.parse(line))] *)
Definition emit (line : list char) (st : St) : result St :=
  if nonempty line then
    match JSON_parse line with
    | Some item => onItem item st
    | None => Throw (SyntaxError "Unexpected token in JSON")
    end
  else Ok st.

Lemma indexOf_newline_lt (buffer : list char) (i : nat) :
  indexOf_newline buffer = Some i -> i < List.length buffer.
Proof.
  revert i; induction buffer as [|c rest IH]; simpl; intros i H; [discriminate|].
  destruct (is_newline c).
  - injection H as <-. lia.
  - destruct (indexOf_newline rest) as [j|]; [|discriminate].
    injection H as <-. specialize (IH j eq_refl). lia.
Qed.

(** The inner [while (newlineIndex !== -1)] loop (lines 33-39). *)
Equations? drain (buffer : list char) (st : St) : result (list char * St)
  by wf (List.length buffer) lt :=
  drain buffer st with inspect (indexOf_newline buffer) := {
    | exist _ None _ => Ok (buffer, st)
    | exist _ (Some newlineIndex) Hidx =>
        let line := trim (firstn newlineIndex buffer) in
        match emit line st with
        | Ok st' => drain (skipn (S newlineIndex) buffer) st'
        | Throw e => Throw e
        end }.
Proof.
  apply indexOf_newline_lt in Hidx.
  change (List.length (skipn (S newlineIndex) buffer) < List.length buffer).
  rewrite length_skipn. lia.
Qed.

(** The outer [while (true)] loop over [reader.read()] (lines 28-40). *)
Fixpoint read_loop (chunks : list (list Byte.byte)) (decoder : dstate)
    (buffer : list char) (st : St) : result (dstate * list char * St) :=
  match chunks with
  | [] => Ok (decoder, buffer, st)
  | value :: rest =>
      let '(decoder', text) := decode_stream decoder value in
      '(buffer', st') <- drain (buffer ++ text) st ;;
      read_loop rest decoder' buffer' st'
  end.

Definition forEachNdjson (response_body : body) (st : St) : result St :=
  match response_body with
  | None => Throw (PlainError "Réponse NDJSON vide.")
  | Some (chunks, fin) =>
      '(decoder, buffer, st1) <- read_loop chunks dinit [] st ;;
      match fin with
      | ReadError e => Throw e
      | Done =>
          let buffer := buffer ++ dflush decoder in
          let trailing := trim buffer in
          emit trailing st1
      end
  end.

(** *** The line-oriented reading of the same stream

    The whole byte stream is decoded at once and cut at every newline; the
    last piece (what follows the last newline) is joined with what the
    flushed decoder still gives. *)

(** The newline-terminated lines of [s], and the unterminated rest. *)
Fixpoint lines_of (s : list char) : list (list char) * list char :=
  match s with
  | [] => ([], [])
  | c :: rest =>
      let '(ls, tl) := lines_of rest in
      if is_newline c then ([] :: ls, tl)
      else match ls with
           | [] => ([], c :: tl)
           | l :: ls' => ((c :: l) :: ls', tl)
           end
  end.

Fixpoint deliver (lines : list (list char)) (st : St) : result St :=
  match lines with
  | [] => Ok st
  | l :: rest => st' <- emit (trim l) st ;; deliver rest st'
  end.

Definition ndjson_spec (bytes : list Byte.byte) (st : St) : result St :=
  let '(decoder, text) := decode_stream dinit bytes in
  let '(terminated, rest) := lines_of text in
  deliver (terminated ++ [rest ++ dflush decoder]) st.

(** *** What the callback is owed

    The reading said once more, without the loops and without [emit]: the
    lines of the stream, and the callback on the record of each in turn. *)

(** The lines of a stream of bytes: the decoded text cut at every newline,
    what follows the last newline joined with what the flushed decoder
    gives. *)
Definition stream_lines (bytes : list Byte.byte) : list (list char) :=
  let '(decoder, text) := decode_stream dinit bytes in
  let '(terminated, rest) := lines_of text in
  terminated ++ [rest ++ dflush decoder].

(** The lines that trimming leaves non-empty, trimmed. *)
Definition payload_lines (bytes : list Byte.byte) : list (list char) :=
  filter nonempty (map trim (stream_lines bytes)).

(** The callback on a list of items, in order. *)
Fixpoint run (items : list J) (st : St) : result St :=
  match items with
  | [] => Ok st
  | item :: rest => st' <- onItem item st ;; run rest st'
  end.

(** The lines closed by a newline that trimming leaves non-empty, trimmed. *)
Definition complete_lines (bytes : list Byte.byte) : list (list char) :=
  let '(_, text) := decode_stream dinit bytes in
  filter nonempty (map trim (fst (lines_of text))).

(** What follows the last newline, with what the flushed decoder gives. *)
Definition trailing (bytes : list Byte.byte) : list char :=
  let '(decoder, text) := decode_stream dinit bytes in
  snd (lines_of text) ++ dflush decoder.

(** Every line parsed and its record handed to the callback, in order;
    the first line that does not parse, or the first record the callback
    throws on, ends the reading with that exception. *)
Fixpoint feed (lines : list (list char)) (st : St) : result St :=
  match lines with
  | [] => Ok st
  | l :: rest =>
      match JSON_parse l with
      | Some item => st' <- onItem item st ;; feed rest st'
      | None => Throw (SyntaxError "Unexpected token in JSON")
      end
  end.

End LineSplitter.

(** ** The decoder the code creates: [new TextDecoder()] is UTF-8

    The decoder of the Encoding standard, one byte at a time; the characters
    of the resulting string are UTF-16 code units. *)

Module UTF8.

Record state : Type := mkState {
  code_point : N;
  bytes_seen : N;
  bytes_needed : N;
  lower_boundary : N;
  upper_boundary : N;
  bom_seen : bool
}.

Definition REPLACEMENT : N := 0xFFFD.
Definition BOM : N := 0xFEFF.

Definition init : state := mkState 0 0 0 0x80 0xBF false.

Definition reset (s : state) : state := mkState 0 0 0 0x80 0xBF (bom_seen s).

Definition between (lo hi b : N) : bool := ((lo <=? b) && (b <=? hi))%N.

(** A byte read when no character is pending. *)
Definition lead (s : state) (b : N) : state * list N :=
  if (b <=? 0x7F)%N then (s, [b])
  else if between 0xC2 0xDF b then
    (mkState (N.land b 0x1F) 0 1 0x80 0xBF (bom_seen s), [])
  else if between 0xE0 0xEF b then
    (mkState (N.land b 0xF) 0 2
       (if (b =? 0xE0)%N then 0xA0 else 0x80)
       (if (b =? 0xED)%N then 0x9F else 0xBF) (bom_seen s), [])
  else if between 0xF0 0xF4 b then
    (mkState (N.land b 0x7) 0 3
       (if (b =? 0xF0)%N then 0x90 else 0x80)
       (if (b =? 0xF4)%N then 0x8F else 0xBF) (bom_seen s), [])
  else (s, [REPLACEMENT]).

(** The handler of the standard: code points (or U+FFFD) for one byte. A
    byte that cannot continue the pending character ends it with U+FFFD and
    is read again as a first byte. *)
Definition handler (s : state) (b : N) : state * list N :=
  if (bytes_needed s =? 0)%N then lead s b
  else if negb (between (lower_boundary s) (upper_boundary s) b) then
    let '(s', out) := lead (reset s) b in (s', REPLACEMENT :: out)
  else
    let cp := N.lor (N.shiftl (code_point s) 6) (N.land b 0x3F) in
    let seen := (bytes_seen s + 1)%N in
    if (seen =? bytes_needed s)%N then (reset s, [cp])
    else (mkState cp seen (bytes_needed s) 0x80 0xBF (bom_seen s), []).

(** The first code point of the stream is dropped when it is the BOM. *)
Definition strip_bom (seen : bool) (cps : list N) : bool * list N :=
  match cps with
  | [] => (seen, [])
  | cp :: rest =>
      if seen then (true, cps)
      else if (cp =? BOM)%N then (true, rest)
      else (true, cps)
  end.

Definition utf16 (cp : N) : list N :=
  if (cp <? 0x10000)%N then [cp]
  else [ (0xD800 + N.shiftr (cp - 0x10000) 10)%N;
         (0xDC00 + N.land (cp - 0x10000) 0x3FF)%N ].

Definition output (s : state) (cps : list N) : state * list N :=
  let '(seen, cps') := strip_bom (bom_seen s) cps in
  (mkState (code_point s) (bytes_seen s) (bytes_needed s)
     (lower_boundary s) (upper_boundary s) seen,
   flat_map utf16 cps').

Definition step (s : state) (b : Byte.byte) : state * list N :=
  let '(s', cps) := handler s (Byte.to_N b) in output s' cps.

(** End of queue: a pending, incomplete character becomes U+FFFD. *)
Definition flush (s : state) : list N :=
  if (bytes_needed s =? 0)%N then []
  else snd (output s [REPLACEMENT]).

(** White space and line terminators of ECMAScript, as code units. *)
Definition white (c : N) : bool :=
  (between 0x09 0x0D c || (c =? 0x20) || (c =? 0xA0) || (c =? 0x1680)
   || between 0x2000 0x200A c || (c =? 0x2028) || (c =? 0x2029)
   || (c =? 0x202F) || (c =? 0x205F) || (c =? 0x3000) || (c =? 0xFEFF))%N.

#[export] Instance text : Text N := {|
  is_newline := fun c => (c =? 0x0A)%N;
  is_space := white
|}.

#[export] Instance decoder : TextDecoder N := {|
  dstate := state;
  dinit := init;
  dstep := step;
  dflush := flush
|}.

End UTF8.

(** ** Numbers: IEEE-754 binary64 *)

Definition number : Type := spec_float.

Definition prec : Z := 53.
Definition emax : Z := 1024.

Definition NaN : number := S754_nan.
Definition zero : number := S754_zero false.

(** The operators [+], [*], [/] on numbers. *)
Definition js_add : number -> number -> number := SFadd prec emax.
Definition js_mul : number -> number -> number := SFmul prec emax.
Definition js_div : number -> number -> number := SFdiv prec emax.

(** The number of an integer (exact below [2^53]). *)
Definition num_of_Z (z : Z) : number := binary_normalize prec emax z 0 false.

(** A decimal literal [m]e[-k], that is [m / 10^k], correctly rounded. *)
Definition decimal (m : Z) (k : nat) : number :=
  js_div (num_of_Z m) (num_of_Z (10 ^ Z.of_nat k)).

Definition is_nan (x : number) : bool :=
  match x with S754_nan => true | _ => false end.

Definition is_zero (x : number) : bool :=
  match x with S754_zero _ => true | _ => false end.

Definition is_finite (x : number) : bool :=
  match x with S754_zero _ | S754_finite _ _ _ => true | _ => false end.

(** [Math.round]: the nearest integer, a tie going up; zero keeps the sign of
    the argument. For a finite [x = m * 2^e] with [e < 0] the integer is
    [floor (x + 1/2) = floor ((2m + 2^-e) / 2^(1-e))]. *)
Definition Math_round (x : number) : number :=
  match x with
  | S754_finite s m e =>
      if (0 <=? e)%Z then x
      else
        let n := ((2 * cond_Zopp s (Zpos m) + 2 ^ (- e)) / 2 ^ (1 - e))%Z in
        binary_normalize prec emax n 0 s
  | _ => x
  end.

(** ** Values of the decoded feed *)

(** What [JSON.parse] builds, plus [undefined] (a missing property). The
    properties of an object are its own properties, each name once. *)
#[warnings="-register-all"]
Inductive value : Type :=
| VUndefined
| VNull
| VBool (b : bool)
| VNum (x : number)
| VStr (s : string)
| VArr (items : list value)
| VObj (props : list (string * value)).

(** [v == null] *)
Definition nullish (v : value) : bool :=
  match v with VUndefined | VNull => true | _ => false end.

(** ToBoolean: what [if (v)], [!v] and [v || w] test. *)
Definition truthy (v : value) : bool :=
  match v with
  | VUndefined | VNull => false
  | VBool b => b
  | VNum x => negb (is_zero x || is_nan x)
  | VStr s => negb (s =? "")
  | VArr _ | VObj _ => true
  end.

Fixpoint lookup (k : string) (props : list (string * value)) : value :=
  match props with
  | [] => VUndefined
  | (k', v) :: rest => if k' =? k then v else lookup k rest
  end.

(** Reading one of the property names the handler uses ([players], [white],
    [analysis], [moves], ...) from a value that is not [null] or [undefined]:
    only an object has such a property. *)
Definition get (v : value) (k : string) : value :=
  match v with
  | VObj props => lookup k props
  | _ => VUndefined
  end.

(** [v.k]: a [TypeError] on [null] and [undefined]. *)
Definition member (v : value) (k : string) : result value :=
  if nullish v then Throw (TypeError "Cannot read properties of null or undefined")
  else Ok (get v k).

(** [v?.k] *)
Definition opt_member (v : value) (k : string) : value :=
  if nullish v then VUndefined else get v k.

(** [v === "..."] against a string literal. *)
Definition strict_eq_string (v : value) (lit : string) : bool :=
  match v with VStr s => s =? lit | _ => false end.

(** [a || b] *)
Definition js_or (a b : value) : value := if truthy a then a else b.

(** The conversions the code leaves to the language and whose result it does
    not inspect: the number of a string, the number of an array or object
    ([Throw] when the object cannot be converted), the string of a value that
    is not a string. *)
Class Coercions : Type := {
  StringToNumber : string -> number;
  ObjectToNumber : value -> result number;
  ToDisplayString : value -> result string
}.

Section Conversions.

Context {C : Coercions}.

(** [Number(v)] *)
Definition Number (v : value) : result number :=
  match v with
  | VUndefined => Ok NaN
  | VNull => Ok zero
  | VBool true => Ok (num_of_Z 1)
  | VBool false => Ok zero
  | VNum x => Ok x
  | VStr s => Ok (StringToNumber s)
  | VArr _ | VObj _ => ObjectToNumber v
  end.

(** [Number(v) || 0] *)
Definition Number_or_0 (v : value) : result number :=
  x <- Number v ;;
  Ok (if truthy (VNum x) then x else zero).

(** [String(v)], as template literals and [RegExp.prototype.test] apply it. *)
Definition ToString (v : value) : result string :=
  match v with
  | VStr s => Ok s
  | _ => ToDisplayString v
  end.

End Conversions.

(** [s.split(" ")]: the pieces between the spaces. *)
Fixpoint split_space (s : string) : list string :=
  match s with
  | EmptyString => [EmptyString]
  | String c rest =>
      if Ascii.eqb c " " then EmptyString :: split_space rest
      else match split_space rest with
           | [] => [String c EmptyString]
           | piece :: pieces => String c piece :: pieces
           end
  end.

(** ** The accumulators (src/server.js, lines 67-73 and 97) *)

(** A key of the [Map]. Keys are compared by SameValueZero: strings,
    numbers and booleans by value, an array or object by reference. Every
    [JSON.parse] builds new objects, so the reference of a name that is an
    array or object is identified by the game (its rank in the stream) and
    the colour it was read from. *)
Inductive key : Type :=
| KUndefined
| KNull
| KBool (b : bool)
| KNum (x : number)
| KStr (s : string)
| KRef (game : N) (white : bool).

Definition key_eqb (a b : key) : bool :=
  match a, b with
  | KUndefined, KUndefined => true
  | KNull, KNull => true
  | KBool b, KBool b' => Bool.eqb b b'
  | KNum x, KNum y => (is_nan x && is_nan y) || SFeqb x y
  | KStr s, KStr t => s =? t
  | KRef g c, KRef g' c' => (g =? g')%N && Bool.eqb c c'
  | _, _ => false
  end.

Definition key_of (name : value) (game : N) (white : bool) : key :=
  match name with
  | VUndefined => KUndefined
  | VNull => KNull
  | VBool b => KBool b
  | VNum x => KNum x
  | VStr s => KStr s
  | VArr _ | VObj _ => KRef game white
  end.

Record player : Type := mkPlayer {
  username : value;
  inaccuracies : number;
  mistakes : number;
  blunders : number;
  gamesPlayed : N;
  analyzedGames : N;
  team : value;
  accuracies : list number
}.

(** The [Map], in insertion order. *)
Definition players_map : Type := list (key * player).

Definition Map_has (k : key) (ps : players_map) : bool :=
  existsb (fun e => key_eqb (fst e) k) ps.

Fixpoint Map_get (k : key) (ps : players_map) : option player :=
  match ps with
  | [] => None
  | (k', p) :: rest => if key_eqb k' k then Some p else Map_get k rest
  end.

(** [ps.set(k, p)] for a key that is not in the map, and the write-back of
    an entry the code has mutated in place. *)
Fixpoint Map_set (k : key) (p : player) (ps : players_map) : players_map :=
  match ps with
  | [] => [(k, p)]
  | (k', p') :: rest =>
      if key_eqb k' k then (k', p) :: rest else (k', p') :: Map_set k p rest
  end.

(** [Array.from(ps.values())] *)
Definition Map_values (ps : players_map) : list player := map snd ps.

Record state : Type := mkSt {
  gameCount : N;
  unanalyzedCount : N;
  lichessCount : N;
  fullyAnalyzedCount : N;
  shortCount : N;
  ps : players_map
}.

Definition initial : state := mkSt 0 0 0 0 0 [].

(** ** The per-game callback (src/server.js, lines 75-112) *)

Section Aggregation.

Context {C : Coercions}.

(** [g.moves.split(" ").length]: only a string has a [split] method. *)
Definition split_length (moves : value) : result N :=
  match moves with
  | VStr s => Ok (N.of_nat (List.length (split_space s)))
  | _ => Throw (TypeError "g.moves.split is not a function")
  end.

(** [g.players?.[c]?.user?.name || "Anonymous"] *)
Definition side_name (side : value) : value :=
  js_or (opt_member (opt_member side "user") "name") (VStr "Anonymous").

(** The object literal of line 97. *)
Definition new_player (name : value) (side : value) : player :=
  mkPlayer name zero zero zero 0 0 (opt_member side "team") [].

(** Lines 100-110, on the accumulator [s] of the side. *)
Definition update_player (side : value) (s : player) : result player :=
  let gamesPlayed' := (gamesPlayed s + 1)%N in
  let team' :=
    if negb (truthy (team s)) && truthy (opt_member side "team")
    then opt_member side "team" else team s in
  let a := opt_member side "analysis" in
  if truthy a then
    i <- Number_or_0 (get a "inaccuracy") ;;
    m <- Number_or_0 (get a "mistake") ;;
    b <- Number_or_0 (get a "blunder") ;;
    accs <- (if negb (nullish (get a "accuracy"))
             then x <- Number_or_0 (get a "accuracy") ;; Ok (accuracies s ++ [x])
             else Ok (accuracies s)) ;;
    Ok (mkPlayer (username s)
          (js_add (inaccuracies s) i) (js_add (mistakes s) m)
          (js_add (blunders s) b)
          gamesPlayed' (analyzedGames s + 1)%N team' accs)
  else
    Ok (mkPlayer (username s) (inaccuracies s) (mistakes s) (blunders s)
          gamesPlayed' (analyzedGames s) team' (accuracies s)).

(** One turn of [for (const c of ["white", "black"])] (lines 96-110).
    [game] is the rank of the game in the stream. *)
Definition record_side (players : value) (game : N) (c : string)
    (ps : players_map) : result players_map :=
  let side := opt_member players c in
  let name := side_name side in
  let k := key_of name game (c =? "white") in
  let ps1 := if negb (Map_has k ps) then Map_set k (new_player name side) ps else ps in
  match Map_get k ps1 with
  | Some s => s' <- update_player side s ;; Ok (Map_set k s' ps1)
  | None => Throw (TypeError "Cannot read properties of undefined")
  end.

Definition onGame (g : value) (st : state) : result state :=
  let gameCount' := (gameCount st + 1)%N in
  players <- member g "players" ;;
  let whiteAnalysis := opt_member (opt_member players "white") "analysis" in
  let blackAnalysis := opt_member (opt_member players "black") "analysis" in
  let hasWhiteAnalysis := negb (nullish whiteAnalysis) in
  let hasBlackAnalysis := negb (nullish blackAnalysis) in
  let lichessCount' :=
    if hasWhiteAnalysis || hasBlackAnalysis
    then (lichessCount st + 1)%N else lichessCount st in
  let fullyAnalyzedCount' :=
    if hasWhiteAnalysis && hasBlackAnalysis
    then (fullyAnalyzedCount st + 1)%N else fullyAnalyzedCount st in
  moves <- member g "moves" ;;
  moveCount <- (if truthy moves then split_length moves else Ok 0%N) ;;
  status <- member g "status" ;;
  let isShortGame :=
    (moveCount <? 10)%N || strict_eq_string status "aborted"
    || strict_eq_string status "noStart" in
  let '(shortCount', unanalyzedCount') :=
    if negb hasWhiteAnalysis || negb hasBlackAnalysis then
      if isShortGame then ((shortCount st + 1)%N, unanalyzedCount st)
      else if truthy moves then (shortCount st, (unanalyzedCount st + 1)%N)
      else (shortCount st, unanalyzedCount st)
    else (shortCount st, unanalyzedCount st) in
  ps1 <- record_side players gameCount' "white" (ps st) ;;
  ps2 <- record_side players gameCount' "black" ps1 ;;
  Ok (mkSt gameCount' unanalyzedCount' lichessCount' fullyAnalyzedCount'
        shortCount' ps2).

(** The callback over a sequence of decoded records, in order. *)
Fixpoint aggregate (games : list value) (st : state) : result state :=
  match games with
  | [] => Ok st
  | g :: rest => st' <- onGame g st ;; aggregate rest st'
  end.

End Aggregation.

(** ** Metrics and ranking pool (src/server.js, lines 117-125) *)

(** [{ ...p, accuracy }] *)
Record metric : Type := mkMetric {
  base : player;
  accuracy : number
}.

(** [p.accuracies.reduce((a, b) => a + b, 0)] *)
Definition sum_accuracies (accs : list number) : number :=
  fold_left js_add accs zero.

Definition length_number (accs : list number) : number :=
  num_of_Z (Z.of_nat (List.length accs)).

(** Line 118. *)
Definition accuracy_of (accs : list number) : number :=
  if (0 <? List.length accs)%nat then
    js_div (Math_round (js_mul (js_div (sum_accuracies accs) (length_number accs))
                               (num_of_Z 10)))
           (num_of_Z 10)
  else zero.

Definition metrics_of (ps : players_map) : list metric :=
  map (fun p => mkMetric p (accuracy_of (accuracies p))) (Map_values ps).

(** [(a / g) >= 0.5] on two counters. The quotient is rounded to nearest and
    [0.5] is a binary64 value, so for [g > 0] the test is [g <= 2a]; [a / 0]
    is [Infinity] for [a > 0] and [NaN] for [a = 0]. *)
Definition ratio_at_least_half (a g : N) : bool :=
  if (g =? 0)%N then (0 <? a)%N else (g <=? 2 * a)%N.

Definition has_analysis (m : metric) : bool :=
  (0 <? analyzedGames (base m))%N.

Definition is_eligible (m : metric) : bool :=
  (4 <=? analyzedGames (base m))%N
  && ratio_at_least_half (analyzedGames (base m)) (gamesPlayed (base m)).

Definition withAnalysis (metrics : list metric) : list metric :=
  filter has_analysis metrics.

Definition eligible (metrics : list metric) : list metric :=
  filter is_eligible metrics.

Definition pool (metrics : list metric) : list metric :=
  if (2 <=? List.length (eligible metrics))%nat
  then eligible metrics else withAnalysis metrics.

(** ** The request handler (src/server.js, lines 48-152) *)

(** A call of [fetchWithTimeout]: it throws (an [AbortError] when the timer
    fires, another error when the transport fails) or gives a response with
    its [ok] flag and what reading it gives. *)
Inductive fetched (A : Type) : Type :=
| FetchThrow (e : exn)
| Response (ok : bool) (payload : A).
Arguments FetchThrow {A} e.
Arguments Response {A} ok payload.

(** The remote service, by URL: [payload] is [tRes.json()] for the metadata
    and [gRes.body] for the games. *)
Record upstream : Type := mkUpstream {
  fetch_metadata : string -> fetched (result value);
  fetch_games : string -> fetched body
}.

Definition AbortError : exn := mkExn "AbortError" "This operation was aborted".

(** The success payload, without the eight superlatives of lines 135-144
    (sorted copies of a pool that is not empty at that point). *)
Record payload : Type := mkPayload {
  tournamentId : value;
  tournamentName : value;
  playerCount : value;
  p_gameCount : N;
  analyzedByLichess : N;
  totalAnalyzed : N;
  skippedShortGames : N;
  unanalyzedGames : N;
  eligiblePlayers : nat;
  totalPlayersWithAnalysis : nat;
  playerMetrics : list metric
}.

Inductive content : Type :=
| ErrorBody (error : string)
| Success (p : payload).

(** [res.status(code).json(...)]; [res.json(...)] is status 200. *)
Record reply : Type := mkReply {
  status : N;
  sent : content
}.

Definition fail (code : N) (msg : string) : reply := mkReply code (ErrorBody msg).

Definition LICHESS : string := "https://lichess.org".

Definition is_alnum (c : ascii) : bool :=
  let n := N_of_ascii c in
  (UTF8.between 48 57 n || UTF8.between 65 90 n || UTF8.between 97 122 n).

Fixpoint all_alnum (s : string) : bool :=
  match s with
  | EmptyString => true
  | String c rest => is_alnum c && all_alnum rest
  end.

(** [/^[a-zA-Z0-9]+$/.test(s)] *)
Definition test_alnum (s : string) : bool :=
  negb (s =? "") && all_alnum s.

(** Where the handler stands once the stream is read: it has already
    replied, or it holds the tournament and the aggregated state. *)
Inductive stage : Type :=
| Replied (r : reply)
| Streamed (tournament : value) (st : state).

Section Handler.

Context {C : Coercions}.
Context (JSON_parse : list N -> option value).
Context (up : upstream).

(** Lines 50-55: the reply of a rejected request, or the identifier (as the
    URL takes it) and the endpoint. *)
Definition validate (req_body : value) : result (reply + string * string) :=
  tournamentId <- member req_body "tournamentId" ;;
  type <- member req_body "type" ;;
  if negb (truthy tournamentId) || negb (truthy type) then
    Ok (inl (fail 400 "tournamentId et type requis"))
  else
    id <- ToString tournamentId ;;
    if negb (test_alnum id) then Ok (inl (fail 400 "tournamentId invalide"))
    else if negb (strict_eq_string type "swiss") && negb (strict_eq_string type "arena")
    then Ok (inl (fail 400 "type invalide"))
    else Ok (inr (id, if strict_eq_string type "swiss" then "swiss" else "tournament")).

(** [${LICHESS}/api/${endpoint}/${tournamentId}] *)
Definition tournament_url (id endpoint : string) : string :=
  String.append LICHESS (String.append "/api/" (String.append endpoint (String.append "/" id))).

(** Lines 58-60. *)
Definition get_tournament (url : string) : result (reply + value) :=
  match fetch_metadata up url with
  | FetchThrow e => Throw e
  | Response ok json =>
      if negb ok then Ok (inl (fail 404 "Tournoi introuvable."))
      else tournament <- json ;; Ok (inr tournament)
  end.

(** Lines 63-64. *)
Definition get_games (url : string) : result (reply + body) :=
  match fetch_games up (String.append url "/games?evals=true&accuracy=true&moves=true") with
  | FetchThrow e => Throw e
  | Response ok gRes =>
      if negb ok then Ok (inl (fail 500 "Impossible de récupérer les parties."))
      else Ok (inr gRes)
  end.

(** Lines 67-112: the callback over the stream, from empty accumulators. *)
Definition stream_games (gRes : body) : result state :=
  forEachNdjson (T := UTF8.text) (D := UTF8.decoder) JSON_parse onGame gRes initial.

(** Lines 50-112. *)
Definition read_games (req_body : value) : result stage :=
  v <- validate req_body ;;
  match v with
  | inl r => Ok (Replied r)
  | inr (id, endpoint) =>
      t <- get_tournament (tournament_url id endpoint) ;;
      match t with
      | inl r => Ok (Replied r)
      | inr tournament =>
          g <- get_games (tournament_url id endpoint) ;;
          match g with
          | inl r => Ok (Replied r)
          | inr gRes =>
              st <- stream_games gRes ;;
              Ok (Streamed tournament st)
          end
      end
  end.

(** Lines 114-146. *)
Definition finish (tournament : value) (st : state) : result reply :=
  if (gameCount st =? 0)%N then Ok (fail 404 "Aucune partie trouvée.")
  else
    let metrics := metrics_of (ps st) in
    if (List.length (pool metrics) =? 0)%nat then Ok (fail 400 "Aucune partie analysée.")
    else
      id <- member tournament "id" ;;
      Ok (mkReply 200 (Success
        (mkPayload id
           (js_or (get tournament "name") (js_or (get tournament "fullName") (VStr "Tournoi")))
           (get tournament "nbPlayers")
           (gameCount st) (lichessCount st) (fullyAnalyzedCount st)
           (shortCount st) (unanalyzedCount st)
           (List.length (pool metrics)) (List.length (withAnalysis metrics))
           metrics))).

(** The body of the [try] block. *)
Definition handle (req_body : value) : result reply :=
  s <- read_games req_body ;;
  match s with
  | Replied r => Ok r
  | Streamed tournament st => finish tournament st
  end.

(** The [catch] block (lines 147-151). *)
Definition on_exception (e : exn) : reply :=
  if exn_name e =? "AbortError" then fail 504 "Lichess ne répond pas à temps."
  else fail 500 (if exn_message e =? "" then "Erreur serveur" else exn_message e).

(** [app.post("/api/analyze", ...)] *)
Definition analyze (req_body : value) : reply :=
  match handle req_body with
  | Ok r => r
  | Throw e => on_exception e
  end.

End Handler.

(** ** The aggregation loop of the buffer-then-parse handler
       (src/unnamed/part_000, lines 41-50)

    The same [Map] of accumulators, filled from the array of all decoded
    games. The counts are added with a bare [+=], so an accumulator field
    holds whatever [+] gives. *)

Module Legacy.

Record player : Type := mkPlayer {
  username : value;
  inaccuracies : value;
  mistakes : value;
  blunders : value;
  gamesPlayed : N;
  analyzedGames : N;
  team : value;
  accuracies : list value
}.

Definition players_map : Type := list (key * player).

Definition Map_has (k : key) (ps : players_map) : bool :=
  existsb (fun e => key_eqb (fst e) k) ps.

Fixpoint Map_get (k : key) (ps : players_map) : option player :=
  match ps with
  | [] => None
  | (k', p) :: rest => if key_eqb k' k then Some p else Map_get k rest
  end.

Fixpoint Map_set (k : key) (p : player) (ps : players_map) : players_map :=
  match ps with
  | [] => [(k, p)]
  | (k', p') :: rest =>
      if key_eqb k' k then (k', p) :: rest else (k', p') :: Map_set k p rest
  end.

Section Loop.

Context {C : Coercions}.

Definition is_primitive_non_string (v : value) : bool :=
  match v with
  | VUndefined | VNull | VBool _ | VNum _ => true
  | VStr _ | VArr _ | VObj _ => false
  end.

(** [a + b]: numeric addition when neither operand is (or converts to) a
    string, concatenation otherwise. An array or object of the feed converts
    to a string. *)
Definition js_plus (a b : value) : result value :=
  if is_primitive_non_string a && is_primitive_non_string b then
    x <- Number a ;;
    y <- Number b ;;
    Ok (VNum (js_add x y))
  else
    s <- ToString a ;;
    t <- ToString b ;;
    Ok (VStr (String.append s t)).

(** Line 45: the object literal. *)
Definition new_player (name : value) (side : value) : player :=
  mkPlayer name (VNum zero) (VNum zero) (VNum zero) 0 0 (opt_member side "team") [].

(** Lines 46-48, on the accumulator [s] of the side. *)
Definition update_player (side : value) (s : player) : result player :=
  let gamesPlayed' := (gamesPlayed s + 1)%N in
  let a := opt_member side "analysis" in
  if truthy a then
    i <- js_plus (inaccuracies s) (get a "inaccuracy") ;;
    m <- js_plus (mistakes s) (get a "mistake") ;;
    b <- js_plus (blunders s) (get a "blunder") ;;
    let accs :=
      if negb (nullish (get a "accuracy"))
      then accuracies s ++ [get a "accuracy"] else accuracies s in
    Ok (mkPlayer (username s) i m b gamesPlayed' (analyzedGames s + 1)%N (team s) accs)
  else
    Ok (mkPlayer (username s) (inaccuracies s) (mistakes s) (blunders s)
          gamesPlayed' (analyzedGames s) (team s) (accuracies s)).

(** One turn of the inner [for] (lines 44-48). *)
Definition record_side (g : value) (game : N) (c : string)
    (ps : players_map) : result players_map :=
  players <- member g "players" ;;
  let side := opt_member players c in
  let name := side_name side in
  let k := key_of name game (c =? "white") in
  let ps1 := if negb (Map_has k ps) then Map_set k (new_player name side) ps else ps in
  match Map_get k ps1 with
  | Some s => s' <- update_player side s ;; Ok (Map_set k s' ps1)
  | None => Throw (TypeError "Cannot read properties of undefined")
  end.

(** [for (const g of games)] (lines 42-50); [game] ranks the games. *)
Fixpoint aggregate (games : list value) (game : N) (ps : players_map) : result players_map :=
  match games with
  | [] => Ok ps
  | g :: rest =>
      ps1 <- record_side g game "white" ps ;;
      ps2 <- record_side g game "black" ps1 ;;
      aggregate rest (game + 1)%N ps2
  end.

End Loop.

End Legacy.

(** ** A sample runtime for the examples

    The examples put no string, array or object where the code converts to
    a number or to a string, so these conversions are never looked at. *)

Definition sample_coercions : Coercions := {|
  StringToNumber := fun s => if s =? "" then zero else NaN;
  ObjectToNumber := fun _ => Ok NaN;
  ToDisplayString := fun _ => Ok "[object Object]"
|}.

(** Records in the shape of the feed, for the examples. *)

Definition analysis_stats (inaccuracy mistake blunder : Z) (accuracy : value) : value :=
  VObj [("inaccuracy", VNum (num_of_Z inaccuracy));
        ("mistake", VNum (num_of_Z mistake));
        ("blunder", VNum (num_of_Z blunder));
        ("accuracy", accuracy)].

Definition side_record (name : value) (team : value) (analysis : value) : value :=
  VObj [("user", VObj [("name", name)]); ("team", team); ("analysis", analysis)].

Definition game_record (white black : value) (moves status : value) : value :=
  VObj [("id", VStr "q7ZvsdUF");
        ("players", VObj [("white", white); ("black", black)]);
        ("moves", moves); ("status", status)].

(** The bytes of an ASCII text. *)
Fixpoint bytes_of (s : string) : list Byte.byte :=
  match s with
  | EmptyString => []
  | String c rest => byte_of_ascii c :: bytes_of rest
  end.


(** [JSON.parse] on the two lines the examples use: [{}] is the object
    without properties; the other line is malformed. *)
Definition sample_parse (line : list N) : option value :=
  match line with
  | [0x7B; 0x7D]%N => Some (VObj [])
  | _ => None
  end.

Definition sample_tournament : value :=
  VObj [("id", VStr "abc123"); ("fullName", VStr "Weekly"); ("nbPlayers", VNum (num_of_Z 12))].

Definition valid_request : value :=
  VObj [("tournamentId", VStr "abc123"); ("type", VStr "swiss")].

(** A service that answers both calls, the games with the given bytes. *)
Definition serving (stream : string) : upstream :=
  mkUpstream (fun _ => Response true (Ok sample_tournament))
             (fun _ => Response true (Some ([bytes_of stream], Done))).

(** A service whose games endpoint answers without success. *)
Definition games_unavailable : upstream :=
  mkUpstream (fun _ => Response true (Ok sample_tournament))
             (fun _ => Response false None).

(** A service that does not know the tournament. *)
Definition tournament_unknown : upstream :=
  mkUpstream (fun _ => Response false (Ok VNull))
             (fun _ => Response false None).

(** A service that does not answer in time. *)
Definition unresponsive : upstream :=
  mkUpstream (fun _ => FetchThrow AbortError) (fun _ => FetchThrow AbortError).

(** * Properties *)

(** ** The line splitter *)

Section LineSplitterProofs.

Context {char : Type} {T : Text char} {D : TextDecoder char}.
Context {J : Type} (JSON_parse : list char -> option J).
Context {St : Type} (onItem : J -> St -> result St).

Local Abbreviation drain' := (drain JSON_parse onItem).
Local Abbreviation emit' := (emit JSON_parse onItem).
Local Abbreviation read_loop' := (read_loop JSON_parse onItem).
Local Abbreviation deliver' := (deliver JSON_parse onItem).
Local Abbreviation forEachNdjson' := (forEachNdjson JSON_parse onItem).
Local Abbreviation ndjson_spec' := (ndjson_spec JSON_parse onItem).

Lemma decode_stream_app (d : dstate) (a b : list Byte.byte) :
  decode_stream d (a ++ b) =
  let '(d1, t1) := decode_stream d a in
  let '(d2, t2) := decode_stream d1 b in
  (d2, t1 ++ t2).
Proof.
  revert d; induction a as [|x a IH]; intros d; simpl.
  - destruct (decode_stream d b); reflexivity.
  - destruct (dstep d x) as [d1 o1]. rewrite IH.
    destruct (decode_stream d1 a) as [d2 o2].
    destruct (decode_stream d2 b) as [d3 o3].
    now rewrite app_assoc.
Qed.

(** One turn of the inner loop. *)
Lemma drain_eq (buffer : list char) (st : St) :
  drain' buffer st =
  match indexOf_newline buffer with
  | None => Ok (buffer, st)
  | Some newlineIndex =>
      st' <- emit' (trim (firstn newlineIndex buffer)) st ;;
      drain' (skipn (S newlineIndex) buffer) st'
  end.
Proof.
  rewrite drain_equation_1.
  generalize (inspect (indexOf_newline buffer)).
  intros [[i|] E]; cbn; rewrite E; [|reflexivity].
  destruct (emit' (trim (firstn i buffer)) st); reflexivity.
Qed.

Lemma indexOf_newline_app (x y : list char) (i : nat) :
  indexOf_newline x = Some i ->
  indexOf_newline (x ++ y) = Some i /\
  firstn i (x ++ y) = firstn i x /\
  skipn (S i) (x ++ y) = skipn (S i) x ++ y.
Proof.
  revert i; induction x as [|c x IH]; simpl; intros i H; [discriminate|].
  destruct (is_newline c).
  - injection H as <-. auto.
  - destruct (indexOf_newline x) as [j|]; [|discriminate].
    injection H as <-. destruct (IH j eq_refl) as (-> & E1 & E2).
    simpl. rewrite E1. auto.
Qed.

(** Text that arrives later does not change what the loop has already
    done with the buffer. *)
Lemma drain_app (x y : list char) (st : St) :
  drain' (x ++ y) st = ('(x', st') <- drain' x st ;; drain' (x' ++ y) st').
Proof.
  remember (List.length x) as n eqn:Hn.
  revert x st Hn; induction n as [n IH] using lt_wf_ind; intros x st Hn.
  rewrite (drain_eq x).
  destruct (indexOf_newline x) as [i|] eqn:E; [|reflexivity].
  rewrite (drain_eq (x ++ y)).
  destruct (indexOf_newline_app x y i E) as (-> & -> & ->).
  destruct (emit' (trim (firstn i x)) st) as [st'|e]; simpl; [|reflexivity].
  apply (IH (List.length (skipn (S i) x))); [|reflexivity].
  apply indexOf_newline_lt in E. rewrite length_skipn. lia.
Qed.

(** The loop leaves no newline in the buffer. *)
Lemma drain_no_newline (x : list char) (st : St) (x' : list char) (st' : St) :
  drain' x st = Ok (x', st') -> indexOf_newline x' = None.
Proof.
  remember (List.length x) as n eqn:Hn.
  revert x st Hn; induction n as [n IH] using lt_wf_ind; intros x st Hn.
  rewrite drain_eq.
  destruct (indexOf_newline x) as [i|] eqn:E.
  - destruct (emit' (trim (firstn i x)) st) as [st1|e]; simpl; [|discriminate].
    apply (IH (List.length (skipn (S i) x))); [|reflexivity].
    apply indexOf_newline_lt in E. rewrite length_skipn. lia.
  - intros H; injection H as <- <-. exact E.
Qed.

Lemma drain_idle (x : list char) (st : St) :
  indexOf_newline x = None -> drain' x st = Ok (x, st).
Proof. intros E. rewrite drain_eq, E. reflexivity. Qed.

(** Any chunking behaves like the single chunk that holds all the bytes. *)
Lemma read_loop_concat (chunks : list (list Byte.byte)) (d : dstate)
    (buffer : list char) (st : St) :
  indexOf_newline buffer = None ->
  read_loop' chunks d buffer st = read_loop' [concat chunks] d buffer st.
Proof.
  revert d buffer st; induction chunks as [|v rest IH]; intros d buffer st Hb.
  - simpl. rewrite app_nil_r, (drain_idle _ _ Hb). reflexivity.
  - cbn [read_loop concat]. rewrite decode_stream_app.
    destruct (decode_stream d v) as [d1 t1].
    destruct (decode_stream d1 (concat rest)) as [d2 t2] eqn:E2.
    rewrite (app_assoc buffer t1 t2), (drain_app (buffer ++ t1) t2), bind_assoc.
    destruct (drain' (buffer ++ t1) st) as [[b1 st1]|e] eqn:E1; simpl; [|reflexivity].
    rewrite IH by (eapply drain_no_newline; eassumption).
    simpl. rewrite E2. reflexivity.
Qed.

Lemma lines_of_no_newline (x : list char) :
  indexOf_newline x = None -> lines_of x = ([], x).
Proof.
  induction x as [|c x IH]; simpl; [reflexivity|].
  destruct (is_newline c); [discriminate|].
  destruct (indexOf_newline x); [discriminate|].
  intros _. rewrite IH by reflexivity. reflexivity.
Qed.

Lemma lines_of_newline (x : list char) (i : nat) :
  indexOf_newline x = Some i ->
  lines_of x = (firstn i x :: fst (lines_of (skipn (S i) x)),
                snd (lines_of (skipn (S i) x))).
Proof.
  revert i; induction x as [|c x IH]; simpl; intros i H; [discriminate|].
  destruct (is_newline c).
  - injection H as <-. simpl. destruct (lines_of x); reflexivity.
  - destruct (indexOf_newline x) as [j|]; [|discriminate].
    injection H as <-. rewrite (IH j eq_refl). reflexivity.
Qed.

Lemma deliver_app (l1 l2 : list (list char)) (st : St) :
  deliver' (l1 ++ l2) st = (st' <- deliver' l1 st ;; deliver' l2 st').
Proof.
  revert st; induction l1 as [|l l1 IH]; intros st; simpl; [reflexivity|].
  destruct (emit' (trim l) st); simpl; auto.
Qed.

(** The inner loop delivers the terminated lines and keeps the rest. *)
Lemma drain_lines (x : list char) (st : St) :
  drain' x st =
  (st' <- deliver' (fst (lines_of x)) st ;; Ok (snd (lines_of x), st')).
Proof.
  remember (List.length x) as n eqn:Hn.
  revert x st Hn; induction n as [n IH] using lt_wf_ind; intros x st Hn.
  rewrite drain_eq.
  destruct (indexOf_newline x) as [i|] eqn:E.
  - rewrite (lines_of_newline _ _ E). cbn [fst snd deliver].
    rewrite bind_assoc. apply bind_ext; intros st1.
    apply (IH (List.length (skipn (S i) x))); [|reflexivity].
    apply indexOf_newline_lt in E. rewrite length_skipn. lia.
  - rewrite (lines_of_no_newline _ E). reflexivity.
Qed.

(** [forEachNdjson'] on a stream that ends normally is the line-oriented
    reading of its bytes, whatever the chunking. *)
Lemma forEachNdjson_spec (chunks : list (list Byte.byte)) (st : St) :
  forEachNdjson' (Some (chunks, Done)) st = ndjson_spec' (concat chunks) st.
Proof.
  unfold forEachNdjson, ndjson_spec.
  rewrite read_loop_concat by reflexivity. cbn [read_loop].
  destruct (decode_stream dinit (concat chunks)) as [d text].
  cbn [app]. rewrite drain_lines.
  destruct (lines_of text) as [terminated rest]. cbn [fst snd].
  rewrite deliver_app, !bind_assoc. apply bind_ext; intros st1. simpl.
  now rewrite bind_Ok_r.
Qed.

(** What the callback preserves, the whole reading preserves. *)
Lemma deliver_invariant (P : St -> Prop) :
  (forall item st st', P st -> onItem item st = Ok st' -> P st') ->
  forall lines st st', P st -> deliver' lines st = Ok st' -> P st'.
Proof.
  intros Hstep lines; induction lines as [|l lines IH]; simpl; intros st st' HP H.
  - injection H as <-. exact HP.
  - unfold emit in H.
    destruct (nonempty (trim l)); simpl in H; [|eauto].
    destruct (JSON_parse (trim l)) as [item|]; simpl in H; [|discriminate].
    destruct (onItem item st) as [st1|e] eqn:E; simpl in H; [|discriminate].
    eauto.
Qed.

Lemma forEachNdjson_invariant (P : St -> Prop) :
  (forall item st st', P st -> onItem item st = Ok st' -> P st') ->
  forall response_body st st',
    P st -> forEachNdjson' response_body st = Ok st' -> P st'.
Proof.
  intros Hstep [[chunks [|e]]|] st st' HP H.
  - rewrite forEachNdjson_spec in H. unfold ndjson_spec in H.
    destruct (decode_stream dinit (concat chunks)) as [d text].
    destruct (lines_of text) as [terminated rest].
    eapply deliver_invariant; eauto.
  - simpl in H.
    destruct (read_loop' chunks dinit [] st) as [[[d b] s]|]; discriminate.
  - discriminate.
Qed.

(** However the stream ends, the chunking does not matter. *)
Lemma forEachNdjson_concat (chunks : list (list Byte.byte)) (fin : stream_end) (st : St) :
  forEachNdjson' (Some (chunks, fin)) st = forEachNdjson' (Some ([concat chunks], fin)) st.
Proof.
  unfold forEachNdjson. now rewrite read_loop_concat.
Qed.

(** Reading lines through [emit] is feeding the non-blank ones, trimmed. *)
Lemma deliver_feed (lines : list (list char)) (st : St) :
  deliver' lines st = feed JSON_parse onItem (filter nonempty (map trim lines)) st.
Proof.
  revert st; induction lines as [|l lines IH]; intros st; [reflexivity|].
  cbn [deliver map filter]. unfold emit.
  destruct (nonempty (trim l)); cbn [feed bind]; [|apply IH].
  destruct (JSON_parse (trim l)) as [item|]; [|reflexivity].
  apply bind_ext. intros st1. apply IH.
Qed.

(** A stream that ends in a read error: the complete lines are delivered,
    then the error is thrown. *)
Lemma forEachNdjson_read_error (chunks : list (list Byte.byte)) (e : exn) (st : St) :
  forEachNdjson' (Some (chunks, ReadError e)) st
  = (st' <- feed JSON_parse onItem (complete_lines (concat chunks)) st ;; Throw e).
Proof.
  unfold forEachNdjson, complete_lines.
  rewrite read_loop_concat by reflexivity. cbn [read_loop].
  destruct (decode_stream dinit (concat chunks)) as [d text].
  cbn [app]. rewrite drain_lines, <- deliver_feed, !bind_assoc.
  apply bind_ext. intros st1. reflexivity.
Qed.

(** A stream that ends normally: every non-blank line is delivered. *)
Lemma forEachNdjson_done (chunks : list (list Byte.byte)) (st : St) :
  forEachNdjson' (Some (chunks, Done)) st
  = feed JSON_parse onItem (payload_lines (concat chunks)) st.
Proof.
  rewrite forEachNdjson_spec. unfold ndjson_spec, payload_lines, stream_lines.
  destruct (decode_stream dinit (concat chunks)) as [d text].
  destruct (lines_of text) as [terminated rest]. apply deliver_feed.
Qed.

Lemma feed_app (lines1 lines2 : list (list char)) (st : St) :
  feed JSON_parse onItem (lines1 ++ lines2) st
  = (st' <- feed JSON_parse onItem lines1 st ;; feed JSON_parse onItem lines2 st').
Proof.
  revert st; induction lines1 as [|l lines1 IH]; intros st; [reflexivity|].
  cbn [app feed]. destruct (JSON_parse l) as [item|]; [|reflexivity].
  rewrite bind_assoc. apply bind_ext. intros st1. apply IH.
Qed.

(** The feeding returns when every line parses and the callback returns
    on each record in turn. *)
Lemma feed_Ok_iff (lines : list (list char)) (st st' : St) :
  feed JSON_parse onItem lines st = Ok st' <->
  exists items,
    Forall2 (fun l item => JSON_parse l = Some item) lines items
    /\ run onItem items st = Ok st'.
Proof.
  revert st; induction lines as [|l lines IH]; intros st; cbn [feed].
  - split.
    + intros H. exists []. split; [constructor | exact H].
    + intros (items & HF & H). inversion HF; subst. exact H.
  - split.
    + intros H. destruct (JSON_parse l) as [item|] eqn:El; [|discriminate].
      destruct (onItem item st) as [st1|e1] eqn:E1; cbn [bind] in H; [|discriminate].
      apply IH in H as (items & HF & H).
      exists (item :: items). split; [constructor; assumption|].
      cbn [run]. rewrite E1. exact H.
    + intros (items & HF & H). inversion HF as [|? item ? items' Hl HF']; subst.
      rewrite Hl. cbn [run] in H.
      destruct (onItem item st) as [st1|e1]; cbn [bind] in H |- *; [|discriminate].
      apply IH. eauto.
Qed.

(** The feeding throws at the first line that does not parse or whose
    record the callback throws on, the lines before it delivered. *)
Lemma feed_Throw_inv (lines : list (list char)) (st : St) (e : exn) :
  feed JSON_parse onItem lines st = Throw e ->
  exists before l after st1,
    lines = before ++ l :: after
    /\ feed JSON_parse onItem before st = Ok st1
    /\ ((JSON_parse l = None /\ e = SyntaxError "Unexpected token in JSON")
        \/ exists item, JSON_parse l = Some item /\ onItem item st1 = Throw e).
Proof.
  revert st; induction lines as [|l lines IH]; intros st H; cbn [feed] in H.
  - discriminate.
  - destruct (JSON_parse l) as [item|] eqn:El.
    + destruct (onItem item st) as [st1|e1] eqn:E1; cbn [bind] in H.
      * apply IH in H as (before & l0 & after & st2 & -> & Hb & Hl).
        exists (l :: before), l0, after, st2. split; [reflexivity|].
        split; [|exact Hl]. cbn [feed]. rewrite El, E1. exact Hb.
      * injection H as ->. exists [], l, lines, st.
        split; [reflexivity|]. split; [reflexivity|]. right. eauto.
    + injection H as <-. exists [], l, lines, st.
      split; [reflexivity|]. split; [reflexivity|]. left. auto.
Qed.

(** C2. Chunk-boundary independence of the NDJSON splitter: two ways of
    cutting the same bytes into chunks (inside a multi-byte character,
    between a line and its newline, anywhere) make [forEachNdjson] end in
    the same result, however the stream ends. When the stream ends
    normally, that result is the one of handing to the callback, in order,
    the parsed record of every line of the decoded bytes that trimming
    leaves non-empty: the lines closed by a newline and then, as one more
    line, the text after the last newline together with what the flushed
    decoder gives. When the stream ends in a read error, the records of
    the lines closed by a newline are handed over before the error is
    thrown. *)
Theorem forEachNdjson_chunk_independent
    (chunks1 chunks2 : list (list Byte.byte)) (fin : stream_end) (st : St) :
  concat chunks1 = concat chunks2 ->
  forEachNdjson JSON_parse onItem (Some (chunks1, fin)) st
  = forEachNdjson JSON_parse onItem (Some (chunks2, fin)) st
  /\ forEachNdjson JSON_parse onItem (Some (chunks1, Done)) st
     = feed JSON_parse onItem (payload_lines (concat chunks1)) st
  /\ (forall e,
        forEachNdjson JSON_parse onItem (Some (chunks1, ReadError e)) st
        = (st' <- feed JSON_parse onItem (complete_lines (concat chunks1)) st ;;
           Throw e))
  /\ payload_lines (concat chunks1)
     = complete_lines (concat chunks1)
       ++ (if nonempty (trim (trailing (concat chunks1)))
           then [trim (trailing (concat chunks1))] else []).
Proof.
  intros H. split; [|split; [|split]].
  - rewrite (forEachNdjson_concat chunks1), (forEachNdjson_concat chunks2), H.
    reflexivity.
  - rewrite forEachNdjson_spec. unfold ndjson_spec, payload_lines, stream_lines.
    destruct (decode_stream dinit (concat chunks1)) as [d text].
    destruct (lines_of text) as [terminated rest]. apply deliver_feed.
  - intros e. apply forEachNdjson_read_error.
  - unfold payload_lines, stream_lines, complete_lines, trailing.
    destruct (decode_stream dinit (concat chunks1)) as [d text].
    destruct (lines_of text) as [terminated rest]. cbn [fst snd].
    rewrite map_app, filter_app. reflexivity.
Qed.

End LineSplitterProofs.

(** ** Binary64 addition and NaN *)

Lemma shr_1_nonneg (mrs : shr_record) :
  (0 <= shr_m mrs)%Z -> (0 <= shr_m (shr_1 mrs))%Z.
Proof.
  destruct mrs as [m r s0]. simpl.
  destruct m as [|p|p]; simpl; intros H; [lia | | lia].
  destruct p; simpl; lia.
Qed.

Lemma iter_pos_invariant {A : Type} (P : A -> Prop) (f : A -> A) :
  (forall x, P x -> P (f x)) ->
  forall n x, P x -> P (iter_pos f n x).
Proof.
  intros Hf n; induction n as [n IH|n IH|]; intros x Hx; simpl; auto.
Qed.

Lemma shr_nonneg (mrs : shr_record) (e n : Z) :
  (0 <= shr_m mrs)%Z -> (0 <= shr_m (fst (shr mrs e n)))%Z.
Proof.
  intros H. unfold shr. destruct n as [|p|p]; simpl; auto.
  apply (iter_pos_invariant (fun r => (0 <= shr_m r)%Z)); auto using shr_1_nonneg.
Qed.

Lemma shr_fexp_nonneg (m e : Z) (l : location) :
  (0 <= m)%Z -> (0 <= shr_m (fst (shr_fexp prec emax m e l)))%Z.
Proof.
  intros H. unfold shr_fexp. apply shr_nonneg.
  destruct l as [|[ | | ]]; simpl; exact H.
Qed.

Lemma round_nearest_even_nonneg (m : Z) (l : location) :
  (0 <= m)%Z -> (0 <= round_nearest_even m l)%Z.
Proof.
  intros H. unfold round_nearest_even.
  destruct l as [|[ | | ]]; try destruct (Z.even m); lia.
Qed.

(** Rounding a non-negative mantissa gives a zero, a finite number or an
    infinity. *)
Lemma binary_round_aux_not_nan (sx : bool) (mx ex : Z) (lx : location) :
  (0 <= mx)%Z -> is_nan (binary_round_aux prec emax sx mx ex lx) = false.
Proof.
  intros H. unfold binary_round_aux.
  pose proof (shr_fexp_nonneg mx ex lx H) as H1.
  destruct (shr_fexp prec emax mx ex lx) as [mrs' e']. simpl in H1.
  pose proof (shr_fexp_nonneg _ e' loc_Exact
                (round_nearest_even_nonneg _ (loc_of_shr_record mrs') H1)) as H2.
  destruct (shr_fexp prec emax _ e' loc_Exact) as [mrs'' e'']. simpl in H2.
  destruct (shr_m mrs'') as [|p|p]; [reflexivity | | lia].
  destruct (e'' <=? emax - prec)%Z; reflexivity.
Qed.

Lemma binary_normalize_not_nan (m e : Z) (szero : bool) :
  is_nan (binary_normalize prec emax m e szero) = false.
Proof.
  unfold binary_normalize, binary_round.
  destruct m as [|p|p]; [reflexivity | |];
    destruct (shl_align _ _ _) as [mz ez]; apply binary_round_aux_not_nan; lia.
Qed.

(** Adding a finite number never makes a NaN out of a number. *)
Lemma js_add_finite_not_nan (x y : number) :
  is_nan x = false -> is_finite y = true -> is_nan (js_add x y) = false.
Proof.
  unfold js_add. destruct x as [sx|sx| |sx mx ex]; try discriminate;
    destruct y as [sy|sy| |sy my ey]; try discriminate; intros _ _; simpl;
    try reflexivity.
  - destruct sx, sy; reflexivity.
  - apply binary_normalize_not_nan.
Qed.

(** The sum of two opposite infinities is NaN. *)
Example js_add_opposite_infinities :
  js_add (S754_infinity false) (S754_infinity true) = NaN.
Proof. reflexivity. Qed.

(** ** The error monad, inverted *)

Lemma bind_Ok_inv {A B : Type} (r : result A) (k : A -> result B) (b : B) :
  bind r k = Ok b -> exists a, r = Ok a /\ k a = Ok b.
Proof. destruct r as [a|e]; simpl; [eauto | discriminate]. Qed.

Ltac bind_inv H :=
  repeat match type of H with
    | bind ?r ?k = Ok ?b =>
        let a := fresh "a" in
        let E := fresh "E" in
        apply bind_Ok_inv in H; destruct H as (a & E & H)
    end.

(** ** The [Map] of accumulators *)

Definition sum_gamesPlayed (ps : players_map) : N :=
  fold_right (fun e acc => (gamesPlayed (snd e) + acc)%N) 0%N ps.

Lemma Map_set_absent (k : key) (p : player) (ps : players_map) :
  Map_has k ps = false -> Map_set k p ps = ps ++ [(k, p)].
Proof.
  induction ps as [|[k' p'] ps IH]; simpl; [reflexivity|].
  destruct (key_eqb k' k); simpl; [discriminate|].
  intros H. now rewrite IH.
Qed.

Lemma sum_gamesPlayed_app (ps qs : players_map) :
  sum_gamesPlayed (ps ++ qs) = (sum_gamesPlayed ps + sum_gamesPlayed qs)%N.
Proof. induction ps as [|e ps IH]; simpl; [reflexivity | rewrite IH; lia]. Qed.

(** Writing an entry back changes the sum by the change of that entry. *)
Lemma sum_gamesPlayed_set (k : key) (s s' : player) (ps : players_map) :
  Map_get k ps = Some s ->
  (sum_gamesPlayed (Map_set k s' ps) + gamesPlayed s
   = sum_gamesPlayed ps + gamesPlayed s')%N.
Proof.
  induction ps as [|[k' p'] ps IH]; simpl; [discriminate|].
  destruct (key_eqb k' k); simpl.
  - intros H; injection H as ->. lia.
  - intros H. specialize (IH H). lia.
Qed.

Lemma key_eqb_KStr (k : key) (s : string) :
  key_eqb k (KStr s) = true <-> k = KStr s.
Proof.
  destruct k; simpl; split; try discriminate; intros H.
  - apply String.eqb_eq in H. now subst.
  - injection H as ->. apply String.eqb_refl.
Qed.

Lemma key_eqb_KStr_l (k : key) (s : string) :
  key_eqb (KStr s) k = true <-> k = KStr s.
Proof.
  destruct k; simpl; split; try discriminate; intros H.
  - apply String.eqb_eq in H. now subst.
  - injection H as ->. apply String.eqb_refl.
Qed.

Lemma Map_get_set_KStr (s : string) (p : player) (ps : players_map) :
  Map_get (KStr s) (Map_set (KStr s) p ps) = Some p.
Proof.
  induction ps as [|[k' p'] ps IH]; simpl.
  - now rewrite String.eqb_refl.
  - destruct (key_eqb k' (KStr s)) eqn:E; simpl; rewrite E; auto.
Qed.

Lemma Map_get_set_other (s : string) (k : key) (p : player) (ps : players_map) :
  k <> KStr s ->
  Map_get (KStr s) (Map_set k p ps) = Map_get (KStr s) ps.
Proof.
  intros Hk. induction ps as [|[k' p'] ps IH]; simpl.
  - destruct (key_eqb k (KStr s)) eqn:E; [|reflexivity].
    apply key_eqb_KStr in E. contradiction.
  - destruct (key_eqb k' k) eqn:E1; simpl.
    + destruct (key_eqb k' (KStr s)) eqn:E2; [|reflexivity].
      apply key_eqb_KStr in E2. subst k'.
      apply key_eqb_KStr_l in E1. contradiction.
    + now rewrite IH.
Qed.

Lemma Map_has_get (k : key) (ps : players_map) :
  Map_has k ps = true <-> exists p, Map_get k ps = Some p.
Proof.
  induction ps as [|[k' p'] ps IH]; simpl.
  - split; [discriminate | intros [p H]; discriminate].
  - destruct (key_eqb k' k); simpl; [split; eauto | exact IH].
Qed.

Lemma Map_has_false_get (k : key) (ps : players_map) :
  Map_has k ps = false -> Map_get k ps = None.
Proof.
  intros H. destruct (Map_get k ps) as [p|] eqn:E; [|reflexivity].
  assert (Map_has k ps = true) by (apply Map_has_get; eauto). congruence.
Qed.

(** ** The classifier *)

(** [side.analysis] of the white or black side of a record. *)
Definition analysis_of (g : value) (c : string) : value :=
  opt_member (opt_member (get g "players") c) "analysis".

Definition both_analyzed (g : value) : bool :=
  negb (nullish (analysis_of g "white")) && negb (nullish (analysis_of g "black")).

(** A move list is present when [g.moves] is truthy. *)
Definition move_list_present (g : value) : bool := truthy (get g "moves").

(** The number of space characters of a string. *)
Fixpoint space_count (s : string) : nat :=
  match s with
  | EmptyString => 0
  | String c rest => (if Ascii.eqb c " " then 1 else 0) + space_count rest
  end.

(** The move count the callback works with, read off the move list: a
    string that is not empty is cut into one piece more than it has space
    characters; anything falsy counts 0. *)
Definition split_pieces (g : value) : N :=
  match get g "moves" with
  | VStr s => if s =? "" then 0%N else N.of_nat (S (space_count s))
  | _ => 0%N
  end.

(** [split] gives one piece more than there are spaces. *)
Lemma split_space_length (s : string) :
  List.length (split_space s) = S (space_count s).
Proof.
  induction s as [|c s IH]; [reflexivity|].
  cbn [split_space space_count]. destruct (Ascii.eqb c " ").
  - cbn [List.length]. rewrite IH. reflexivity.
  - destruct (split_space s) as [|piece pieces]; [discriminate|].
    cbn [List.length] in *. exact IH.
Qed.

Definition is_short (g : value) : bool :=
  (split_pieces g <? 10)%N
  || strict_eq_string (get g "status") "aborted"
  || strict_eq_string (get g "status") "noStart".

(** What one record adds to [shortCount] and to [unanalyzedCount]. *)
Definition classification (g : value) : N * N :=
  if both_analyzed g then (0, 0)%N
  else if is_short g then (1, 0)%N
  else if move_list_present g then (0, 1)%N
  else (0, 0)%N.

(** *** The move count in the words of the specification

    The number of whitespace-separated tokens of the move list, 0 when it
    is absent. *)

(** Space, tab, line feed, vertical tab, form feed, carriage return. *)
Definition is_white (c : ascii) : bool :=
  ((N_of_ascii c =? 32) || ((9 <=? N_of_ascii c) && (N_of_ascii c <=? 13)))%N.

(** The tokens of a string: the maximal runs of characters that are not
    white space. [in_token] says that the character before belongs to one. *)
Fixpoint tokens_from (in_token : bool) (s : string) : nat :=
  match s with
  | EmptyString => 0
  | String c rest =>
      if is_white c then tokens_from false rest
      else (if in_token then 0 else 1) + tokens_from true rest
  end.

Definition move_tokens (g : value) : N :=
  match get g "moves" with
  | VStr s => N.of_nat (tokens_from false s)
  | _ => 0%N
  end.

Definition is_short_by_tokens (g : value) : bool :=
  (move_tokens g <? 10)%N
  || strict_eq_string (get g "status") "aborted"
  || strict_eq_string (get g "status") "noStart".

(** What one record adds to the two counters when the moves are counted
    as tokens. *)
Definition classification_by_tokens (g : value) : N * N :=
  if both_analyzed g then (0, 0)%N
  else if is_short_by_tokens g then (1, 0)%N
  else if move_list_present g then (0, 1)%N
  else (0, 0)%N.

(** A move list as the feed writes it: tokens with one space between two
    of them, no space in front or at the end, no other white space.
    [after_space] says that the string follows a space or is at its start. *)
Fixpoint single_spaced (after_space : bool) (s : string) : bool :=
  match s with
  | EmptyString => negb after_space
  | String c rest =>
      if Ascii.eqb c " " then negb after_space && single_spaced true rest
      else negb (is_white c) && single_spaced false rest
  end.

Lemma tokens_single_spaced (after_space : bool) (s : string) :
  single_spaced after_space s = true ->
  tokens_from (negb after_space) s
  = space_count s + (if after_space then 1 else 0).
Proof.
  revert after_space; induction s as [|c s IH]; intros after_space H.
  - destruct after_space; [discriminate | reflexivity].
  - cbn [single_spaced tokens_from space_count] in *.
    destruct (Ascii.eqb_spec c " ") as [->|Hc].
    + apply andb_true_iff in H as [Ha H]. change (is_white " ") with true. cbn iota.
      destruct after_space; [discriminate|].
      pose proof (IH true H) as IH1. cbn [negb] in IH1. rewrite IH1. lia.
    + apply andb_true_iff in H as [Hw H]. apply negb_true_iff in Hw. rewrite Hw.
      pose proof (IH false H) as IH1. cbn [negb] in IH1. rewrite IH1.
      destruct after_space; cbn [negb]; lia.
Qed.

Section AggregationProofs.

Context {C : Coercions}.

Lemma member_Ok (v : value) (k : string) (w : value) :
  member v k = Ok w -> nullish v = false /\ w = get v k.
Proof.
  unfold member. destruct (nullish v); [discriminate|].
  intros H; injection H as <-. auto.
Qed.

Lemma update_player_gamesPlayed (side : value) (s s' : player) :
  update_player side s = Ok s' -> gamesPlayed s' = (gamesPlayed s + 1)%N.
Proof.
  unfold update_player. destruct (truthy (opt_member side "analysis")).
  - intros H. bind_inv H. injection H as <-. reflexivity.
  - intros H. injection H as <-. reflexivity.
Qed.

Lemma record_side_sum (players : value) (game : N) (c : string)
    (ps ps' : players_map) :
  record_side players game c ps = Ok ps' ->
  sum_gamesPlayed ps' = (sum_gamesPlayed ps + 1)%N.
Proof.
  unfold record_side.
  set (side := opt_member players c).
  set (k := key_of (side_name side) game (c =? "white")).
  set (ps1 := if negb (Map_has k ps) then _ else ps).
  assert (Hps1 : sum_gamesPlayed ps1 = sum_gamesPlayed ps).
  { subst ps1. destruct (Map_has k ps) eqn:E; simpl; [reflexivity|].
    rewrite Map_set_absent by exact E.
    rewrite sum_gamesPlayed_app. simpl. lia. }
  destruct (Map_get k ps1) as [s|] eqn:Eg; [|discriminate].
  intros H. bind_inv H. injection H as <-.
  pose proof (sum_gamesPlayed_set k s a ps1 Eg) as Hs.
  apply update_player_gamesPlayed in E. lia.
Qed.

Lemma split_length_pieces (g : value) (mc : N) :
  (if truthy (get g "moves") then split_length (get g "moves") else Ok 0%N) = Ok mc ->
  mc = split_pieces g.
Proof.
  unfold split_pieces. intros E.
  destruct (get g "moves") as [| |b|x|s|l|l]; simpl in E;
    try discriminate; try (destruct b; simpl in E; try discriminate);
    try (destruct (negb (is_zero x || is_nan x)); simpl in E; try discriminate);
    try (destruct (s =? ""); simpl in E);
    injection E as <-; rewrite ?split_space_length; reflexivity.
Qed.

(** The counters after one record. *)
Lemma onGame_counters (g : value) (st st' : state) :
  onGame g st = Ok st' ->
  gameCount st' = (gameCount st + 1)%N /\
  sum_gamesPlayed (ps st') = (sum_gamesPlayed (ps st) + 2)%N /\
  shortCount st' = (shortCount st + fst (classification g))%N /\
  unanalyzedCount st' = (unanalyzedCount st + snd (classification g))%N.
Proof.
  unfold onGame. intros H. bind_inv H.
  apply member_Ok in E as [Hg ->].
  apply member_Ok in E0 as [_ ->].
  apply member_Ok in E2 as [_ ->].
  match type of H with
  | (let '(_, _) := ?t in _) = _ => destruct t as [sc uc] eqn:Ecls
  end.
  bind_inv H. injection H as <-. cbn [gameCount ps shortCount unanalyzedCount].
  apply record_side_sum in E, E0.
  assert (Hmc : a1 = split_pieces g) by (apply split_length_pieces; exact E1).
  subst a1.
  unfold classification, both_analyzed, is_short, move_list_present, analysis_of.
  set (hw := negb (nullish (opt_member (opt_member (get g "players") "white") "analysis"))) in *.
  set (hb := negb (nullish (opt_member (opt_member (get g "players") "black") "analysis"))) in *.
  set (short := (_ || _ || _)%bool) in *.
  destruct hw, hb, short, (truthy (get g "moves")); simpl in Ecls;
    injection Ecls as <- <-; simpl; repeat split; lia.
Qed.

(** Without a move list the move count is 0, so the game is short. *)
Lemma no_move_list_is_short (g : value) :
  move_list_present g = false -> is_short g = true.
Proof.
  unfold move_list_present, is_short, split_pieces.
  destruct (get g "moves") as [| |b|x|s|l|l]; simpl; try reflexivity.
  destruct (s =? ""); simpl; [reflexivity | discriminate].
Qed.

(** C1, amended. After the callback has run on a record, [shortCount] and
    [unanalyzedCount] have moved as the classification says: nothing when
    both sides have an analysis; otherwise [shortCount] goes up by one when
    the game is short (a move count below 10, or status "aborted" or
    "noStart"), else [unanalyzedCount] goes up by one when a move list is
    present, else nothing; and a record without a move list is always
    short. The move count is the number of pieces the move list is cut into
    at its space characters, one more than it has of them (0 for an absent
    or empty list): on a move list written with single spaces between its
    tokens and no other white space, that is the number of its tokens. *)
Theorem onGame_classifies (g : value) (st st' : state) :
  onGame g st = Ok st' ->
  (both_analyzed g = true ->
     shortCount st' = shortCount st /\ unanalyzedCount st' = unanalyzedCount st) /\
  (both_analyzed g = false -> is_short g = true ->
     shortCount st' = (shortCount st + 1)%N /\ unanalyzedCount st' = unanalyzedCount st) /\
  (both_analyzed g = false -> is_short g = false -> move_list_present g = true ->
     shortCount st' = shortCount st /\ unanalyzedCount st' = (unanalyzedCount st + 1)%N) /\
  (both_analyzed g = false -> is_short g = false -> move_list_present g = false ->
     shortCount st' = shortCount st /\ unanalyzedCount st' = unanalyzedCount st) /\
  (move_list_present g = false -> is_short g = true) /\
  (forall s, get g "moves" = VStr s -> single_spaced true s = true ->
     split_pieces g = move_tokens g
     /\ is_short g = is_short_by_tokens g
     /\ classification g = classification_by_tokens g).
Proof.
  intros H. apply onGame_counters in H as (_ & _ & Hs & Hu).
  unfold classification in Hs, Hu.
  assert (Htok : forall s, get g "moves" = VStr s -> single_spaced true s = true ->
                   split_pieces g = move_tokens g).
  { intros s Hm Hsp. unfold split_pieces, move_tokens. rewrite Hm.
    pose proof (tokens_single_spaced true s Hsp) as Ht. cbn [negb] in Ht.
    destruct s as [|c s]; [discriminate|].
    change (String c s =? "") with false. cbv iota. f_equal. lia. }
  split; [|split; [|split; [|split; [|split]]]].
  - intros Hb. rewrite Hb in Hs, Hu. simpl in *. lia.
  - intros Hb Hsh. rewrite Hb, Hsh in Hs, Hu. simpl in *. lia.
  - intros Hb Hsh Hm. rewrite Hb, Hsh, Hm in Hs, Hu. simpl in *. lia.
  - intros Hb Hsh Hm. rewrite Hb, Hsh, Hm in Hs, Hu. simpl in *. lia.
  - apply no_move_list_is_short.
  - intros s Hm Hsp. pose proof (Htok s Hm Hsp) as Hp.
    assert (Hsh : is_short g = is_short_by_tokens g).
    { unfold is_short, is_short_by_tokens. rewrite Hp. reflexivity. }
    split; [exact Hp|]. split; [exact Hsh|].
    unfold classification, classification_by_tokens. rewrite Hsh. reflexivity.
Qed.

Lemma aggregate_app (games1 games2 : list value) (st : state) :
  aggregate (games1 ++ games2) st =
  (st' <- aggregate games1 st ;; aggregate games2 st').
Proof.
  revert st; induction games1 as [|g games1 IH]; intros st; simpl; [reflexivity|].
  destruct (onGame g st); simpl; auto.
Qed.

Lemma aggregate_sum (games : list value) (st st' : state) :
  aggregate games st = Ok st' ->
  gameCount st' = (gameCount st + N.of_nat (List.length games))%N /\
  sum_gamesPlayed (ps st') = (sum_gamesPlayed (ps st) + 2 * N.of_nat (List.length games))%N.
Proof.
  revert st; induction games as [|g games IH]; intros st H.
  - injection H as <-. simpl. lia.
  - cbn [aggregate] in H. bind_inv H.
    apply onGame_counters in E as (Hc & Hs & _).
    apply IH in H as (Hc' & Hs').
    cbn [List.length]. lia.
Qed.

(** C4. Once the callback has run on every record of a finite stream,
    starting from the empty accumulators, the [gamesPlayed] of all entries
    of the player map add up to twice [gameCount] (and [gameCount] is the
    number of records): every record charges one side-occurrence to the
    accumulator of white and one to the accumulator of black. *)
Theorem gamesPlayed_sum_twice_gameCount (games : list value) (st : state) :
  aggregate games initial = Ok st ->
  gameCount st = N.of_nat (List.length games) /\
  sum_gamesPlayed (ps st) = (2 * gameCount st)%N.
Proof.
  intros H. apply aggregate_sum in H as (Hc & Hs).
  change (gameCount initial) with 0%N in Hc.
  change (sum_gamesPlayed (ps initial)) with 0%N in Hs. lia.
Qed.

End AggregationProofs.

(** ** Identity keys *)

(** [g.players?.[c]] *)
Definition side_of (g : value) (c : string) : value :=
  opt_member (get g "players") c.

(** [side.user?.name], before the default. *)
Definition raw_name (side : value) : value :=
  opt_member (opt_member side "user") "name".

(** The side [c] of [g] is charged to the accumulator named [s]. *)
Definition resolves_to (s : string) (g : value) (c : string) : bool :=
  match side_name (side_of g c) with
  | VStr t => t =? s
  | _ => false
  end.

(** The side-occurrences of a stream that are charged to [s]. *)
Fixpoint occurrences (s : string) (games : list value) : N :=
  match games with
  | [] => 0
  | g :: rest =>
      ((if resolves_to s g "white" then 1 else 0)
       + (if resolves_to s g "black" then 1 else 0)
       + occurrences s rest)%N
  end.

(** [gamesPlayed] of the accumulator named [s], 0 when there is none. *)
Definition played (s : string) (ps : players_map) : N :=
  match Map_get (KStr s) ps with
  | Some p => gamesPlayed p
  | None => 0%N
  end.

(** The number of entries of the map under the name [s]. *)
Definition entries (s : string) (ps : players_map) : nat :=
  List.length (filter (fun e => key_eqb (fst e) (KStr s)) ps).

Lemma entries_absent (s : string) (ps : players_map) :
  Map_has (KStr s) ps = false -> entries s ps = 0.
Proof.
  unfold entries, Map_has. induction ps as [|[k p] ps IH]; simpl; [reflexivity|].
  destruct (key_eqb k (KStr s)); simpl; [discriminate | exact IH].
Qed.

Lemma entries_Map_set (s : string) (k : key) (p : player) (ps : players_map) :
  entries s (Map_set k p ps) =
  if Map_has k ps then entries s ps
  else entries s ps + (if key_eqb k (KStr s) then 1 else 0).
Proof.
  unfold entries, Map_has. induction ps as [|[k' p'] ps IH]; simpl.
  - destruct (key_eqb k (KStr s)); reflexivity.
  - destruct (key_eqb k' k) eqn:E; simpl.
    + destruct (key_eqb k' (KStr s)); reflexivity.
    + destruct (key_eqb k' (KStr s)); simpl; rewrite IH;
        destruct (existsb _ ps); lia.
Qed.

Lemma key_of_KStr (name : value) (game : N) (white : bool) (s : string) :
  key_of name game white = KStr s <-> name = VStr s.
Proof.
  destruct name; simpl; split; intros H; try discriminate; congruence.
Qed.

Lemma key_is_KStr (k : key) (s : string) : k = KStr s \/ k <> KStr s.
Proof.
  destruct k as [| | | |t|]; try (right; discriminate).
  destruct (String.eqb_spec t s); [left; congruence | right; congruence].
Qed.

Section IdentityProofs.

Context {C : Coercions}.

(** The two turns of the loop over the colours, inside the callback. *)
Lemma onGame_sides (g : value) (st st' : state) :
  onGame g st = Ok st' ->
  exists ps1,
    record_side (get g "players") (gameCount st + 1)%N "white" (ps st) = Ok ps1 /\
    record_side (get g "players") (gameCount st + 1)%N "black" ps1 = Ok (ps st').
Proof.
  unfold onGame. intros H. bind_inv H.
  apply member_Ok in E as [_ ->].
  match type of H with
  | (let '(_, _) := ?t in _) = _ => destruct t as [sc uc]
  end.
  bind_inv H. injection H as <-. eauto.
Qed.

Lemma record_side_played (s : string) (players : value) (game : N) (c : string)
    (ps ps' : players_map) :
  record_side players game c ps = Ok ps' ->
  played s ps' =
    (played s ps
     + (match side_name (opt_member players c) with
        | VStr t => if String.eqb t s then 1 else 0
        | _ => 0
        end))%N
  /\ (entries s ps <= 1 -> entries s ps' <= 1)%nat.
Proof.
  unfold record_side.
  set (side := opt_member players c).
  set (name := side_name side).
  set (k := key_of name game (c =? "white")).
  set (ps1 := if negb (Map_has k ps) then _ else ps).
  destruct (Map_get k ps1) as [s0|] eqn:Eg; [|discriminate].
  intros H. bind_inv H. injection H as <-.
  assert (Hhas : Map_has k ps1 = true) by (apply Map_has_get; eauto).
  split.
  - destruct (key_is_KStr k s) as [Hk|Hk].
    + assert (Hs0 : gamesPlayed s0 = played s ps).
      { unfold played. rewrite <- Hk. subst ps1.
        destruct (Map_has k ps) eqn:Eh; simpl in Eg.
        - now rewrite Eg.
        - rewrite (Map_has_false_get _ _ Eh).
          rewrite Hk, Map_get_set_KStr in Eg. now injection Eg as <-. }
      apply key_of_KStr in Hk as Hname. fold name. rewrite Hname, String.eqb_refl.
      unfold played at 1. rewrite Hk, Map_get_set_KStr.
      apply update_player_gamesPlayed in E. rewrite E, Hs0. reflexivity.
    + assert (Hmiss : match name with VStr t => if String.eqb t s then 1%N else 0%N | _ => 0%N end = 0%N).
      { destruct name as [| | | |t| |] eqn:En; try reflexivity.
        destruct (String.eqb_spec t s); [|reflexivity].
        exfalso. apply Hk. subst k. simpl. congruence. }
      fold name. rewrite Hmiss. unfold played.
      rewrite Map_get_set_other by exact Hk.
      subst ps1. destruct (negb (Map_has k ps)).
      * rewrite Map_get_set_other by exact Hk. lia.
      * lia.
  - intros Hle. rewrite entries_Map_set, Hhas.
    subst ps1. destruct (Map_has k ps) eqn:Eh; simpl; [exact Hle|].
    rewrite entries_Map_set, Eh.
    destruct (key_eqb k (KStr s)) eqn:Ek; [|lia].
    apply key_eqb_KStr in Ek. rewrite Ek in Eh.
    rewrite (entries_absent _ _ Eh). lia.
Qed.

Lemma aggregate_played (s : string) (games : list value) (st st' : state) :
  aggregate games st = Ok st' ->
  played s (ps st') = (played s (ps st) + occurrences s games)%N
  /\ (entries s (ps st) <= 1 -> entries s (ps st') <= 1)%nat.
Proof.
  revert st; induction games as [|g games IH]; intros st H.
  - injection H as <-. simpl. split; [lia | auto].
  - cbn [aggregate] in H. bind_inv H.
    apply onGame_sides in E as (ps1 & Hw & Hb).
    apply (record_side_played s) in Hw as (Hw & Hw').
    apply (record_side_played s) in Hb as (Hb & Hb').
    apply IH in H as (H & H').
    split; [|auto].
    rewrite H, Hb, Hw. cbn [occurrences]. unfold resolves_to, side_of.
    destruct (side_name (opt_member (get g "players") "white")) as [| | | |t| |];
      destruct (side_name (opt_member (get g "players") "black")) as [| | | |t'| |];
      cbv beta iota; try destruct (String.eqb t s); try destruct (String.eqb t' s); lia.
Qed.

(** C10. The identity key of a side is its user name when that is a
    non-empty string, and "Anonymous" when the user object is absent, the
    name is null or undefined, or the name is the empty string; the key of
    a string name is that string whatever the game and colour, so after
    any stream the map has at most one entry named "Anonymous", and its
    [gamesPlayed] counts every side-occurrence of the stream that resolved
    to "Anonymous". *)
Theorem anonymous_identity (games : list value) (st : state) :
  aggregate games initial = Ok st ->
  (forall side s, raw_name side = VStr s -> s <> "" -> side_name side = VStr s) /\
  (forall side,
     nullish (opt_member side "user") = true \/ nullish (raw_name side) = true
     \/ raw_name side = VStr "" ->
     side_name side = VStr "Anonymous") /\
  (forall s game white, key_of (VStr s) game white = KStr s) /\
  (entries "Anonymous" (ps st) <= 1)%nat /\
  played "Anonymous" (ps st) = occurrences "Anonymous" games.
Proof.
  intros H. split; [|split; [|split; [|split]]].
  - intros side s Hn Hs. unfold side_name. fold (raw_name side). rewrite Hn.
    unfold js_or. simpl. destruct (String.eqb_spec s ""); [contradiction | reflexivity].
  - intros side [Hu | [Hn | Hn]]; unfold side_name; fold (raw_name side).
    + unfold raw_name, opt_member at 1. rewrite Hu. reflexivity.
    + destruct (raw_name side); try discriminate; reflexivity.
    + rewrite Hn. reflexivity.
  - reflexivity.
  - apply (aggregate_played "Anonymous") in H as (_ & H). apply H.
    unfold entries. simpl. lia.
  - apply (aggregate_played "Anonymous") in H as (H & _). rewrite H. reflexivity.
Qed.

End IdentityProofs.

(** ** The ranking pool *)

(** [analyzedGames / gamesPlayed], as a rational. *)
Definition analyzed_ratio (m : metric) : Q :=
  (inject_Z (Z.of_N (analyzedGames (base m)))
   / inject_Z (Z.of_N (gamesPlayed (base m))))%Q.

Lemma ratio_at_least_half_spec (a g : N) :
  (0 < g)%N ->
  ratio_at_least_half a g = true <->
  (1 # 2 <= inject_Z (Z.of_N a) / inject_Z (Z.of_N g))%Q.
Proof.
  intros Hg. unfold ratio_at_least_half.
  destruct (N.eqb_spec g 0) as [->|_]; [lia|].
  assert (Hpos : (0 < inject_Z (Z.of_N g))%Q).
  { unfold Qlt. simpl. lia. }
  rewrite N.leb_le. split; intros H.
  - apply Qle_shift_div_l; [exact Hpos|].
    unfold Qle, Qmult, inject_Z. cbn [Qnum Qden]. lia.
  - apply (Qmult_le_r _ _ _ Hpos) in H.
    unfold Qdiv in H. rewrite <- Qmult_assoc in H.
    rewrite (Qmult_comm (/ _)), Qmult_inv_r, Qmult_1_r in H.
    + unfold Qle, Qmult, inject_Z in H. cbn [Qnum Qden] in H. lia.
    + intros E. rewrite E in Hpos. discriminate.
Qed.

(** The exact test agrees with binary64 division on small counters. *)
Definition ratio_at_least_half_binary64 (a g : N) : bool :=
  SFleb (decimal 5 1) (js_div (num_of_Z (Z.of_N a)) (num_of_Z (Z.of_N g))).

Fixpoint upto (n : nat) : list N :=
  match n with
  | O => [0%N]
  | S k => N.of_nat n :: upto k
  end.

Lemma ratio_at_least_half_binary64_agrees :
  forallb (fun a => forallb (fun g =>
      Bool.eqb (ratio_at_least_half a g) (ratio_at_least_half_binary64 a g))
    (upto 64)) (upto 64) = true.
Proof. vm_compute. reflexivity. Qed.

(** C3. On a metrics list whose players have all played (as every finalized
    list does), [eligible] holds exactly the players with
    [analyzedGames >= 4] and [analyzedGames / gamesPlayed >= 0.5],
    [withAnalysis] exactly those with [analyzedGames > 0]; the pool is
    [eligible] when it has at least 2 members and [withAnalysis] otherwise;
    a player with 3 games played and 3 analysed is in [withAnalysis] and
    not in [eligible]. *)
Theorem ranking_pool (metrics : list metric) :
  Forall (fun m => (0 < gamesPlayed (base m))%N) metrics ->
  (forall m, In m (eligible metrics) <->
     In m metrics /\ (4 <= analyzedGames (base m))%N
     /\ (1 # 2 <= analyzed_ratio m)%Q) /\
  (forall m, In m (withAnalysis metrics) <->
     In m metrics /\ (0 < analyzedGames (base m))%N) /\
  (2 <= List.length (eligible metrics) -> pool metrics = eligible metrics) /\
  (List.length (eligible metrics) < 2 -> pool metrics = withAnalysis metrics) /\
  (forall m, In m metrics ->
     gamesPlayed (base m) = 3%N -> analyzedGames (base m) = 3%N ->
     In m (withAnalysis metrics) /\ ~ In m (eligible metrics)).
Proof.
  intros Hpos. rewrite Forall_forall in Hpos.
  split; [|split; [|split; [|split]]].
  - intros m. unfold eligible. rewrite filter_In. unfold is_eligible, analyzed_ratio.
    rewrite andb_true_iff, N.leb_le.
    split; intros (Hin & H4 & Hr); repeat split; auto;
      apply (ratio_at_least_half_spec _ _ (Hpos m Hin)); exact Hr.
  - intros m. unfold withAnalysis. rewrite filter_In. unfold has_analysis.
    rewrite N.ltb_lt. reflexivity.
  - intros H. unfold pool. apply Nat.leb_le in H. now rewrite H.
  - intros H. unfold pool. apply Nat.leb_gt in H. now rewrite H.
  - intros m Hin Hg Ha. unfold withAnalysis, eligible. rewrite !filter_In.
    unfold has_analysis, is_eligible. rewrite Ha. split; [auto|].
    intros [_ H]. discriminate.
Qed.

(** ** The finalized accuracy *)

Definition ten : number := num_of_Z 10.

(** The mean of the samples, as the code computes it. *)
Definition mean (accs : list number) : number :=
  js_div (sum_accuracies accs) (length_number accs).

(** [n - 1/2 <= x < n + 1/2] for the finite [x = (-1)^s * m * 2^e]: [n] is
    the integer nearest to [x], the upper one on a tie. *)
Definition nearest_half_up (s : bool) (m : positive) (e : Z) (n : Z) : Prop :=
  ((2 * n - 1) * 2 ^ (- e) <= 2 * cond_Zopp s (Zpos m) < (2 * n + 1) * 2 ^ (- e))%Z.

(** [r] is [x] rounded to one decimal place: ten times [x] is brought to
    the nearest integer, which is then divided by ten. A product that has
    no fractional part, or is not finite, is divided as it is. *)
Definition rounded_to_one_decimal (x r : number) : Prop :=
  match js_mul x ten with
  | S754_finite s m e =>
      if (e <? 0)%Z then
        exists n, nearest_half_up s m e n
                  /\ r = js_div (binary_normalize prec emax n 0 s) ten
      else r = js_div (S754_finite s m e) ten
  | y => r = js_div y ten
  end.

(** Scenario E. *)
Definition scenario_E : list number :=
  [decimal 873 1; num_of_Z 91; decimal 8865 2].

Lemma Math_round_nearest (s : bool) (m : positive) (e : Z) :
  (e < 0)%Z ->
  nearest_half_up s m e
    ((2 * cond_Zopp s (Zpos m) + 2 ^ (- e)) / 2 ^ (1 - e))%Z.
Proof.
  intros He. unfold nearest_half_up.
  set (M := cond_Zopp s (Zpos m)).
  assert (HP : (0 < 2 ^ (- e))%Z) by (apply Z.pow_pos_nonneg; lia).
  replace (1 - e)%Z with (Z.succ (- e)) by lia.
  rewrite Z.pow_succ_r by lia.
  set (P := (2 ^ (- e))%Z) in *.
  pose proof (Z.div_mod (2 * M + P) (2 * P) ltac:(lia)) as Hdm.
  pose proof (Z.mod_pos_bound (2 * M + P) (2 * P) ltac:(lia)) as Hb.
  set (n := ((2 * M + P) / (2 * P))%Z) in *.
  nia.
Qed.

(** C7. The finalized accuracy is 0 without samples; with samples it is
    their mean rounded to one decimal place; the samples 87.3, 91.0 and
    88.65 finalize to 89.0. *)
Theorem accuracy_finalized (accs : list number) :
  (accs = [] -> accuracy_of accs = zero) /\
  (accs <> [] -> rounded_to_one_decimal (mean accs) (accuracy_of accs)) /\
  accuracy_of scenario_E = decimal 890 1.
Proof.
  split; [|split].
  - intros ->. reflexivity.
  - intros Hne. unfold accuracy_of, rounded_to_one_decimal.
    destruct accs as [|a accs]; [contradiction|].
    cbn [List.length Nat.ltb Nat.leb].
    fold (mean (a :: accs)). fold ten.
    destruct (js_mul (mean (a :: accs)) ten) as [z|i| |s m e]; try reflexivity.
    cbn [Math_round].
    destruct (Z.ltb_spec e 0) as [He|He].
    + destruct (Z.leb_spec 0 e) as [He'|_]; [lia|].
      eexists. split; [apply Math_round_nearest; exact He | reflexivity].
    + destruct (Z.leb_spec 0 e) as [_|He']; [reflexivity | lia].
  - vm_compute. reflexivity.
Qed.

(** ** The replies of the handler *)

Definition no_games : reply := fail 404 "Aucune partie trouvée.".
Definition no_analysis : reply := fail 400 "Aucune partie analysée.".

(** The two replies that say there is nothing to analyse. *)
Definition no_data (r : reply) : Prop := r = no_games \/ r = no_analysis.

Section HandlerProofs.

Context {C : Coercions}.
Context (JSON_parse : list N -> option value).
Context (up : upstream).

Lemma validate_rejects (req_body : value) (r : reply) :
  validate req_body = Ok (inl r) ->
  r = fail 400 "tournamentId et type requis"
  \/ r = fail 400 "tournamentId invalide"
  \/ r = fail 400 "type invalide".
Proof.
  unfold validate. intros H. bind_inv H.
  destruct (negb (truthy a) || negb (truthy a0)).
  - injection H as <-. auto.
  - bind_inv H. destruct (negb (test_alnum a1)).
    + injection H as <-. auto.
    + destruct (negb (strict_eq_string a0 "swiss") && negb (strict_eq_string a0 "arena"));
        [injection H as <-; auto | discriminate].
Qed.

Lemma get_tournament_rejects (url : string) (r : reply) :
  get_tournament up url = Ok (inl r) -> r = fail 404 "Tournoi introuvable.".
Proof.
  unfold get_tournament. destruct (fetch_metadata up url) as [e|ok json]; [discriminate|].
  destruct ok; simpl.
  - destruct json; simpl; discriminate.
  - intros H. now injection H as <-.
Qed.

Lemma get_games_rejects (url : string) (r : reply) :
  get_games up url = Ok (inl r) ->
  r = fail 500 "Impossible de récupérer les parties.".
Proof.
  unfold get_games. destruct (fetch_games up _) as [e|ok gRes]; [discriminate|].
  destruct ok; simpl; [discriminate|].
  intros H. now injection H as <-.
Qed.

(** A reply sent before the stream is read is one of five. *)
Lemma read_games_replied (req_body : value) (r : reply) :
  read_games JSON_parse up req_body = Ok (Replied r) ->
  r = fail 400 "tournamentId et type requis"
  \/ r = fail 400 "tournamentId invalide"
  \/ r = fail 400 "type invalide"
  \/ r = fail 404 "Tournoi introuvable."
  \/ r = fail 500 "Impossible de récupérer les parties.".
Proof.
  unfold read_games. intros H. bind_inv H.
  destruct a as [r0|[id endpoint]].
  - injection H as <-. apply validate_rejects in E. intuition.
  - bind_inv H. destruct a as [r0|tournament].
    + injection H as <-. apply get_tournament_rejects in E0. intuition.
    + bind_inv H. destruct a as [r0|gRes].
      * injection H as <-. apply get_games_rejects in E1. intuition.
      * bind_inv H. discriminate.
Qed.

Lemma on_exception_status (e : exn) :
  status (on_exception e) = if exn_name e =? "AbortError" then 504%N else 500%N.
Proof. unfold on_exception. destruct (exn_name e =? "AbortError"); reflexivity. Qed.

Lemma on_exception_not_no_data (e : exn) : ~ no_data (on_exception e).
Proof.
  intros [H|H]; apply (f_equal status) in H; rewrite on_exception_status in H;
    destruct (exn_name e =? "AbortError"); discriminate.
Qed.

Lemma pool_empty (metrics : list metric) :
  (List.length (pool metrics) =? 0)%nat = true <-> pool metrics = [].
Proof.
  rewrite Nat.eqb_eq. destruct (pool metrics); simpl; split; congruence.
Qed.

(** What the handler replies once the stream is read. *)
Lemma finish_cases (tournament : value) (st : state) :
  (gameCount st = 0%N /\ finish tournament st = Ok no_games)
  \/ (gameCount st <> 0%N /\ pool (metrics_of (ps st)) = []
      /\ finish tournament st = Ok no_analysis)
  \/ (gameCount st <> 0%N /\ pool (metrics_of (ps st)) <> []
      /\ ((exists p, finish tournament st = Ok (mkReply 200 (Success p)))
          \/ exists e, finish tournament st = Throw e)).
Proof.
  unfold finish. destruct (N.eqb_spec (gameCount st) 0) as [H0|H0]; [auto|].
  right. destruct (List.length (pool (metrics_of (ps st))) =? 0)%nat eqn:Ep.
  - apply pool_empty in Ep. auto.
  - right. repeat split; auto.
    + intros Hp. apply pool_empty in Hp. congruence.
    + destruct (member tournament "id") as [id|e]; simpl; eauto.
Qed.

(** An empty stream leaves the accumulators empty. *)
Lemma stream_games_empty (chunks : list (list Byte.byte)) :
  concat chunks = [] ->
  stream_games JSON_parse (Some (chunks, Done)) = Ok initial.
Proof.
  intros H. unfold stream_games. rewrite forEachNdjson_spec, H. reflexivity.
Qed.

(** The pool is empty exactly when no player has an analysed game. *)
Lemma pool_empty_iff (metrics : list metric) :
  pool metrics = [] <-> forall m, In m metrics -> analyzedGames (base m) = 0%N.
Proof.
  unfold pool. split.
  - intros H m Hin.
    assert (Hw : withAnalysis metrics = []).
    { destruct (2 <=? List.length (eligible metrics))%nat eqn:E; [|exact H].
      rewrite H in E. discriminate. }
    destruct (N.eq_dec (analyzedGames (base m)) 0) as [|Hne]; [assumption|].
    assert (Hm : In m (withAnalysis metrics)).
    { apply filter_In. split; [exact Hin|]. apply N.ltb_lt. lia. }
    rewrite Hw in Hm. contradiction.
  - intros H.
    assert (He : eligible metrics = []).
    { unfold eligible. induction metrics as [|m ms IH]; [reflexivity|].
      simpl. unfold is_eligible at 1. rewrite (H m (or_introl eq_refl)). simpl.
      apply IH. intros m' Hm'. apply H. now right. }
    rewrite He. simpl. unfold withAnalysis.
    induction metrics as [|m ms IH]; [reflexivity|].
    simpl. unfold has_analysis at 1. rewrite (H m (or_introl eq_refl)). simpl.
    apply IH.
    + intros m' Hm'. apply H. now right.
    + clear - He. simpl in He. destruct (is_eligible m); [discriminate | exact He].
Qed.

(** A no-data reply is sent once the stream is read, on no game or on an
    empty pool. *)
Lemma no_data_streamed (req_body : value) :
  no_data (analyze JSON_parse up req_body) <->
  exists tournament st,
    read_games JSON_parse up req_body = Ok (Streamed tournament st)
    /\ (gameCount st = 0%N \/ pool (metrics_of (ps st)) = []).
Proof.
  unfold analyze, handle.
  destruct (read_games JSON_parse up req_body) as [[r|tournament st]|e] eqn:E; simpl.
  - split.
    + intros Hno. exfalso. apply read_games_replied in E.
      destruct Hno as [-> | ->]; intuition discriminate.
    + intros (t & st & H & _). discriminate.
  - split.
    + intros Hno. exists tournament, st. split; [reflexivity|].
      destruct (finish_cases tournament st)
        as [(H0 & _) | [(_ & Hp & _) | (_ & _ & [[p Hf] | [e Hf]])]];
        auto; rewrite Hf in Hno.
      * destruct Hno as [H|H]; discriminate.
      * exfalso. exact (on_exception_not_no_data e Hno).
    + intros (t & st' & H & Hor). injection H as <- <-.
      destruct (finish_cases tournament st)
        as [(H0 & Hf) | [(H0 & Hp & Hf) | (H0 & Hp & _)]].
      * rewrite Hf. left. reflexivity.
      * rewrite Hf. right. reflexivity.
      * destruct Hor; contradiction.
  - split.
    + intros Hno. exfalso. exact (on_exception_not_no_data e Hno).
    + intros (t & st & H & _). discriminate.
Qed.

End HandlerProofs.

(** ** Accumulating the analysis of a side (src/server.js) *)

(** No counter of the accumulator is NaN. *)
Definition counters_not_NaN (p : player) : Prop :=
  is_nan (inaccuracies p) = false /\ is_nan (mistakes p) = false
  /\ is_nan (blunders p) = false.

Lemma Forall_Map_set (P : player -> Prop) (k : key) (p : player) (ps : players_map) :
  Forall P (Map_values ps) -> P p -> Forall P (Map_values (Map_set k p ps)).
Proof.
  unfold Map_values. induction ps as [|[k' p'] ps IH]; simpl; intros H Hp.
  - constructor; [exact Hp | constructor].
  - inversion H as [|? ? Hp' Hrest]; subst.
    destruct (key_eqb k' k); simpl; constructor; auto.
Qed.

Lemma Map_get_Forall (P : player -> Prop) (k : key) (p : player) (ps : players_map) :
  Forall P (Map_values ps) -> Map_get k ps = Some p -> P p.
Proof.
  unfold Map_values. induction ps as [|[k' p'] ps IH]; simpl; intros H Hg; [discriminate|].
  inversion H as [|? ? Hp' Hrest]; subst.
  destruct (key_eqb k' k); [injection Hg as <-; exact Hp' | auto].
Qed.

Section AccumulationProofs.

Context {C : Coercions}.

(** [Number(v) || 0] is never NaN. *)
Lemma Number_or_0_not_nan (v : value) (x : number) :
  Number_or_0 v = Ok x -> is_nan x = false.
Proof.
  unfold Number_or_0. intros H. bind_inv H. injection H as <-.
  simpl. destruct (is_zero a || is_nan a) eqn:Ez; simpl; [reflexivity|].
  apply orb_false_iff in Ez. tauto.
Qed.

(** A missing field counts for 0, and so does a value [Number] turns into
    NaN (a string that is not numeric, an object). *)
Lemma Number_or_0_zero (v : value) :
  Number v = Ok NaN -> Number_or_0 v = Ok zero.
Proof. unfold Number_or_0. intros ->. reflexivity. Qed.

Lemma Number_or_0_missing : Number_or_0 VUndefined = Ok zero.
Proof. reflexivity. Qed.

(** What [update_player] does with a side that has an analysis. *)
Lemma update_player_analysis (side : value) (s s' : player) :
  update_player side s = Ok s' ->
  truthy (opt_member side "analysis") = true ->
  let a := opt_member side "analysis" in
  exists i m b,
    Number_or_0 (get a "inaccuracy") = Ok i /\
    Number_or_0 (get a "mistake") = Ok m /\
    Number_or_0 (get a "blunder") = Ok b /\
    inaccuracies s' = js_add (inaccuracies s) i /\
    mistakes s' = js_add (mistakes s) m /\
    blunders s' = js_add (blunders s) b /\
    analyzedGames s' = (analyzedGames s + 1)%N /\
    (nullish (get a "accuracy") = true -> accuracies s' = accuracies s) /\
    (nullish (get a "accuracy") = false ->
     exists x, Number_or_0 (get a "accuracy") = Ok x
               /\ accuracies s' = accuracies s ++ [x]).
Proof.
  unfold update_player. intros H Ha. rewrite Ha in H. bind_inv H.
  injection H as <-. cbn [inaccuracies mistakes blunders analyzedGames accuracies].
  exists a, a0, a1. repeat split; auto.
  - intros Hn. rewrite Hn in E2. simpl in E2. now injection E2 as <-.
  - intros Hn. rewrite Hn in E2. simpl in E2.
    apply bind_Ok_inv in E2 as (x & Ex & E2). injection E2 as <-. eauto.
Qed.

(** What it does with a side that has none. *)
Lemma update_player_no_analysis (side : value) (s s' : player) :
  update_player side s = Ok s' ->
  truthy (opt_member side "analysis") = false ->
  inaccuracies s' = inaccuracies s /\ mistakes s' = mistakes s
  /\ blunders s' = blunders s /\ analyzedGames s' = analyzedGames s
  /\ accuracies s' = accuracies s.
Proof.
  unfold update_player. intros H Ha. rewrite Ha in H.
  injection H as <-. repeat split.
Qed.

(** The three counts of the analysis of a side convert to finite numbers. *)
Definition finite_counts (side : value) : Prop :=
  forall field x,
    In field ["inaccuracy"; "mistake"; "blunder"] ->
    Number_or_0 (get (opt_member side "analysis") field) = Ok x ->
    is_finite x = true.

Lemma update_player_not_NaN (side : value) (s s' : player) :
  finite_counts side -> counters_not_NaN s ->
  update_player side s = Ok s' -> counters_not_NaN s'.
Proof.
  intros Hfin (Hi & Hm & Hb) H. unfold counters_not_NaN.
  destruct (truthy (opt_member side "analysis")) eqn:Ha.
  - destruct (update_player_analysis _ _ _ H Ha)
      as (i & m & b & Ei & Em & Eb & Hi' & Hm' & Hb' & _).
    rewrite Hi', Hm', Hb'.
    repeat split; apply js_add_finite_not_nan; auto;
      eapply Hfin; try eassumption; simpl; auto.
  - destruct (update_player_no_analysis _ _ _ H Ha) as (Hi' & Hm' & Hb' & _).
    rewrite Hi', Hm', Hb'. repeat split; assumption.
Qed.

Lemma record_side_not_NaN (players : value) (game : N) (c : string)
    (ps ps' : players_map) :
  finite_counts (opt_member players c) ->
  Forall counters_not_NaN (Map_values ps) ->
  record_side players game c ps = Ok ps' ->
  Forall counters_not_NaN (Map_values ps').
Proof.
  unfold record_side. intros Hfin Hall.
  set (side := opt_member players c) in *.
  set (k := key_of (side_name side) game (c =? "white")).
  set (ps1 := if negb (Map_has k ps) then _ else ps).
  assert (H1 : Forall counters_not_NaN (Map_values ps1)).
  { subst ps1. destruct (negb (Map_has k ps)); [|exact Hall].
    apply Forall_Map_set; [exact Hall|]. repeat split. }
  destruct (Map_get k ps1) as [s0|] eqn:Eg; [|discriminate].
  intros H. bind_inv H. injection H as <-.
  apply Forall_Map_set; [exact H1|].
  eapply update_player_not_NaN; eauto.
  eapply Map_get_Forall; eauto.
Qed.

(** With finite counts in the feed, no counter of any accumulator is ever
    NaN. *)
Lemma aggregate_not_NaN (games : list value) (st st' : state) :
  Forall (fun g => finite_counts (side_of g "white")
                   /\ finite_counts (side_of g "black")) games ->
  Forall counters_not_NaN (Map_values (ps st)) ->
  aggregate games st = Ok st' ->
  Forall counters_not_NaN (Map_values (ps st')).
Proof.
  intros Hfin; revert st; induction Hfin as [|g games [Hw Hb] _ IH]; intros st Hall H.
  - now injection H as <-.
  - cbn [aggregate] in H. bind_inv H.
    apply onGame_sides in E as (ps1 & E1 & E2).
    apply IH in H; [exact H|].
    eapply record_side_not_NaN; [exact Hb | | exact E2].
    eapply record_side_not_NaN; [exact Hw | exact Hall | exact E1].
Qed.

End AccumulationProofs.

(** ** The team of an accumulator (src/server.js) *)

(** The rule of lines 97 and 101 on the team of an accumulator: the first
    side creates it with its team; a later side gives its team when the
    accumulator has none and the side has one. *)
Definition settle (current : option value) (t : value) : option value :=
  match current with
  | None => Some t
  | Some c => Some (if negb (truthy c) && truthy t then t else c)
  end.

(** [team] of the accumulator named [s]. *)
Definition team_of (s : string) (ps : players_map) : option value :=
  option_map team (Map_get (KStr s) ps).

(** The teams of the side-occurrences charged to [s], in stream order. *)
Fixpoint teams_seen (s : string) (games : list value) : list value :=
  match games with
  | [] => []
  | g :: rest =>
      (if resolves_to s g "white" then [opt_member (side_of g "white") "team"] else [])
      ++ (if resolves_to s g "black" then [opt_member (side_of g "black") "team"] else [])
      ++ teams_seen s rest
  end.

Lemma settle_sticky (l : list value) (c : value) :
  fold_left settle l (Some c) =
  Some (if truthy c then c
        else match find truthy l with Some v => v | None => c end).
Proof.
  revert c; induction l as [|t l IH]; intros c; simpl.
  - destruct (truthy c); reflexivity.
  - rewrite IH. destruct (truthy c) eqn:Ec; simpl; [now rewrite Ec|].
    destruct (truthy t) eqn:Et; [now rewrite Et | now rewrite Ec].
Qed.

(** Replaying the rule over the teams seen gives the first truthy one, and
    the team of the first side when there is none. *)
Lemma settle_first_truthy (t : value) (l : list value) :
  fold_left settle (t :: l) None =
  Some (match find truthy (t :: l) with Some v => v | None => t end).
Proof.
  simpl. rewrite settle_sticky. destruct (truthy t); reflexivity.
Qed.

Section TeamProofs.

Context {C : Coercions}.

Lemma update_player_team (side : value) (s s' : player) :
  update_player side s = Ok s' ->
  team s' = if negb (truthy (team s)) && truthy (opt_member side "team")
            then opt_member side "team" else team s.
Proof.
  unfold update_player. destruct (truthy (opt_member side "analysis")).
  - intros H. bind_inv H. injection H as <-. reflexivity.
  - intros H. injection H as <-. reflexivity.
Qed.

(** Once set, the team of an accumulator does not change. *)
Lemma update_player_team_sticky (side : value) (s s' : player) :
  update_player side s = Ok s' -> truthy (team s) = true -> team s' = team s.
Proof.
  intros H Ht. rewrite (update_player_team _ _ _ H), Ht. reflexivity.
Qed.

(** The entry named [s] after one turn of the loop over the colours. *)
Lemma record_side_entry (s : string) (players : value) (game : N) (c : string)
    (ps ps' : players_map) :
  record_side players game c ps = Ok ps' ->
  (side_name (opt_member players c) = VStr s ->
   exists s0 a,
     (Map_get (KStr s) ps = Some s0
      \/ (Map_get (KStr s) ps = None
          /\ s0 = new_player (VStr s) (opt_member players c)))
     /\ update_player (opt_member players c) s0 = Ok a
     /\ Map_get (KStr s) ps' = Some a) /\
  (side_name (opt_member players c) <> VStr s ->
   Map_get (KStr s) ps' = Map_get (KStr s) ps).
Proof.
  unfold record_side. intros H.
  set (side := opt_member players c) in *.
  set (name := side_name side) in *.
  set (k := key_of name game (c =? "white")) in *.
  set (ps1 := if negb (Map_has k ps) then _ else ps) in *.
  destruct (Map_get k ps1) as [s0|] eqn:Eg; [|discriminate].
  bind_inv H. injection H as <-. split.
  - intros Hname. assert (Hk : k = KStr s) by (subst k; rewrite Hname; reflexivity).
    exists s0, a. subst ps1. rewrite Hk in *. rewrite Map_get_set_KStr.
    split; [|split; [exact E | reflexivity]].
    destruct (Map_has (KStr s) ps) eqn:Eh; simpl in Eg.
    + left. exact Eg.
    + right. split; [apply Map_has_false_get; exact Eh|].
      rewrite Map_get_set_KStr in Eg. rewrite Hname in Eg. now injection Eg as <-.
  - intros Hname. assert (Hk : k <> KStr s).
    { subst k. intros Hk. apply key_of_KStr in Hk. contradiction. }
    rewrite Map_get_set_other by exact Hk.
    subst ps1. destruct (negb (Map_has k ps)); [|reflexivity].
    apply Map_get_set_other. exact Hk.
Qed.

Lemma resolves_to_spec (s : string) (g : value) (c : string) :
  resolves_to s g c = true <-> side_name (side_of g c) = VStr s.
Proof.
  unfold resolves_to. destruct (side_name (side_of g c)) as [| | | |t| |];
    try (split; [discriminate | intros H; discriminate]).
  rewrite String.eqb_eq. split; congruence.
Qed.

Lemma record_side_team (s : string) (g : value) (game : N) (c : string)
    (ps ps' : players_map) :
  record_side (get g "players") game c ps = Ok ps' ->
  team_of s ps' =
    if resolves_to s g c
    then settle (team_of s ps) (opt_member (side_of g c) "team")
    else team_of s ps.
Proof.
  intros H. apply (record_side_entry s) in H.
  fold (side_of g c) in H. destruct H as [Hyes Hno]. unfold team_of.
  destruct (resolves_to s g c) eqn:Er.
  - apply resolves_to_spec in Er.
    destruct (Hyes Er) as (s0 & a & Hs0 & Hu & ->). simpl.
    rewrite (update_player_team _ _ _ Hu).
    destruct Hs0 as [-> | [-> ->]]; simpl; [reflexivity|].
    destruct (truthy (opt_member (side_of g c) "team")); reflexivity.
  - rewrite Hno; [reflexivity|].
    intros E. apply resolves_to_spec in E. congruence.
Qed.

Lemma aggregate_team (s : string) (games : list value) (st st' : state) :
  aggregate games st = Ok st' ->
  team_of s (ps st') = fold_left settle (teams_seen s games) (team_of s (ps st)).
Proof.
  revert st; induction games as [|g games IH]; intros st H.
  - now injection H as <-.
  - cbn [aggregate] in H. bind_inv H.
    apply onGame_sides in E as (ps1 & Hw & Hb).
    apply (record_side_team s) in Hw, Hb.
    rewrite (IH _ H), Hb, Hw. cbn [teams_seen]. rewrite !fold_left_app.
    destruct (resolves_to s g "white"), (resolves_to s g "black"); reflexivity.
Qed.

(** After any stream, the team of the accumulator of a player is the first
    truthy team among the sides charged to that player, and the team of the
    first of these sides when none is truthy. *)
Lemma team_first_truthy (s : string) (games : list value) (st : state) (p : player) :
  aggregate games initial = Ok st ->
  Map_get (KStr s) (ps st) = Some p ->
  exists t l,
    teams_seen s games = t :: l
    /\ team p = match find truthy (t :: l) with Some v => v | None => t end.
Proof.
  intros H Hp. apply (aggregate_team s) in H. unfold team_of in H.
  rewrite Hp in H. simpl in H.
  destruct (teams_seen s games) as [|t l]; [discriminate|].
  exists t, l. split; [reflexivity|].
  rewrite settle_first_truthy in H. now injection H.
Qed.

End TeamProofs.

(** ** Invariants of the player map *)

Lemma SFeqb_refl (x : number) : is_nan x = false -> SFeqb x x = true.
Proof.
  unfold SFeqb, SFcompare. destruct x as [s|s| |s m e]; try discriminate; intros _.
  - reflexivity.
  - destruct s; reflexivity.
  - destruct s; rewrite Z.compare_refl, Pos.compare_cont_refl; reflexivity.
Qed.

Lemma key_eqb_refl (k : key) : key_eqb k k = true.
Proof.
  destruct k as [| |b|x|s|g c]; simpl; auto.
  - apply Bool.eqb_reflx.
  - destruct (is_nan x) eqn:E; [reflexivity | apply SFeqb_refl; exact E].
  - apply String.eqb_refl.
  - rewrite N.eqb_refl, Bool.eqb_reflx. reflexivity.
Qed.

(** Setting a key twice keeps the second value. *)
Lemma Map_set_set (k : key) (p q : player) (ps : players_map) :
  Map_set k q (Map_set k p ps) = Map_set k q ps.
Proof.
  induction ps as [|[k' p'] ps IH]; simpl.
  - now rewrite key_eqb_refl.
  - destruct (key_eqb k' k) eqn:E; simpl; rewrite E; [reflexivity | now rewrite IH].
Qed.

Lemma Map_get_set_same (k : key) (p : player) (ps : players_map) :
  Map_get k (Map_set k p ps) = Some p.
Proof.
  induction ps as [|[k' p'] ps IH]; simpl.
  - now rewrite key_eqb_refl.
  - destruct (key_eqb k' k) eqn:E; simpl; rewrite E; auto.
Qed.

(** An accumulator has played, and has not more analysed games than games. *)
Definition played_and_analyzed (p : player) : Prop :=
  (0 < gamesPlayed p)%N /\ (analyzedGames p <= gamesPlayed p)%N.

Section InvariantProofs.

Context {C : Coercions}.

(** One turn of the loop looks the accumulator up, or makes it, updates it
    and stores it under its key. *)
Lemma record_side_upsert (players : value) (game : N) (c : string)
    (ps ps' : players_map) :
  record_side players game c ps = Ok ps' ->
  let side := opt_member players c in
  let k := key_of (side_name side) game (c =? "white") in
  exists s0 a,
    (Map_get k ps = Some s0
     \/ (Map_get k ps = None /\ s0 = new_player (side_name side) side))
    /\ update_player side s0 = Ok a
    /\ ps' = Map_set k a ps.
Proof.
  intros H side k. unfold record_side in H. fold side in H. fold k in H.
  destruct (Map_has k ps) eqn:Eh; simpl in H.
  - destruct (Map_get k ps) as [s0|] eqn:Eg; [|discriminate].
    bind_inv H. injection H as <-. exists s0, a. auto.
  - rewrite Map_get_set_same in H. bind_inv H. injection H as <-.
    exists (new_player (side_name side) side), a.
    rewrite Map_set_set. split; [|auto].
    right. split; [apply Map_has_false_get; exact Eh | reflexivity].
Qed.

Lemma update_player_played (side : value) (s s' : player) :
  (analyzedGames s <= gamesPlayed s)%N ->
  update_player side s = Ok s' -> played_and_analyzed s'.
Proof.
  intros Hle H. unfold played_and_analyzed.
  rewrite (update_player_gamesPlayed _ _ _ H).
  destruct (truthy (opt_member side "analysis")) eqn:Ha.
  - destruct (update_player_analysis _ _ _ H Ha)
      as (i & m & b & _ & _ & _ & _ & _ & _ & -> & _). lia.
  - destruct (update_player_no_analysis _ _ _ H Ha) as (_ & _ & _ & -> & _). lia.
Qed.

Lemma record_side_played_and_analyzed (players : value) (game : N) (c : string)
    (ps ps' : players_map) :
  Forall played_and_analyzed (Map_values ps) ->
  record_side players game c ps = Ok ps' ->
  Forall played_and_analyzed (Map_values ps').
Proof.
  intros Hall H. apply record_side_upsert in H. cbv zeta in H.
  destruct H as (s0 & a & Hs0 & Hu & ->).
  apply Forall_Map_set; [exact Hall|].
  apply (update_player_played (opt_member players c) s0); [|exact Hu].
  destruct Hs0 as [Hg | [_ ->]]; [|simpl; lia].
  apply (Map_get_Forall _ _ _ _ Hall) in Hg. apply Hg.
Qed.

Lemma aggregate_played_and_analyzed (games : list value) (st st' : state) :
  Forall played_and_analyzed (Map_values (ps st)) ->
  aggregate games st = Ok st' ->
  Forall played_and_analyzed (Map_values (ps st')).
Proof.
  revert st; induction games as [|g games IH]; intros st Hall H.
  - now injection H as <-.
  - cbn [aggregate] in H. bind_inv H.
    apply onGame_sides in E as (ps1 & E1 & E2).
    apply IH in H; [exact H|].
    eapply record_side_played_and_analyzed; [|exact E2].
    eapply record_side_played_and_analyzed; [exact Hall | exact E1].
Qed.

(** Every player of a finalized metrics list has played, so [ranking_pool]
    applies to it; and [analyzedGames <= gamesPlayed]. *)
Lemma finalized_metrics_played (games : list value) (st : state) :
  aggregate games initial = Ok st ->
  Forall (fun m => (0 < gamesPlayed (base m))%N
                   /\ (analyzedGames (base m) <= gamesPlayed (base m))%N)
         (metrics_of (ps st)).
Proof.
  intros H. apply aggregate_played_and_analyzed in H; [|constructor].
  unfold metrics_of. rewrite Forall_map. exact H.
Qed.

(** The records of a list of lines: what [JSON.parse] gives for the lines
    that are not blank. *)
Definition parsed_records (JSON_parse : list N -> option value)
    (lines : list (list N)) : list value :=
  flat_map (fun l =>
              if nonempty (trim (T := UTF8.text) l) then
                match JSON_parse (trim (T := UTF8.text) l) with
                | Some g => [g]
                | None => []
                end
              else []) lines.

(** Reading lines with the callback is aggregating their records. *)
Lemma deliver_aggregate (JSON_parse : list N -> option value)
    (lines : list (list N)) (st st' : state) :
  deliver (T := UTF8.text) JSON_parse onGame lines st = Ok st' ->
  aggregate (parsed_records JSON_parse lines) st = Ok st'.
Proof.
  revert st; induction lines as [|l lines IH]; intros st H; [exact H|].
  cbn [deliver] in H. bind_inv H. unfold emit in E.
  cbn [parsed_records flat_map]. fold (parsed_records JSON_parse lines).
  destruct (nonempty (trim l)).
  - destruct (JSON_parse (trim l)) as [g|]; [|discriminate].
    cbn [app aggregate]. rewrite E. cbn [bind]. auto.
  - injection E as <-. cbn [app]. auto.
Qed.

(** The state at the end of a stream of bytes is the aggregate of a list of
    decoded records. *)
Lemma stream_games_aggregate (JSON_parse : list N -> option value)
    (chunks : list (list Byte.byte)) (st : state) :
  stream_games JSON_parse (Some (chunks, Done)) = Ok st ->
  exists games, aggregate games initial = Ok st.
Proof.
  unfold stream_games. rewrite forEachNdjson_spec. unfold ndjson_spec.
  destruct (decode_stream dinit (concat chunks)) as [d text].
  destruct (lines_of text) as [terminated rest].
  intros H. apply deliver_aggregate in H. eauto.
Qed.

(** The sum of [gamesPlayed] at the end of a stream of bytes. *)
Lemma stream_gamesPlayed_sum (JSON_parse : list N -> option value)
    (gRes : body) (st : state) :
  stream_games JSON_parse gRes = Ok st ->
  sum_gamesPlayed (ps st) = (2 * gameCount st)%N.
Proof.
  unfold stream_games.
  apply (forEachNdjson_invariant JSON_parse onGame
           (fun st => sum_gamesPlayed (ps st) = (2 * gameCount st)%N)).
  - intros g st0 st1 Hinv H.
    apply onGame_counters in H as (Hc & Hs & _). lia.
  - reflexivity.
Qed.

End InvariantProofs.

(** ** Examples *)

(** Scenario C: status "aborted", a move list of three tokens, no analysis. *)
Definition scenario_C : value :=
  game_record (side_record (VStr "alice") VNull VNull)
              (side_record (VStr "bob") VNull VNull)
              (VStr "e4 e5 Nf3") (VStr "aborted").

Definition after_scenario_C : state :=
  Eval vm_compute in
    match onGame (C := sample_coercions) scenario_C initial with
    | Ok st => st
    | Throw _ => initial
    end.

Lemma onGame_classifies_witness :
  onGame (C := sample_coercions) scenario_C initial = Ok after_scenario_C /\
  shortCount after_scenario_C = 1%N /\ unanalyzedCount after_scenario_C = 0%N /\
  split_pieces scenario_C = move_tokens scenario_C.
Proof.
  assert (H : onGame (C := sample_coercions) scenario_C initial = Ok after_scenario_C)
    by (vm_compute; reflexivity).
  split; [exact H|].
  destruct (onGame_classifies scenario_C initial after_scenario_C H)
    as (_ & Hshort & _ & _ & _ & Htokens).
  destruct (Hshort eq_refl eq_refl) as [Hs Hu].
  split; [exact Hs|]. split; [exact Hu|].
  apply (Htokens "e4 e5 Nf3"); reflexivity.
Defined.

(** Nine moves and a space after the last one; neither side analysed, the
    game ended by mate. *)
Definition nine_moves_and_a_space : value :=
  game_record (side_record (VStr "alice") VNull VNull)
              (side_record (VStr "bob") VNull VNull)
              (VStr "e4 e5 Nf3 Nc6 Bb5 a6 Ba4 Nf6 O-O ") (VStr "mate").

(** C1, counterexample. The move list has nine whitespace-separated
    tokens, so by the token count the game is short and [shortCount] should
    go up; the callback cuts it into ten pieces, the last one empty, finds
    the game not short and counts it as unanalysed. *)
Lemma trailing_space_counts_as_a_move :
  move_tokens nine_moves_and_a_space = 9%N
  /\ both_analyzed nine_moves_and_a_space = false
  /\ classification_by_tokens nine_moves_and_a_space = (1, 0)%N
  /\ split_pieces nine_moves_and_a_space = 10%N
  /\ exists st,
       onGame (C := sample_coercions) nine_moves_and_a_space initial = Ok st
       /\ shortCount st = 0%N /\ unanalyzedCount st = 1%N
       /\ (shortCount st, unanalyzedCount st)
          <> classification_by_tokens nine_moves_and_a_space.
Proof.
  split; [reflexivity|]. split; [reflexivity|]. split; [reflexivity|].
  split; [reflexivity|].
  eexists. split; [vm_compute; reflexivity|].
  split; [reflexivity|]. split; [reflexivity | discriminate].
Qed.

(** The text [a<e-acute> \n\n bc\r\nd] followed by the first byte of a
    three-byte character, cut inside the two-byte character and between a
    line and its newline, and the same bytes in one chunk. *)
Definition sample_bytes (l : list N) : list Byte.byte :=
  map (fun n => match Byte.of_N n with Some b => b | None => Byte.x00 end) l.

Definition chunked : list (list Byte.byte) :=
  [sample_bytes [0x61; 0xC3]; sample_bytes [0xA9; 0x20];
   sample_bytes [0x0A; 0x0A; 0x20; 0x62]; sample_bytes [0x63; 0x0D; 0x0A; 0x64; 0xE2]]%N.

Definition unchunked : list (list Byte.byte) :=
  [sample_bytes [0x61; 0xC3; 0xA9; 0x20; 0x0A; 0x0A; 0x20; 0x62; 0x63; 0x0D; 0x0A; 0x64; 0xE2]]%N.

(** A callback that records what it is given. *)
Definition record_item (item : list N) (seen : list (list N)) : result (list (list N)) :=
  Ok (seen ++ [item]).

Lemma forEachNdjson_chunk_independent_witness :
  concat chunked = concat unchunked /\
  forEachNdjson (T := UTF8.text) (D := UTF8.decoder) (fun l => Some l) record_item
    (Some (chunked, Done)) []
  = forEachNdjson (T := UTF8.text) (D := UTF8.decoder) (fun l => Some l) record_item
    (Some (unchunked, Done)) [] /\
  forEachNdjson (T := UTF8.text) (D := UTF8.decoder) (fun l => Some l) record_item
    (Some (chunked, Done)) []
  = feed (fun l => Some l) record_item
      (payload_lines (T := UTF8.text) (D := UTF8.decoder) (concat chunked)) [].
Proof.
  split; [reflexivity|].
  destruct (forEachNdjson_chunk_independent (T := UTF8.text) (D := UTF8.decoder)
              (fun l => Some l) record_item chunked unchunked Done [] eq_refl)
    as (Hsame & Hdone & _).
  split; [exact Hsame | exact Hdone].
Defined.

(** The three lines the callback receives, the last one unterminated and
    closed by U+FFFD for the cut character. *)
Example chunked_records :
  forEachNdjson (T := UTF8.text) (D := UTF8.decoder) (fun l => Some l) record_item
    (Some (chunked, Done)) []
  = Ok [[0x61; 0xE9]; [0x62; 0x63]; [0x64; 0xFFFD]]%N.
Proof. vm_compute. reflexivity. Qed.

(** Two games: one analysed on both sides, one with two anonymous sides. *)
Definition two_games : list value :=
  [game_record
     (side_record (VStr "alice") (VStr "team-a") (analysis_stats 1 2 0 (VNum (decimal 873 1))))
     (side_record (VStr "bob") VNull (analysis_stats 3 0 1 VNull))
     (VStr "e4 e5 Nf3 Nc6 Bb5 a6 Ba4 Nf6 O-O Be7") (VStr "mate");
   game_record (side_record VNull VNull VNull) (VObj [])
     (VStr "d4 d5") (VStr "resign")].

Definition after_two_games : state :=
  Eval vm_compute in
    match aggregate (C := sample_coercions) two_games initial with
    | Ok st => st
    | Throw _ => initial
    end.

Lemma gamesPlayed_sum_twice_gameCount_witness :
  aggregate (C := sample_coercions) two_games initial = Ok after_two_games /\
  gameCount after_two_games = 2%N /\
  sum_gamesPlayed (ps after_two_games) = (2 * gameCount after_two_games)%N.
Proof.
  assert (H : aggregate (C := sample_coercions) two_games initial = Ok after_two_games)
    by (vm_compute; reflexivity).
  split; [exact H|].
  apply (gamesPlayed_sum_twice_gameCount two_games after_two_games H).
Defined.

(** The handler on four failing requests. *)
Example four_failures :
  analyze (C := sample_coercions) sample_parse games_unavailable valid_request
  = fail 500 "Impossible de récupérer les parties." /\
  status (analyze (C := sample_coercions) sample_parse (serving "{oops") valid_request)
  = 500%N /\
  analyze (C := sample_coercions) sample_parse tournament_unknown valid_request
  = fail 404 "Tournoi introuvable." /\
  analyze (C := sample_coercions) sample_parse (serving "") valid_request
  = fail 404 "Aucune partie trouvée.".
Proof. repeat split; vm_compute; reflexivity. Qed.

Lemma anonymous_identity_witness :
  aggregate (C := sample_coercions) two_games initial = Ok after_two_games /\
  (entries "Anonymous" (ps after_two_games) <= 1)%nat /\
  played "Anonymous" (ps after_two_games) = 2%N.
Proof.
  assert (H : aggregate (C := sample_coercions) two_games initial = Ok after_two_games)
    by (vm_compute; reflexivity).
  split; [exact H|].
  destruct (anonymous_identity (C := sample_coercions) two_games after_two_games H)
    as (_ & _ & _ & Hone & Hplayed).
  split; [exact Hone|]. rewrite Hplayed. reflexivity.
Defined.

(** Scenario B: three players, one of them with 3 games played and 3
    analysed; fewer than two are eligible, so the pool is [withAnalysis]. *)
Definition scenario_B : list metric :=
  [mkMetric (mkPlayer (VStr "carol") zero zero zero 3 3 VNull []) zero;
   mkMetric (mkPlayer (VStr "dave") zero zero zero 9 5 VNull []) zero;
   mkMetric (mkPlayer (VStr "erin") zero zero zero 4 0 VNull []) zero].

Lemma ranking_pool_witness :
  Forall (fun m => (0 < gamesPlayed (base m))%N) scenario_B /\
  pool scenario_B = withAnalysis scenario_B /\
  List.length (pool scenario_B) = 2.
Proof.
  assert (H : Forall (fun m => (0 < gamesPlayed (base m))%N) scenario_B)
    by (repeat constructor).
  split; [exact H|].
  destruct (ranking_pool scenario_B H) as (_ & _ & _ & Hfallback & _).
  rewrite Hfallback by (simpl; lia). split; reflexivity.
Defined.

Lemma accuracy_finalized_witness :
  scenario_E <> [] /\
  rounded_to_one_decimal (mean scenario_E) (accuracy_of scenario_E).
Proof.
  assert (H : scenario_E <> []) by discriminate.
  split; [exact H|].
  destruct (accuracy_finalized scenario_E) as (_ & Hround & _).
  exact (Hround H).
Defined.

(** ** The aggregation loop of src/unnamed/part_000 on two feeds *)

(** In part_000, adding a missing field to a numeric counter gives NaN. *)
Lemma legacy_plus_missing {C : Coercions} (x : number) :
  Legacy.js_plus (VNum x) VUndefined = Ok (VNum NaN).
Proof. simpl. unfold js_add. destruct x; reflexivity. Qed.

(** In part_000, updating an accumulator leaves its team as it is. *)
Lemma legacy_update_keeps_team {C : Coercions} (side : value) (s s' : Legacy.player) :
  Legacy.update_player side s = Ok s' -> Legacy.team s' = Legacy.team s.
Proof.
  unfold Legacy.update_player. destruct (truthy (opt_member side "analysis")).
  - intros H. bind_inv H. injection H as <-. reflexivity.
  - intros H. injection H as <-. reflexivity.
Qed.

(** A game whose white side has an analysis that carries an accuracy and
    none of the three counts. *)
Definition counts_missing : value :=
  game_record
    (side_record (VStr "alice") VNull (VObj [("accuracy", VNum (num_of_Z 90))]))
    (side_record (VStr "bob") VNull VNull)
    (VStr "e4 e5 Nf3 Nc6 Bb5 a6 Ba4 Nf6 O-O Be7") (VStr "mate").

(** C5, in src/unnamed/part_000. On a record whose analysis has no counts,
    the loop of part_000 adds the missing fields as they are, and the three
    counters of the accumulator become NaN; the callback of server.js, on
    the same record, coerces them and adds 0. *)
Theorem legacy_counters_become_NaN {C : Coercions} :
  (exists ps p,
     Legacy.aggregate [counts_missing] 0 [] = Ok ps
     /\ Legacy.Map_get (KStr "alice") ps = Some p
     /\ Legacy.inaccuracies p = VNum NaN
     /\ Legacy.mistakes p = VNum NaN
     /\ Legacy.blunders p = VNum NaN) /\
  (exists st q,
     aggregate [counts_missing] initial = Ok st
     /\ Map_get (KStr "alice") (ps st) = Some q
     /\ inaccuracies q = zero /\ mistakes q = zero /\ blunders q = zero).
Proof.
  split.
  - eexists. eexists. split; [vm_compute; reflexivity|].
    split; [vm_compute; reflexivity|]. repeat split.
  - eexists. eexists. split; [vm_compute; reflexivity|].
    split; [vm_compute; reflexivity|]. repeat split.
Qed.

(** Bob plays twice: first without a team, then for "team-b". *)
Definition team_comes_later : list value :=
  [game_record
     (side_record (VStr "alice") (VStr "team-a") VNull)
     (side_record (VStr "bob") VNull VNull)
     (VStr "e4 e5") (VStr "resign");
   game_record
     (side_record (VStr "bob") (VStr "team-b") VNull)
     (side_record (VStr "alice") (VStr "team-a") VNull)
     (VStr "d4 d5") (VStr "resign")].

(** C6, in src/unnamed/part_000. The loop of part_000 sets the team when
    it creates the accumulator and never again: for a player first seen
    without a team and then with one, the team stays null; the callback of
    server.js, on the same records, gives the player "team-b". *)
Theorem legacy_team_never_updated {C : Coercions} :
  (exists ps p,
     Legacy.aggregate team_comes_later 0 [] = Ok ps
     /\ Legacy.Map_get (KStr "bob") ps = Some p
     /\ Legacy.team p = VNull) /\
  (exists st q,
     aggregate team_comes_later initial = Ok st
     /\ Map_get (KStr "bob") (ps st) = Some q
     /\ team q = VStr "team-b").
Proof.
  split.
  - eexists. eexists. split; [vm_compute; reflexivity|].
    split; [vm_compute; reflexivity|]. reflexivity.
  - eexists. eexists. split; [vm_compute; reflexivity|].
    split; [vm_compute; reflexivity|]. reflexivity.
Qed.

(** The finite-counts condition of [aggregate_not_NaN] cannot be dropped:
    the feed may hold numbers beyond the binary64 range, which [JSON.parse]
    reads as infinities, and two of opposite sign add up to NaN. *)
Definition opposite_infinities : list value :=
  [game_record
     (side_record (VStr "alice") VNull
        (VObj [("inaccuracy", VNum (S754_infinity false))]))
     (side_record (VStr "bob") VNull VNull) (VStr "e4 e5") (VStr "resign");
   game_record
     (side_record (VStr "alice") VNull
        (VObj [("inaccuracy", VNum (S754_infinity true))]))
     (side_record (VStr "bob") VNull VNull) (VStr "d4 d5") (VStr "resign")].

Example opposite_infinities_make_NaN {C : Coercions} :
  exists st q,
    aggregate opposite_infinities initial = Ok st
    /\ Map_get (KStr "alice") (ps st) = Some q
    /\ inaccuracies q = NaN.
Proof.
  eexists. eexists. split; [vm_compute; reflexivity|].
  split; [vm_compute; reflexivity|]. reflexivity.
Qed.

(** Scenario A: five games, both sides analysed, none aborted. *)
Definition analysed_game : value :=
  game_record
    (side_record (VStr "alice") VNull (analysis_stats 1 0 0 (VNum (num_of_Z 95))))
    (side_record (VStr "bob") VNull (analysis_stats 2 1 0 (VNum (num_of_Z 88))))
    (VStr "e4 e5 Nf3 Nc6 Bb5 a6 Ba4 Nf6 O-O Be7") (VStr "mate").

Example scenario_A {C : Coercions} :
  exists st,
    aggregate (repeat analysed_game 5) initial = Ok st
    /\ gameCount st = 5%N /\ shortCount st = 0%N /\ unanalyzedCount st = 0%N
    /\ fullyAnalyzedCount st = 5%N /\ lichessCount st = 5%N.
Proof.
  eexists. split; [vm_compute; reflexivity|]. repeat split.
Qed.

(** Ten move tokens, one side analysed: the game counts as unanalysed; with
    nine tokens it counts as short. *)
Example one_side_analysed {C : Coercions} :
  (exists st,
     onGame (game_record
               (side_record (VStr "alice") VNull (analysis_stats 1 0 0 VNull))
               (side_record (VStr "bob") VNull VNull)
               (VStr "e4 e5 Nf3 Nc6 Bb5 a6 Ba4 Nf6 O-O Be7") (VStr "mate")) initial
     = Ok st
     /\ shortCount st = 0%N /\ unanalyzedCount st = 1%N /\ lichessCount st = 1%N) /\
  (exists st,
     onGame (game_record
               (side_record (VStr "alice") VNull (analysis_stats 1 0 0 VNull))
               (side_record (VStr "bob") VNull VNull)
               (VStr "e4 e5 Nf3 Nc6 Bb5 a6 Ba4 Nf6 O-O") (VStr "mate")) initial
     = Ok st
     /\ shortCount st = 1%N /\ unanalyzedCount st = 0%N /\ lichessCount st = 1%N).
Proof.
  split; eexists; (split; [vm_compute; reflexivity|]); repeat split.
Qed.

(** * Further properties of the code *)

(** ** The tournament counters (src/server.js, lines 76-93) *)

(** Some side of the record has an analysis. *)
Definition some_analyzed (g : value) : bool :=
  negb (nullish (analysis_of g "white")) || negb (nullish (analysis_of g "black")).

(** The relations the five counters keep: every game is fully analysed,
    short or unanalysed, and a fully analysed game is an analysed one. *)
Definition counters_balanced (st : state) : Prop :=
  gameCount st = (fullyAnalyzedCount st + shortCount st + unanalyzedCount st)%N
  /\ (fullyAnalyzedCount st <= lichessCount st)%N
  /\ (lichessCount st <= gameCount st)%N.

Section CounterProofs.

Context {C : Coercions}.

Lemma onGame_analysis_counters (g : value) (st st' : state) :
  onGame g st = Ok st' ->
  lichessCount st' = (lichessCount st + (if some_analyzed g then 1 else 0))%N /\
  fullyAnalyzedCount st' = (fullyAnalyzedCount st + (if both_analyzed g then 1 else 0))%N.
Proof.
  unfold onGame. intros H. bind_inv H.
  apply member_Ok in E as [Hg ->].
  match type of H with
  | (let '(_, _) := ?t in _) = _ => destruct t as [sc uc]
  end.
  bind_inv H. injection H as <-. cbn [lichessCount fullyAnalyzedCount].
  unfold some_analyzed, both_analyzed, analysis_of.
  destruct (negb (nullish (opt_member (opt_member (get g "players") "white") "analysis")));
    destruct (negb (nullish (opt_member (opt_member (get g "players") "black") "analysis")));
    simpl; split; lia.
Qed.

Lemma onGame_balanced (g : value) (st st' : state) :
  counters_balanced st -> onGame g st = Ok st' -> counters_balanced st'.
Proof.
  intros (Hsum & Hf & Hl) H. unfold counters_balanced.
  pose proof (onGame_counters _ _ _ H) as (Hc & _ & Hs & Hu).
  pose proof (onGame_analysis_counters _ _ _ H) as (Hli & Hfu).
  rewrite Hc, Hs, Hu, Hli, Hfu. unfold classification, some_analyzed.
  pose proof (no_move_list_is_short g) as Hshort.
  unfold both_analyzed in *.
  destruct (negb (nullish (analysis_of g "white")));
    destruct (negb (nullish (analysis_of g "black")));
    destruct (is_short g); destruct (move_list_present g);
    simpl; try lia; specialize (Hshort eq_refl); discriminate.
Qed.

Lemma stream_games_balanced (JSON_parse : list N -> option value)
    (gRes : body) (st : state) :
  stream_games JSON_parse gRes = Ok st -> counters_balanced st.
Proof.
  unfold stream_games.
  apply (forEachNdjson_invariant JSON_parse onGame counters_balanced).
  - intros g st0 st1. apply onGame_balanced.
  - unfold counters_balanced. simpl. lia.
Qed.

End CounterProofs.

(** ** The accumulators of the players (src/server.js, lines 95-111) *)

Definition sum_analyzedGames (ps : players_map) : N :=
  fold_right (fun e acc => (analyzedGames (snd e) + acc)%N) 0%N ps.

(** What every accumulator of the map satisfies at any time between two
    records. *)
Definition player_sound (p : player) : Prop :=
  (0 < gamesPlayed p)%N
  /\ (analyzedGames p <= gamesPlayed p)%N
  /\ (N.of_nat (List.length (accuracies p)) <= analyzedGames p)%N
  /\ Forall (fun x => is_nan x = false) (accuracies p).

(** The analysis of the side is absent, or it is an object (or any other
    truthy value): not one of [0], [""] and [false]. *)
Definition plain_analysis (g : value) (c : string) : Prop :=
  truthy (analysis_of g c) = negb (nullish (analysis_of g c)).

Lemma truthy_not_nullish (v : value) : truthy v = true -> nullish v = false.
Proof. destruct v; simpl; congruence. Qed.

Lemma Map_get_None_has (k : key) (ps : players_map) :
  Map_get k ps = None -> Map_has k ps = false.
Proof.
  intros H. destruct (Map_has k ps) eqn:E; [|reflexivity].
  apply Map_has_get in E as [p Hp]. congruence.
Qed.

Lemma sum_analyzedGames_app (ps qs : players_map) :
  sum_analyzedGames (ps ++ qs) = (sum_analyzedGames ps + sum_analyzedGames qs)%N.
Proof. induction ps as [|e ps IH]; simpl; [reflexivity | rewrite IH; lia]. Qed.

Lemma sum_analyzedGames_set (k : key) (s s' : player) (ps : players_map) :
  Map_get k ps = Some s ->
  (sum_analyzedGames (Map_set k s' ps) + analyzedGames s
   = sum_analyzedGames ps + analyzedGames s')%N.
Proof.
  induction ps as [|[k' p'] ps IH]; simpl; [discriminate|].
  destruct (key_eqb k' k); simpl.
  - intros H; injection H as ->. lia.
  - intros H. specialize (IH H). lia.
Qed.

Section PlayerProofs.

Context {C : Coercions}.

Lemma update_player_analyzedGames (side : value) (s s' : player) :
  update_player side s = Ok s' ->
  analyzedGames s' =
    (analyzedGames s + (if truthy (opt_member side "analysis") then 1 else 0))%N.
Proof.
  intros H. destruct (truthy (opt_member side "analysis")) eqn:Ha.
  - destruct (update_player_analysis _ _ _ H Ha)
      as (i & m & b & _ & _ & _ & _ & _ & _ & -> & _). reflexivity.
  - destruct (update_player_no_analysis _ _ _ H Ha) as (_ & _ & _ & -> & _). lia.
Qed.

Lemma record_side_analyzedGames (players : value) (game : N) (c : string)
    (ps ps' : players_map) :
  record_side players game c ps = Ok ps' ->
  sum_analyzedGames ps' =
    (sum_analyzedGames ps
     + (if truthy (opt_member (opt_member players c) "analysis") then 1 else 0))%N.
Proof.
  intros H. apply record_side_upsert in H. cbv zeta in H.
  destruct H as (s0 & a & Hs0 & Hu & ->).
  apply update_player_analyzedGames in Hu.
  destruct Hs0 as [Hg | [Hg ->]].
  - pose proof (sum_analyzedGames_set _ _ a _ Hg). lia.
  - rewrite Map_set_absent by (apply Map_get_None_has; exact Hg).
    rewrite sum_analyzedGames_app. simpl in *. lia.
Qed.

Lemma update_player_sound (side : value) (s s' : player) :
  (analyzedGames s <= gamesPlayed s)%N ->
  (N.of_nat (List.length (accuracies s)) <= analyzedGames s)%N ->
  Forall (fun x => is_nan x = false) (accuracies s) ->
  update_player side s = Ok s' -> player_sound s'.
Proof.
  intros Hle Hlen Hacc H. unfold player_sound.
  rewrite (update_player_gamesPlayed _ _ _ H).
  destruct (truthy (opt_member side "analysis")) eqn:Ha.
  - destruct (update_player_analysis _ _ _ H Ha)
      as (i & m & b & _ & _ & _ & _ & _ & _ & Han & Hnull & Hpush).
    rewrite Han.
    destruct (nullish (get (opt_member side "analysis") "accuracy")) eqn:En.
    + rewrite (Hnull eq_refl). repeat split; try lia. exact Hacc.
    + destruct (Hpush eq_refl) as (x & Hx & ->).
      rewrite length_app. simpl. repeat split; try lia.
      apply Forall_app. split; [exact Hacc|].
      constructor; [|constructor]. eapply Number_or_0_not_nan. exact Hx.
  - destruct (update_player_no_analysis _ _ _ H Ha) as (_ & _ & _ & -> & ->).
    repeat split; try lia. exact Hacc.
Qed.

Lemma record_side_sound (players : value) (game : N) (c : string)
    (ps ps' : players_map) :
  Forall player_sound (Map_values ps) ->
  record_side players game c ps = Ok ps' ->
  Forall player_sound (Map_values ps').
Proof.
  intros Hall H. apply record_side_upsert in H. cbv zeta in H.
  destruct H as (s0 & a & Hs0 & Hu & ->).
  apply Forall_Map_set; [exact Hall|].
  destruct Hs0 as [Hg | [_ ->]].
  - apply (Map_get_Forall _ _ _ _ Hall) in Hg.
    destruct Hg as (_ & H1 & H2 & H3).
    exact (update_player_sound _ _ _ H1 H2 H3 Hu).
  - apply (update_player_sound _ _ _) in Hu; [exact Hu | simpl; lia | simpl; lia | constructor].
Qed.

Lemma onGame_sound (g : value) (st st' : state) :
  Forall player_sound (Map_values (ps st)) ->
  onGame g st = Ok st' ->
  Forall player_sound (Map_values (ps st')).
Proof.
  intros Hall H. apply onGame_sides in H as (ps1 & E1 & E2).
  eapply record_side_sound; [|exact E2].
  eapply record_side_sound; [exact Hall | exact E1].
Qed.

(** Analysed sides against analysed games: [analyzedGames] goes up for a
    truthy analysis, the two game counters for one that is not [null]. *)
Lemma onGame_analyzedGames (g : value) (st st' : state) :
  onGame g st = Ok st' ->
  sum_analyzedGames (ps st') =
    (sum_analyzedGames (ps st)
     + (if truthy (analysis_of g "white") then 1 else 0)
     + (if truthy (analysis_of g "black") then 1 else 0))%N.
Proof.
  intros H. apply onGame_sides in H as (ps1 & E1 & E2).
  apply record_side_analyzedGames in E1, E2.
  unfold analysis_of. lia.
Qed.

End PlayerProofs.

(** ** The replies of the handler, path by path (src/server.js, lines 48-152) *)

(** The sum of [gamesPlayed] over a metrics list. *)
Definition total_played (metrics : list metric) : N :=
  fold_right (fun m acc => (gamesPlayed (base m) + acc)%N) 0%N metrics.

Lemma total_played_metrics_of (ps : players_map) :
  total_played (metrics_of ps) = sum_gamesPlayed ps.
Proof.
  unfold metrics_of, Map_values. induction ps as [|[k p] ps IH]; simpl; [reflexivity|].
  now rewrite IH.
Qed.

Lemma filter_length_le {A : Type} (f g : A -> bool) (l : list A) :
  (forall x, f x = true -> g x = true) ->
  List.length (filter f l) <= List.length (filter g l).
Proof.
  intros Hfg. induction l as [|x l IH]; simpl; [lia|].
  destruct (f x) eqn:Ef.
  - rewrite (Hfg x Ef). simpl. lia.
  - destruct (g x); simpl; lia.
Qed.

(** The pool is a part of the players with an analysis, who are a part of
    the players. *)
Lemma pool_sizes (metrics : list metric) :
  List.length (pool metrics) <= List.length (withAnalysis metrics)
  /\ List.length (withAnalysis metrics) <= List.length metrics.
Proof.
  split.
  - unfold pool. destruct (2 <=? List.length (eligible metrics))%nat; [|lia].
    apply filter_length_le. intros m. unfold is_eligible, has_analysis.
    rewrite andb_true_iff, N.leb_le, N.ltb_lt. lia.
  - unfold withAnalysis. induction metrics as [|m ms IH]; simpl; [lia|].
    destruct (has_analysis m); simpl; lia.
Qed.

Section ReplyProofs.

Context {C : Coercions}.
Context (JSON_parse : list N -> option value).
Context (up : upstream).

(** The state the handler holds after the stream is the one the callback
    built from the body of the games response. *)
Lemma read_games_streamed (req_body : value) (tournament : value) (st : state) :
  read_games JSON_parse up req_body = Ok (Streamed tournament st) ->
  exists gRes, stream_games JSON_parse gRes = Ok st.
Proof.
  unfold read_games. intros H. bind_inv H.
  destruct a as [r|[id endpoint]]; [discriminate|].
  bind_inv H. destruct a as [r|t]; [discriminate|].
  bind_inv H. destruct a as [r|gRes]; [discriminate|].
  bind_inv H. injection H as <- <-. eauto.
Qed.

(** Every reply of the handler: one of the five sent before the stream is
    read, one of the two no-data replies, the reply of the [catch] block, or
    the success payload built from a state with a game and a pool. *)
Lemma analyze_cases (req_body : value) :
  let r := analyze JSON_parse up req_body in
  (r = fail 400 "tournamentId et type requis"
   \/ r = fail 400 "tournamentId invalide"
   \/ r = fail 400 "type invalide"
   \/ r = fail 404 "Tournoi introuvable."
   \/ r = fail 500 "Impossible de récupérer les parties.")
  \/ no_data r
  \/ (exists e, r = on_exception e)
  \/ (exists tournament st id,
        read_games JSON_parse up req_body = Ok (Streamed tournament st)
        /\ gameCount st <> 0%N
        /\ pool (metrics_of (ps st)) <> []
        /\ r = mkReply 200 (Success
               (mkPayload id
                  (js_or (get tournament "name")
                     (js_or (get tournament "fullName") (VStr "Tournoi")))
                  (get tournament "nbPlayers")
                  (gameCount st) (lichessCount st) (fullyAnalyzedCount st)
                  (shortCount st) (unanalyzedCount st)
                  (List.length (pool (metrics_of (ps st))))
                  (List.length (withAnalysis (metrics_of (ps st))))
                  (metrics_of (ps st))))).
Proof.
  cbv zeta. unfold analyze, handle.
  destruct (read_games JSON_parse up req_body) as [[r|tournament st]|e] eqn:E;
    cbn [bind].
  - left. apply read_games_replied in E. exact E.
  - unfold finish.
    destruct (N.eqb_spec (gameCount st) 0) as [H0|H0].
    { right. left. left. reflexivity. }
    destruct (List.length (pool (metrics_of (ps st))) =? 0)%nat eqn:Ep.
    { right. left. right. reflexivity. }
    destruct (member tournament "id") as [id|e]; cbn [bind].
    + right. right. right. exists tournament, st, id.
      repeat split; auto.
      intros Hp. rewrite Hp in Ep. discriminate.
    + right. right. left. eauto.
  - right. right. left. eauto.
Qed.

Lemma on_exception_error (e : exn) :
  exists msg, sent (on_exception e) = ErrorBody msg /\ msg <> "".
Proof.
  unfold on_exception. destruct (exn_name e =? "AbortError").
  - eexists. split; [reflexivity | discriminate].
  - destruct (String.eqb_spec (exn_message e) "") as [He|He].
    + eexists. split; [reflexivity | discriminate].
    + eexists. split; [reflexivity | exact He].
Qed.

End ReplyProofs.

Section ReplyTheorems.

Context {C : Coercions}.
Context (JSON_parse : list N -> option value).

Lemma stream_games_sound (gRes : body) (st : state) :
  stream_games JSON_parse gRes = Ok st ->
  Forall player_sound (Map_values (ps st)).
Proof.
  unfold stream_games.
  apply (forEachNdjson_invariant JSON_parse onGame
           (fun st => Forall player_sound (Map_values (ps st)))).
  - intros g st0 st1. apply onGame_sound.
  - constructor.
Qed.

(** X1. In every success payload the game counters add up: there is at
    least one game, every game is counted once as fully analysed, short or
    unanalysed ([gameCount = totalAnalyzed + skippedShortGames +
    unanalyzedGames]), and [totalAnalyzed <= analyzedByLichess <=
    gameCount]. *)
Theorem success_payload_counts (up : upstream) (req_body : value) (p : payload) :
  sent (analyze JSON_parse up req_body) = Success p ->
  (1 <= p_gameCount p)%N
  /\ p_gameCount p = (totalAnalyzed p + skippedShortGames p + unanalyzedGames p)%N
  /\ (totalAnalyzed p <= analyzedByLichess p)%N
  /\ (analyzedByLichess p <= p_gameCount p)%N.
Proof.
  intros H. pose proof (analyze_cases JSON_parse up req_body) as Hc. cbv zeta in Hc.
  destruct Hc as [Hc | [Hc | [[e Hc] | (t & st & id & Hr & H0 & Hp & Hc)]]].
  - exfalso.
    decompose [or] Hc; subst;
      match goal with E : analyze _ _ _ = _ |- _ => rewrite E in H; discriminate end.
  - exfalso. destruct Hc as [Hc|Hc]; rewrite Hc in H; discriminate.
  - exfalso. rewrite Hc in H.
    destruct (on_exception_error e) as (msg & Hm & _). congruence.
  - rewrite Hc in H. injection H as <-. cbn.
    apply read_games_streamed in Hr as [gRes Hs].
    apply stream_games_balanced in Hs as (Hsum & Hf & Hl). lia.
Qed.

(** X2. In every success payload the player figures are consistent: at
    least one player is ranked, [eligiblePlayers <=
    totalPlayersWithAnalysis <=] the number of players listed; every listed
    player has played, has no more analysed games than games and no more
    accuracy samples than analysed games, none of them NaN, and carries the
    accuracy computed from its own samples; and the games played add up to
    twice [gameCount]. *)
Theorem success_payload_players (up : upstream) (req_body : value) (p : payload) :
  sent (analyze JSON_parse up req_body) = Success p ->
  1 <= eligiblePlayers p
  /\ eligiblePlayers p <= totalPlayersWithAnalysis p
  /\ totalPlayersWithAnalysis p <= List.length (playerMetrics p)
  /\ Forall (fun m => player_sound (base m)
                      /\ accuracy m = accuracy_of (accuracies (base m)))
            (playerMetrics p)
  /\ total_played (playerMetrics p) = (2 * p_gameCount p)%N.
Proof.
  intros H. pose proof (analyze_cases JSON_parse up req_body) as Hc. cbv zeta in Hc.
  destruct Hc as [Hc | [Hc | [[e Hc] | (t & st & id & Hr & H0 & Hp & Hc)]]].
  - exfalso.
    decompose [or] Hc; subst;
      match goal with E : analyze _ _ _ = _ |- _ => rewrite E in H; discriminate end.
  - exfalso. destruct Hc as [Hc|Hc]; rewrite Hc in H; discriminate.
  - exfalso. rewrite Hc in H.
    destruct (on_exception_error e) as (msg & Hm & _). congruence.
  - rewrite Hc in H. injection H as <-. cbn.
    apply read_games_streamed in Hr as [gRes Hs].
    pose proof (pool_sizes (metrics_of (ps st))) as (Hp1 & Hp2).
    split; [|split; [exact Hp1 | split; [exact Hp2 | split]]].
    + destruct (pool (metrics_of (ps st))); [contradiction | simpl; lia].
    + apply stream_games_sound in Hs. unfold metrics_of.
      rewrite Forall_map. cbn. rewrite Forall_forall in *. auto.
    + rewrite total_played_metrics_of. apply (stream_gamesPlayed_sum _ _ _ Hs).
Qed.

Lemma fail_shape (code : N) (msg : string) :
  In code [400; 404; 500; 504]%N -> msg <> "" ->
  In (status (fail code msg)) [200; 400; 404; 500; 504]%N
  /\ (status (fail code msg) = 200%N <-> exists p, sent (fail code msg) = Success p)
  /\ (forall msg', sent (fail code msg) = ErrorBody msg' -> msg' <> "").
Proof.
  intros Hcode Hmsg. cbn [status sent fail]. split; [|split].
  - right. exact Hcode.
  - split.
    + intros ->. simpl in Hcode. decompose [or] Hcode; discriminate || contradiction.
    + intros [p Hp]. discriminate.
  - intros msg' H. injection H as <-. exact Hmsg.
Qed.

(** X3. The shape of the reply, when both calls settle and the body of the
    games, if there is one, comes to an end, normally or with a read error,
    as with every [upstream]: the reading of lines 28-31 has no deadline,
    and the handler sends no reply while a body goes on. The status is one
    of 200, 400, 404, 500 and 504; it is 200 exactly when the body is the
    success payload, so a payload never comes with an error status nor an
    error with 200; and an error body never has an empty message. *)
Theorem reply_shape (up : upstream) (req_body : value) :
  In (status (analyze JSON_parse up req_body)) [200; 400; 404; 500; 504]%N
  /\ (status (analyze JSON_parse up req_body) = 200%N <->
      exists p, sent (analyze JSON_parse up req_body) = Success p)
  /\ (forall msg, sent (analyze JSON_parse up req_body) = ErrorBody msg -> msg <> "").
Proof.
  pose proof (analyze_cases JSON_parse up req_body) as Hc. cbv zeta in Hc.
  destruct Hc as [Hc | [Hc | [[e Hc] | (t & st & id & Hr & H0 & Hp & Hc)]]].
  - destruct Hc as [Hc | [Hc | [Hc | [Hc | Hc]]]]; rewrite Hc;
      apply fail_shape; simpl; try tauto; discriminate.
  - destruct Hc as [Hc|Hc]; rewrite Hc; apply fail_shape; simpl; try tauto; discriminate.
  - rewrite Hc. destruct (on_exception_error e) as (msg & Hm & Hne).
    split; [|split].
    + rewrite on_exception_status.
      destruct (exn_name e =? "AbortError"); simpl; tauto.
    + rewrite on_exception_status. split.
      * destruct (exn_name e =? "AbortError"); discriminate.
      * intros [p Hq]. congruence.
    + intros msg' Hm'. congruence.
  - rewrite Hc. cbn [status sent]. split; [|split].
    + left. reflexivity.
    + split; [intros _; eexists; reflexivity | reflexivity].
    + intros msg Hm. discriminate.
Qed.

End ReplyTheorems.

(** ** Validation and the outbound calls (src/server.js, lines 50-64) *)

(** The characters [[a-zA-Z0-9]]. *)
Definition alphanumerics : list ascii :=
  list_ascii_of_string
    "ABCDEFGHIJKLMNOPQRSTUVWXYZabcdefghijklmnopqrstuvwxyz0123456789".

Lemma is_alnum_spec (c : ascii) : is_alnum c = true <-> In c alphanumerics.
Proof.
  assert (H : is_alnum c = existsb (Ascii.eqb c) alphanumerics).
  { destruct c as [[|] [|] [|] [|] [|] [|] [|] [|]]; vm_compute; reflexivity. }
  rewrite H, existsb_exists. split.
  - intros (x & Hin & Heq). apply Ascii.eqb_eq in Heq. now subst.
  - intros Hin. exists c. split; [exact Hin | apply Ascii.eqb_refl].
Qed.

Lemma test_alnum_spec (s : string) :
  test_alnum s = true <-> s <> "" /\ forall c, In c (list_ascii_of_string s) -> In c alphanumerics.
Proof.
  unfold test_alnum. rewrite andb_true_iff, negb_true_iff.
  assert (Hall : all_alnum s = true <-> forall c, In c (list_ascii_of_string s) -> In c alphanumerics).
  { induction s as [|c s IH]; cbn [all_alnum list_ascii_of_string].
    - split; [intros _ c [] | reflexivity].
    - rewrite andb_true_iff, IH, is_alnum_spec. split.
      + intros [Hc Hs] x [<-|Hx]; [exact Hc | exact (Hs x Hx)].
      + intros H. split; [apply H; now left | intros x Hx; apply H; now right]. }
  rewrite Hall. split; intros [H1 H2]; split; auto.
  - intros ->. discriminate.
  - destruct (String.eqb_spec s ""); [contradiction | reflexivity].
Qed.

Section ValidationProofs.

Context {C : Coercions}.
Context (JSON_parse : list N -> option value).

(** X4. The requests the handler lets through: the body is not [null], both
    fields are truthy, the identifier written as a string is a non-empty
    run of the characters [a-zA-Z0-9], and the type is the string "swiss"
    (endpoint "swiss") or the string "arena" (endpoint "tournament"). *)
Theorem validate_accepts (req_body : value) (id endpoint : string) :
  validate req_body = Ok (inr (id, endpoint)) <->
  nullish req_body = false
  /\ truthy (get req_body "tournamentId") = true
  /\ truthy (get req_body "type") = true
  /\ ToString (get req_body "tournamentId") = Ok id
  /\ (id <> "" /\ forall c, In c (list_ascii_of_string id) -> In c alphanumerics)
  /\ ((get req_body "type" = VStr "swiss" /\ endpoint = "swiss")
      \/ (get req_body "type" = VStr "arena" /\ endpoint = "tournament")).
Proof.
  rewrite <- test_alnum_spec. unfold validate, member. split.
  - destruct (nullish req_body); [discriminate|]. cbn [bind].
    destruct (truthy (get req_body "tournamentId")); [|discriminate].
    destruct (truthy (get req_body "type")); [|discriminate]. cbn [negb orb].
    destruct (ToString (get req_body "tournamentId")) as [s|e]; [|discriminate].
    cbn [bind]. destruct (test_alnum s) eqn:Et; [|discriminate]. cbn [negb].
    destruct (get req_body "type") as [| | | |t| |]; cbn; try discriminate.
    destruct (String.eqb_spec t "swiss") as [->|Hs]; cbn.
    + intros H; injection H as <- <-.
      split; [reflexivity|]. split; [reflexivity|]. split; [reflexivity|].
      split; [reflexivity|]. split; [exact Et|]. left. split; reflexivity.
    + destruct (String.eqb_spec t "arena") as [->|Ha]; cbn; [|discriminate].
      intros H; injection H as <- <-.
      split; [reflexivity|]. split; [reflexivity|]. split; [reflexivity|].
      split; [reflexivity|]. split; [exact Et|]. right. split; reflexivity.
  - intros (H1 & H2 & H3 & H4 & H5 & Htype).
    rewrite H1. cbn [bind]. rewrite H2, H3. cbn [negb orb].
    rewrite H4. cbn [bind]. rewrite H5. cbn [negb].
    destruct Htype as [[-> ->] | [-> ->]]; reflexivity.
Qed.

(** X5. The reply depends on the remote service through two calls only:
    the metadata of [https://lichess.org/api/<endpoint>/<id>] and the games
    of that URL followed by [/games?evals=true&accuracy=true&moves=true],
    for the validated identifier and endpoint. Two services that answer
    these two calls alike get the same reply, and a request that is not let
    through gets the same reply from any service. *)
Theorem analyze_two_calls (up1 up2 : upstream) (req_body : value) :
  (forall id endpoint,
     validate req_body = Ok (inr (id, endpoint)) ->
     fetch_metadata up1 (tournament_url id endpoint)
     = fetch_metadata up2 (tournament_url id endpoint)
     /\ fetch_games up1 (String.append (tournament_url id endpoint)
                           "/games?evals=true&accuracy=true&moves=true")
        = fetch_games up2 (String.append (tournament_url id endpoint)
                             "/games?evals=true&accuracy=true&moves=true")) ->
  analyze JSON_parse up1 req_body = analyze JSON_parse up2 req_body.
Proof.
  intros H. unfold analyze, handle, read_games.
  destruct (validate req_body) as [[r|[id endpoint]]|e]; cbn [bind]; try reflexivity.
  destruct (H id endpoint eq_refl) as [Hm Hg].
  unfold get_tournament, get_games. rewrite Hm, Hg. reflexivity.
Qed.

End ValidationProofs.

(** ** A feed with one analysed game *)

Definition quoted (s : string) : string :=
  String (ascii_of_nat 34) (String.append s (String (ascii_of_nat 34) EmptyString)).

(** The line
    [{ players: { white: { analysis: {} }, black: { analysis: {} } } }]
    as the feed writes it, keys quoted and without spaces. *)
Definition analysed_line : string :=
  String.append "{" (String.append (quoted "players") (String.append ":{"
    (String.append (quoted "white") (String.append ":{"
    (String.append (quoted "analysis") (String.append ":{}},"
    (String.append (quoted "black") (String.append ":{"
    (String.append (quoted "analysis") ":{}}}}"))))))))).

Definition analysed_record : value :=
  VObj [("players",
         VObj [("white", VObj [("analysis", VObj [])]);
               ("black", VObj [("analysis", VObj [])])])].

Definition code_units (s : string) : list N :=
  map N_of_ascii (list_ascii_of_string s).

Fixpoint same_units (a b : list N) : bool :=
  match a, b with
  | [], [] => true
  | x :: a', y :: b' => (x =? y)%N && same_units a' b'
  | _, _ => false
  end.

(** [JSON.parse] on the lines of the examples: the analysed game, and the
    lines of [sample_parse]. *)
Definition parse_known (line : list N) : option value :=
  if same_units line (code_units analysed_line) then Some analysed_record
  else sample_parse line.

Lemma success_payload_counts_witness :
  exists p,
    sent (analyze (C := sample_coercions) parse_known (serving analysed_line) valid_request)
    = Success p
    /\ (1 <= p_gameCount p)%N
    /\ p_gameCount p = (totalAnalyzed p + skippedShortGames p + unanalyzedGames p)%N
    /\ (totalAnalyzed p <= analyzedByLichess p)%N
    /\ (analyzedByLichess p <= p_gameCount p)%N.
Proof.
  eexists. split; [vm_compute; reflexivity|].
  apply (success_payload_counts (C := sample_coercions) parse_known
           (serving analysed_line) valid_request).
  vm_compute; reflexivity.
Defined.

Lemma success_payload_players_witness :
  exists p,
    sent (analyze (C := sample_coercions) parse_known (serving analysed_line) valid_request)
    = Success p
    /\ 1 <= eligiblePlayers p
    /\ eligiblePlayers p <= totalPlayersWithAnalysis p
    /\ totalPlayersWithAnalysis p <= List.length (playerMetrics p)
    /\ Forall (fun m => player_sound (base m)
                        /\ accuracy m = accuracy_of (accuracies (base m)))
              (playerMetrics p)
    /\ total_played (playerMetrics p) = (2 * p_gameCount p)%N.
Proof.
  eexists. split; [vm_compute; reflexivity|].
  apply (success_payload_players (C := sample_coercions) parse_known
           (serving analysed_line) valid_request).
  vm_compute; reflexivity.
Defined.

Lemma analyze_two_calls_witness :
  analyze (C := sample_coercions) sample_parse
    (mkUpstream (fun _ => Response true (Ok sample_tournament))
                (fun url => if String.prefix "https://lichess.org/api/swiss/abc123" url
                            then Response false None else FetchThrow AbortError))
    valid_request
  = analyze (C := sample_coercions) sample_parse games_unavailable valid_request.
Proof.
  apply (analyze_two_calls (C := sample_coercions) sample_parse).
  intros id endpoint H. vm_compute in H. injection H as <- <-.
  split; vm_compute; reflexivity.
Defined.

(** ** What [forEachNdjson] delivers (src/server.js, lines 21-45) *)

Section Delivery.

Context {char : Type} {T : Text char} {D : TextDecoder char}.
Context {J : Type} (JSON_parse : list char -> option J).
Context {St : Type} (onItem : J -> St -> result St).

Lemma deliver_returns (lines : list (list char)) (st st' : St) :
  deliver JSON_parse onItem lines st = Ok st' <->
  exists items,
    Forall2 (fun l item => JSON_parse l = Some item)
            (filter nonempty (map trim lines)) items
    /\ run onItem items st = Ok st'.
Proof.
  revert st; induction lines as [|l lines IH]; intros st.
  - cbn. split.
    + intros H. exists []. split; [constructor | exact H].
    + intros (items & HF & H). inversion HF; subst. exact H.
  - cbn [deliver map filter]. unfold emit.
    destruct (nonempty (trim l)).
    + destruct (JSON_parse (trim l)) as [item|] eqn:Ep; cbn [bind].
      * split.
        -- intros H. apply bind_Ok_inv in H as (st1 & E1 & H).
           apply IH in H as (items & HF & H).
           exists (item :: items). split; [constructor; assumption|].
           cbn [run]. rewrite E1. exact H.
        -- intros (items & HF & H). inversion HF as [|? y ? ys Hy HF']; subst.
           rewrite Ep in Hy. injection Hy as <-.
           cbn [run] in H. apply bind_Ok_inv in H as (st1 & E1 & H).
           rewrite E1. cbn [bind]. apply IH. eauto.
      * split; [discriminate|].
        intros (items & HF & _). inversion HF; subst. congruence.
    + cbn [bind]. apply IH.
Qed.

Lemma forEachNdjson_lines (chunks : list (list Byte.byte)) (st st' : St) :
  forEachNdjson JSON_parse onItem (Some (chunks, Done)) st = Ok st' <->
  exists items,
    Forall2 (fun l item => JSON_parse l = Some item)
            (payload_lines (concat chunks)) items
    /\ run onItem items st = Ok st'.
Proof.
  rewrite forEachNdjson_spec. unfold ndjson_spec, payload_lines, stream_lines.
  destruct (decode_stream dinit (concat chunks)) as [d text].
  destruct (lines_of text). apply deliver_returns.
Qed.

(** X6. [forEachNdjson] returns exactly when the response has a body, the
    stream ends without a read error, every line that trimming leaves
    non-empty parses, and the callback returns on each parsed record in
    turn; the state it returns is the one the callback leaves after the
    records of these lines, in order. Blank lines are passed over, and
    anything else makes it throw. *)
Theorem forEachNdjson_returns (response_body : body) (st st' : St) :
  forEachNdjson JSON_parse onItem response_body st = Ok st' <->
  exists chunks items,
    response_body = Some (chunks, Done)
    /\ Forall2 (fun l item => JSON_parse l = Some item)
               (payload_lines (concat chunks)) items
    /\ run onItem items st = Ok st'.
Proof.
  split.
  - destruct response_body as [[chunks [|e]]|]; intros H.
    + apply forEachNdjson_lines in H as (items & HF & H).
      exists chunks, items. auto.
    + simpl in H.
      destruct (read_loop JSON_parse onItem chunks dinit [] st) as [[[d b] s]|];
        discriminate.
    + discriminate.
  - intros (chunks & items & -> & HF & H).
    apply forEachNdjson_lines. eauto.
Qed.

End Delivery.

(** ** The games of the feed (src/server.js, lines 63-112) *)

(** The records of the feed: the parse of every non-blank line. *)
Definition feed_records (JSON_parse : list N -> option value)
    (chunks : list (list Byte.byte)) : list value :=
  parsed_records JSON_parse
    (stream_lines (T := UTF8.text) (D := UTF8.decoder) (concat chunks)).

Lemma parsed_records_items (JSON_parse : list N -> option value)
    (lines : list (list N)) (items : list value) :
  Forall2 (fun l item => JSON_parse l = Some item)
          (filter nonempty (map (trim (T := UTF8.text)) lines)) items ->
  parsed_records JSON_parse lines = items.
Proof.
  revert items; induction lines as [|l lines IH]; intros items HF.
  - inversion HF. reflexivity.
  - cbn [parsed_records flat_map]. fold (parsed_records JSON_parse lines).
    cbn [map filter] in HF.
    destruct (nonempty (trim l)).
    + inversion HF as [|? y ? ys Hy HF']; subst. rewrite Hy.
      cbn [app]. f_equal. auto.
    + cbn [app]. auto.
Qed.

Section FeedProofs.

Context {C : Coercions}.
Context (JSON_parse : list N -> option value).

Lemma run_aggregate (games : list value) (st : state) :
  run onGame games st = aggregate games st.
Proof.
  revert st; induction games as [|g games IH]; intros st; [reflexivity|].
  cbn [run aggregate]. apply bind_ext. intros st1. apply IH.
Qed.

Lemma stream_games_feed (chunks : list (list Byte.byte)) (st : state) :
  stream_games JSON_parse (Some (chunks, Done)) = Ok st ->
  aggregate (feed_records JSON_parse chunks) initial = Ok st
  /\ List.length (feed_records JSON_parse chunks)
     = List.length (payload_lines (T := UTF8.text) (D := UTF8.decoder) (concat chunks)).
Proof.
  unfold stream_games. intros H.
  apply forEachNdjson_lines in H as (items & HF & H).
  rewrite run_aggregate in H.
  pose proof (Forall2_length HF) as Hlen.
  unfold payload_lines in HF. apply parsed_records_items in HF.
  unfold feed_records. rewrite HF. split; [exact H | now rewrite Hlen].
Qed.

(** X7. When the games have been streamed, the state is the one the
    callback leaves after the records of the non-blank lines of the feed,
    from the empty accumulators, and [gameCount] is the number of these
    lines. *)
Theorem stream_games_records (chunks : list (list Byte.byte)) (st : state) :
  stream_games JSON_parse (Some (chunks, Done)) = Ok st ->
  aggregate (feed_records JSON_parse chunks) initial = Ok st
  /\ gameCount st
     = N.of_nat (List.length (payload_lines (T := UTF8.text) (D := UTF8.decoder)
                                (concat chunks))).
Proof.
  intros H. apply stream_games_feed in H as (H & Hlen). split; [exact H|].
  apply aggregate_sum in H as (Hc & _). rewrite Hc, Hlen. reflexivity.
Qed.

End FeedProofs.

(** ** When the callback throws (src/server.js, lines 75-112) *)

(** [Number(v)] returns. *)
Definition number_converts {C : Coercions} (v : value) : Prop :=
  exists x, Number v = Ok x.

(** The conversions of lines 104-107 return on the analysis of a side: the
    three counts, and the accuracy when it is not [null]. A side without a
    truthy analysis has none to make. *)
Definition analysis_converts {C : Coercions} (side : value) : Prop :=
  let a := opt_member side "analysis" in
  truthy a = true ->
  number_converts (get a "inaccuracy")
  /\ number_converts (get a "mistake")
  /\ number_converts (get a "blunder")
  /\ (nullish (get a "accuracy") = false -> number_converts (get a "accuracy")).

(** A runtime in which [Number] throws on the object
    [{"toString":0,"valueOf":0}], which has no method to convert it, and
    gives NaN on any other object. *)
Definition unconvertible : value :=
  VObj [("toString", VNum zero); ("valueOf", VNum zero)].

Definition is_unconvertible (v : value) : bool :=
  match v with
  | VObj [(k1, VNum x1); (k2, VNum x2)] =>
      (k1 =? "toString") && (k2 =? "valueOf") && is_zero x1 && is_zero x2
  | _ => false
  end.

Definition throwing_coercions : Coercions := {|
  StringToNumber := fun _ => NaN;
  ObjectToNumber := fun v =>
    if is_unconvertible v
    then Throw (TypeError "Cannot convert object to primitive value")
    else Ok NaN;
  ToDisplayString := fun v =>
    if is_unconvertible v
    then Throw (TypeError "Cannot convert object to primitive value")
    else Ok "[object Object]"
|}.

Section CallbackProofs.

Context {C : Coercions}.

Lemma Number_or_0_converts (v : value) :
  (exists x, Number_or_0 v = Ok x) <-> number_converts v.
Proof.
  unfold Number_or_0, number_converts. split.
  - intros [x H]. apply bind_Ok_inv in H as (y & Ey & _). eauto.
  - intros [x ->]. simpl. eauto.
Qed.

Lemma update_player_converts (side : value) (s : player) :
  (exists s', update_player side s = Ok s') <-> analysis_converts side.
Proof.
  unfold update_player, analysis_converts.
  destruct (truthy (opt_member side "analysis")).
  - split.
    + intros [s' H] _. bind_inv H.
      repeat split; try (apply Number_or_0_converts; eauto).
      intros Hn. rewrite Hn in E2. cbn [negb] in E2.
      apply bind_Ok_inv in E2 as (x & Ex & _).
      apply Number_or_0_converts. eauto.
    + intros H. destruct (H eq_refl) as (Hi & Hm & Hb & Ha).
      apply Number_or_0_converts in Hi as [i ->].
      apply Number_or_0_converts in Hm as [m ->].
      apply Number_or_0_converts in Hb as [b ->]. cbn [bind].
      destruct (nullish (get (opt_member side "analysis") "accuracy")); cbn [negb bind].
      * eauto.
      * destruct (proj2 (Number_or_0_converts _) (Ha eq_refl)) as [x ->].
        cbn [bind]. eauto.
  - split; [intros _ H; discriminate | eauto].
Qed.

Lemma record_side_converts (players : value) (game : N) (c : string)
    (ps : players_map) :
  (exists ps', record_side players game c ps = Ok ps')
  <-> analysis_converts (opt_member players c).
Proof.
  unfold record_side.
  set (side := opt_member players c).
  set (k := key_of (side_name side) game (c =? "white")).
  assert (Hs : exists s0,
             Map_get k (if negb (Map_has k ps)
                        then Map_set k (new_player (side_name side) side) ps
                        else ps) = Some s0).
  { destruct (Map_has k ps) eqn:Eh; cbn [negb].
    - apply Map_has_get in Eh. exact Eh.
    - rewrite Map_get_set_same. eauto. }
  destruct Hs as [s0 ->].
  rewrite <- (update_player_converts side s0). split.
  - intros [ps' H]. apply bind_Ok_inv in H as (s' & Es & _). eauto.
  - intros [s' ->]. cbn [bind]. eauto.
Qed.

(** X8. The callback returns on a record exactly when the record is not
    [null], its move list, when truthy, is a string, and on each side with
    a truthy analysis [Number] returns on the three counts and on the
    accuracy that is not [null]; on any other record it throws. [Number]
    returns on every value that is not an array or an object. *)
Theorem onGame_returns_iff (g : value) (st : state) :
  ((exists st', onGame g st = Ok st') <->
   nullish g = false
   /\ (truthy (get g "moves") = true -> exists s, get g "moves" = VStr s)
   /\ analysis_converts (side_of g "white")
   /\ analysis_converts (side_of g "black"))
  /\ ((exists e, onGame g st = Throw e) <-> ~ exists st', onGame g st = Ok st')
  /\ (forall v, match v with VArr _ | VObj _ => True | _ => number_converts v end).
Proof.
  split; [|split].
  - split.
    + intros [st' H]. pose proof (onGame_sides _ _ _ H) as (ps1 & E1 & E2).
      unfold onGame in H.
      apply bind_Ok_inv in H as (players & Ep & H).
      apply member_Ok in Ep as [Hg _]. split; [exact Hg|].
      apply bind_Ok_inv in H as (moves & Em & H).
      apply member_Ok in Em as [_ ->].
      apply bind_Ok_inv in H as (moveCount & Ec & _).
      split; [|split].
      * intros Ht. rewrite Ht in Ec. unfold split_length in Ec.
        destruct (get g "moves"); try discriminate. eauto.
      * unfold side_of. eapply record_side_converts. eauto.
      * unfold side_of. eapply record_side_converts. eauto.
    + intros (Hg & Hmoves & Hw & Hb).
      unfold onGame, member. rewrite Hg. cbn [bind].
      assert (exists n, (if truthy (get g "moves") then split_length (get g "moves")
                         else Ok 0%N) = Ok n) as [n ->].
      { destruct (truthy (get g "moves")) eqn:Et; [|eauto].
        destruct (Hmoves eq_refl) as [s ->]. simpl. eauto. }
      cbn [bind].
      match goal with
      | |- exists _, (let '(_, _) := ?t in _) = _ => destruct t as [sc uc]
      end.
      destruct (proj2 (record_side_converts (get g "players") (gameCount st + 1)%N
                         "white" (ps st)) Hw) as [ps1 ->].
      cbn [bind].
      destruct (proj2 (record_side_converts (get g "players") (gameCount st + 1)%N
                         "black" ps1) Hb) as [ps2 ->].
      cbn [bind]. eauto.
  - destruct (onGame g st) as [st'|e]; split.
    + intros [e H]. discriminate.
    + intros H. exfalso. apply H. eauto.
    + intros _ [st' H]. discriminate.
    + eauto.
  - intros v. unfold number_converts.
    destruct v as [| |[|]|x|s|l|l]; simpl; eauto.
Qed.

End CallbackProofs.

(** A record whose white analysis carries the object that cannot be
    converted: the callback throws on it, and returns on the same record
    with the count 1. *)
Definition game_with_inaccuracy (v : value) : value :=
  VObj [("players",
         VObj [("white", VObj [("analysis", VObj [("inaccuracy", v)])]);
               ("black", VObj [])]);
        ("moves", VStr "e4 e5")].

Example onGame_throws_on_unconvertible :
  onGame (C := throwing_coercions) (game_with_inaccuracy unconvertible) initial
  = Throw (TypeError "Cannot convert object to primitive value")
  /\ ~ analysis_converts (C := throwing_coercions)
         (side_of (game_with_inaccuracy unconvertible) "white")
  /\ exists st,
       onGame (C := throwing_coercions) (game_with_inaccuracy (VNum (num_of_Z 1))) initial
       = Ok st.
Proof.
  split; [vm_compute; reflexivity|]. split.
  - intros H. destruct (H eq_refl) as ([x Hx] & _). vm_compute in Hx. discriminate.
  - eexists. vm_compute. reflexivity.
Qed.

(** ** The accumulator of a player (src/server.js, lines 95-111) *)

(** The sides of the stream charged to the name [s], in stream order. *)
Fixpoint sides_of (s : string) (games : list value) : list value :=
  match games with
  | [] => []
  | g :: rest =>
      (if resolves_to s g "white" then [side_of g "white"] else [])
      ++ (if resolves_to s g "black" then [side_of g "black"] else [])
      ++ sides_of s rest
  end.

(** [if (a)] on the analysis of a side. *)
Definition analysed_side (side : value) : bool :=
  truthy (opt_member side "analysis").

(** [if (a.accuracy != null)] inside [if (a)]. *)
Definition rated_side (side : value) : bool :=
  analysed_side side
  && negb (nullish (get (opt_member side "analysis") "accuracy")).

Definition count_sides (f : value -> bool) (sides : list value) : N :=
  N.of_nat (List.length (filter f sides)).

(** A field of the accumulator named [s], 0 when there is none. *)
Definition tally (f : player -> N) (s : string) (ps : players_map) : N :=
  match Map_get (KStr s) ps with
  | Some p => f p
  | None => 0%N
  end.

Lemma count_sides_app (f : value -> bool) (l1 l2 : list value) :
  count_sides f (l1 ++ l2) = (count_sides f l1 + count_sides f l2)%N.
Proof.
  unfold count_sides. rewrite filter_app, length_app. lia.
Qed.

Lemma count_sides_all (l : list value) :
  count_sides (fun _ => true) l = N.of_nat (List.length l).
Proof.
  unfold count_sides. induction l as [|x l IH]; [reflexivity|].
  cbn [filter List.length]. lia.
Qed.

Section ProfileProofs.

Context {C : Coercions}.

Lemma update_player_username (side : value) (s s' : player) :
  update_player side s = Ok s' -> username s' = username s.
Proof.
  unfold update_player. destruct (truthy (opt_member side "analysis")).
  - intros H. bind_inv H. injection H as <-. reflexivity.
  - intros H. injection H as <-. reflexivity.
Qed.

Lemma update_player_accuracies (side : value) (s s' : player) :
  update_player side s = Ok s' ->
  N.of_nat (List.length (accuracies s'))
  = (N.of_nat (List.length (accuracies s)) + (if rated_side side then 1 else 0))%N.
Proof.
  unfold update_player, rated_side, analysed_side.
  destruct (truthy (opt_member side "analysis")); cbn [andb].
  - intros H. bind_inv H.
    destruct (nullish (get (opt_member side "analysis") "accuracy")); cbn [negb] in *.
    + injection E2 as <-. injection H as <-. cbn [accuracies]. lia.
    + apply bind_Ok_inv in E2 as (x & Ex & E2). injection E2 as <-.
      injection H as <-. cbn [accuracies]. rewrite length_app. simpl. lia.
  - intros H. injection H as <-. cbn [accuracies]. lia.
Qed.

Lemma update_player_analysed (side : value) (s s' : player) :
  update_player side s = Ok s' ->
  analyzedGames s' = (analyzedGames s + (if analysed_side side then 1 else 0))%N.
Proof.
  unfold update_player, analysed_side.
  destruct (truthy (opt_member side "analysis")).
  - intros H. bind_inv H. injection H as <-. reflexivity.
  - intros H. injection H as <-. cbn [analyzedGames]. lia.
Qed.

(** A field that every update raises by an amount read off the side. *)
Lemma record_side_tally (f : player -> N) (d : value -> bool)
    (s : string) (g : value) (game : N) (c : string) (ps ps' : players_map) :
  (forall side p p', update_player side p = Ok p' ->
                     f p' = (f p + (if d side then 1 else 0))%N) ->
  (forall name side, f (new_player name side) = 0%N) ->
  record_side (get g "players") game c ps = Ok ps' ->
  tally f s ps'
  = (tally f s ps + (if resolves_to s g c then count_sides d [side_of g c] else 0))%N.
Proof.
  intros Hstep Hnew H. apply (record_side_entry s) in H.
  fold (side_of g c) in H. destruct H as [Hyes Hno]. unfold tally.
  destruct (resolves_to s g c) eqn:Er.
  - apply resolves_to_spec in Er.
    destruct (Hyes Er) as (s0 & a & Hs0 & Hu & ->).
    rewrite (Hstep _ _ _ Hu). unfold count_sides. cbn [filter].
    destruct Hs0 as [-> | [-> ->]].
    + destruct (d (side_of g c)); reflexivity.
    + rewrite Hnew. destruct (d (side_of g c)); reflexivity.
  - rewrite Hno; [lia|].
    intros E. apply resolves_to_spec in E. congruence.
Qed.

Lemma aggregate_tally (f : player -> N) (d : value -> bool)
    (s : string) (games : list value) (st st' : state) :
  (forall side p p', update_player side p = Ok p' ->
                     f p' = (f p + (if d side then 1 else 0))%N) ->
  (forall name side, f (new_player name side) = 0%N) ->
  aggregate games st = Ok st' ->
  tally f s (ps st') = (tally f s (ps st) + count_sides d (sides_of s games))%N.
Proof.
  intros Hstep Hnew. revert st; induction games as [|g games IH]; intros st H.
  - injection H as <-. unfold count_sides. simpl. lia.
  - cbn [aggregate] in H. bind_inv H.
    apply onGame_sides in E as (ps1 & Hw & Hb).
    apply (record_side_tally f d s _ _ _ _ _ Hstep Hnew) in Hw, Hb.
    rewrite (IH _ H), Hb, Hw. cbn [sides_of]. rewrite !count_sides_app.
    destruct (resolves_to s g "white"), (resolves_to s g "black");
      unfold count_sides; cbn [filter List.length]; lia.
Qed.

Lemma side_name_is (s : string) (side : value) :
  side_name side = VStr s \/ side_name side <> VStr s.
Proof.
  destruct (side_name side) as [| | | |t| |]; try (right; discriminate).
  destruct (String.eqb_spec t s); [left; congruence | right; congruence].
Qed.

Lemma record_side_username (s : string) (players : value) (game : N) (c : string)
    (ps ps' : players_map) :
  (forall p, Map_get (KStr s) ps = Some p -> username p = VStr s) ->
  record_side players game c ps = Ok ps' ->
  forall p, Map_get (KStr s) ps' = Some p -> username p = VStr s.
Proof.
  intros Hall H p Hp. apply (record_side_entry s) in H as [Hyes Hno].
  destruct (side_name_is s (opt_member players c)) as [E|E].
  - destruct (Hyes E) as (s0 & a & Hs0 & Hu & Ha).
    rewrite Hp in Ha. injection Ha as <-.
    rewrite (update_player_username _ _ _ Hu).
    destruct Hs0 as [Hs0 | [_ ->]]; [auto | reflexivity].
  - rewrite (Hno E) in Hp. auto.
Qed.

Lemma aggregate_username (s : string) (games : list value) (st st' : state) :
  (forall p, Map_get (KStr s) (ps st) = Some p -> username p = VStr s) ->
  aggregate games st = Ok st' ->
  forall p, Map_get (KStr s) (ps st') = Some p -> username p = VStr s.
Proof.
  revert st; induction games as [|g games IH]; intros st Hall H.
  - now injection H as <-.
  - cbn [aggregate] in H. bind_inv H.
    apply onGame_sides in E as (ps1 & Hw & Hb).
    apply (IH _ (record_side_username s _ _ _ _ _
                   (record_side_username s _ _ _ _ _ Hall Hw) Hb) H).
Qed.

(** X9. The accumulator of a name after any stream: there is one exactly
    when some side of the stream is charged to the name; its [username] is
    the name, [gamesPlayed] the number of these sides, [analyzedGames] the
    number of them with a truthy analysis, and [accuracies] has one value
    for each of them whose analysis has an accuracy that is not [null]. *)
Theorem player_profile (s : string) (games : list value) (st : state) :
  aggregate games initial = Ok st ->
  match Map_get (KStr s) (ps st) with
  | None => sides_of s games = []
  | Some p =>
      sides_of s games <> []
      /\ username p = VStr s
      /\ gamesPlayed p = N.of_nat (List.length (sides_of s games))
      /\ analyzedGames p = count_sides analysed_side (sides_of s games)
      /\ N.of_nat (List.length (accuracies p))
         = count_sides rated_side (sides_of s games)
  end.
Proof.
  intros H.
  pose proof (aggregate_tally gamesPlayed (fun _ => true) s games _ _
                (fun side p p' Hu => update_player_gamesPlayed side p p' Hu)
                (fun _ _ => eq_refl) H) as Hplayed.
  pose proof (aggregate_tally analyzedGames analysed_side s games _ _
                update_player_analysed (fun _ _ => eq_refl) H) as Hanalysed.
  pose proof (aggregate_tally (fun p => N.of_nat (List.length (accuracies p)))
                rated_side s games _ _
                update_player_accuracies (fun _ _ => eq_refl) H) as Hrated.
  assert (Hname : forall p, Map_get (KStr s) (ps st) = Some p -> username p = VStr s).
  { apply (aggregate_username s games initial st); [intros p Hp; discriminate | exact H]. }
  assert (Hpos : Forall played_and_analyzed (Map_values (ps st))).
  { apply (aggregate_played_and_analyzed games initial st); [constructor | exact H]. }
  unfold tally in *. change (Map_get (KStr s) (ps initial)) with (@None player) in *.
  rewrite count_sides_all in Hplayed.
  destruct (Map_get (KStr s) (ps st)) as [p|] eqn:Ep.
  - split; [|split; [auto | split; [lia | split; lia]]].
    apply (Map_get_Forall _ _ _ _ Hpos) in Ep as [Hp _].
    intros E. rewrite E in Hplayed. simpl in Hplayed. lia.
  - destruct (sides_of s games); [reflexivity | simpl in Hplayed; lia].
Qed.

(** X10. The team of the accumulator of a name after any stream is the
    first truthy team among the sides charged to the name, in stream order,
    and the team of the first of these sides when none is truthy. *)
Theorem team_settled (s : string) (games : list value) (st : state) :
  aggregate games initial = Ok st ->
  team_of s (ps st)
  = match teams_seen s games with
    | [] => None
    | t :: l => Some (match find truthy (t :: l) with Some v => v | None => t end)
    end.
Proof.
  intros H. apply (aggregate_team s) in H. rewrite H.
  change (team_of s (ps initial)) with (@None value).
  destruct (teams_seen s games) as [|t l]; [reflexivity|].
  apply settle_first_truthy.
Qed.

(** X11. With counts in the feed that convert to finite numbers, no
    inaccuracy, mistake or blunder counter of the map is NaN after the
    stream. *)
Theorem counters_stay_numbers (games : list value) (st : state) :
  Forall (fun g => finite_counts (side_of g "white")
                   /\ finite_counts (side_of g "black")) games ->
  aggregate games initial = Ok st ->
  Forall counters_not_NaN (Map_values (ps st)).
Proof.
  intros Hfin H.
  apply (aggregate_not_NaN games initial st); [exact Hfin | constructor | exact H].
Qed.

Lemma aggregate_analysed_sides (games : list value) (st st' : state) :
  aggregate games st = Ok st' ->
  (sum_analyzedGames (ps st') + lichessCount st + fullyAnalyzedCount st
   <= sum_analyzedGames (ps st) + lichessCount st' + fullyAnalyzedCount st')%N
  /\ (Forall (fun g => plain_analysis g "white" /\ plain_analysis g "black") games ->
      (sum_analyzedGames (ps st') + lichessCount st + fullyAnalyzedCount st
       = sum_analyzedGames (ps st) + lichessCount st' + fullyAnalyzedCount st')%N).
Proof.
  revert st; induction games as [|g games IH]; intros st H.
  - injection H as <-. split; [lia | intros _; lia].
  - cbn [aggregate] in H. bind_inv H.
    pose proof (onGame_analyzedGames _ _ _ E) as Hs.
    pose proof (onGame_analysis_counters _ _ _ E) as (Hl & Hf).
    apply IH in H as (Hle & Heq).
    unfold some_analyzed, both_analyzed in *.
    pose proof (truthy_not_nullish (analysis_of g "white")) as Hw.
    pose proof (truthy_not_nullish (analysis_of g "black")) as Hb.
    split.
    + destruct (truthy (analysis_of g "white")), (truthy (analysis_of g "black"));
        try rewrite (Hw eq_refl) in *; try rewrite (Hb eq_refl) in *;
        destruct (nullish (analysis_of g "white")), (nullish (analysis_of g "black"));
        cbn [negb orb andb] in *; lia.
    + intros Hall. inversion Hall as [|? ? [Pw Pb] Hrest]; subst.
      specialize (Heq Hrest). unfold plain_analysis in Pw, Pb.
      rewrite Pw, Pb in Hs.
      destruct (nullish (analysis_of g "white")), (nullish (analysis_of g "black"));
        cbn [negb orb andb] in *; lia.
Qed.

(** X12. The analysed games of the players against the analysed games of
    the tournament: the [analyzedGames] of all accumulators add up to at
    most [lichessCount + fullyAnalyzedCount] (one for a game with an
    analysed side, one more when both are), with equality when no analysis
    of the feed is one of [0], [false] and the empty string, which count as
    an analysed game but not for the player. *)
Theorem analysed_sides_bound (games : list value) (st : state) :
  aggregate games initial = Ok st ->
  (sum_analyzedGames (ps st) <= lichessCount st + fullyAnalyzedCount st)%N
  /\ (Forall (fun g => plain_analysis g "white" /\ plain_analysis g "black") games ->
      sum_analyzedGames (ps st) = (lichessCount st + fullyAnalyzedCount st)%N).
Proof.
  intros H. apply aggregate_analysed_sides in H as (Hle & Heq).
  change (sum_analyzedGames (ps initial)) with 0%N in *.
  change (lichessCount initial) with 0%N in *.
  change (fullyAnalyzedCount initial) with 0%N in *.
  split; [lia | intros Hall; specialize (Heq Hall); lia].
Qed.

End ProfileProofs.

(** ** The counts of the buffer-then-parse handler
       (src/unnamed/part_000, lines 26-38 and 66-71)

    part_000 counts over the array of all decoded games, after the fact:
    a loop for the unanalysed games and two filters for the analysed and
    the short ones. *)

Module LegacyReport.

(** [g.players?.[c]?.analysis]; [g.players] throws on a [null] record. *)
Definition analysis (g : value) (c : string) : result value :=
  players <- member g "players" ;;
  Ok (opt_member (opt_member players c) "analysis").

(** [g.moves ? g.moves.split(" ").length : 0] *)
Definition move_count (g : value) : result N :=
  moves <- member g "moves" ;;
  if truthy moves then split_length moves else Ok 0%N.

(** The body of the loop of lines 30-37: whether the game is counted. *)
Definition is_unanalyzed (g : value) : result bool :=
  wa <- analysis g "white" ;;
  ba <- analysis g "black" ;;
  let hW := negb (nullish wa) in
  let hB := negb (nullish ba) in
  if negb hW || negb hB then
    mc <- move_count g ;;
    moves <- member g "moves" ;;
    status <- member g "status" ;;
    Ok (truthy moves && (10 <=? mc)%N
        && negb (strict_eq_string status "aborted")
        && negb (strict_eq_string status "noStart"))
  else Ok false.

(** The predicate of the filter of line 66. *)
Definition has_analysis (g : value) : result bool :=
  wa <- analysis g "white" ;;
  ba <- analysis g "black" ;;
  Ok (negb (nullish wa) || negb (nullish ba)).

(** The predicate of the filter of line 67. *)
Definition is_short (g : value) : result bool :=
  wa <- analysis g "white" ;;
  ba <- analysis g "black" ;;
  if truthy wa && truthy ba then Ok false
  else
    mc <- move_count g ;;
    status <- member g "status" ;;
    Ok ((mc <? 10)%N || strict_eq_string status "aborted"
        || strict_eq_string status "noStart").

(** [games.filter(f).length], and the loop with its counter. *)
Fixpoint count_where (f : value -> result bool) (games : list value) : result N :=
  match games with
  | [] => Ok 0%N
  | g :: rest =>
      b <- f g ;;
      n <- count_where f rest ;;
      Ok (if b then (n + 1)%N else n)
  end.

(** The five counts of the reply (lines 70-72). *)
Record report : Type := mkReport {
  gameCount : N;
  analyzedByLichess : N;
  totalAnalyzed : N;
  skippedShortGames : N;
  unanalyzedGames : N
}.

Definition report_of (games : list value) : result report :=
  unanalyzedCount <- count_where is_unanalyzed games ;;
  lichessCount <- count_where has_analysis games ;;
  shortCount <- count_where is_short games ;;
  Ok (mkReport (N.of_nat (List.length games)) lichessCount lichessCount
        shortCount unanalyzedCount).

End LegacyReport.

Lemma legacy_is_unanalyzed (g : value) (b : bool) :
  LegacyReport.is_unanalyzed g = Ok b ->
  snd (classification g) = if b then 1%N else 0%N.
Proof.
  unfold LegacyReport.is_unanalyzed, LegacyReport.analysis, LegacyReport.move_count, member.
  destruct (nullish g); [discriminate|]. cbn [bind].
  unfold classification, both_analyzed, analysis_of, is_short, move_list_present.
  destruct (negb (nullish (opt_member (opt_member (get g "players") "white") "analysis")));
    destruct (negb (nullish (opt_member (opt_member (get g "players") "black") "analysis")));
    cbn [negb orb andb];
    try (intros H; injection H as <-; reflexivity);
    (intros H; apply bind_Ok_inv in H as (mc & Emc & H);
     apply split_length_pieces in Emc; subst mc; injection H as <-;
     destruct (N.ltb_spec (split_pieces g) 10), (N.leb_spec 10 (split_pieces g)); try lia;
     destruct (truthy (get g "moves"));
     destruct (strict_eq_string (get g "status") "aborted");
     destruct (strict_eq_string (get g "status") "noStart"); reflexivity).
Qed.

Lemma legacy_has_analysis (g : value) (b : bool) :
  LegacyReport.has_analysis g = Ok b -> b = some_analyzed g.
Proof.
  unfold LegacyReport.has_analysis, LegacyReport.analysis, member.
  destruct (nullish g); [discriminate|]. cbn [bind].
  intros H; injection H as <-. reflexivity.
Qed.

Lemma legacy_is_short (g : value) (b : bool) :
  LegacyReport.is_short g = Ok b ->
  b = negb (truthy (analysis_of g "white") && truthy (analysis_of g "black"))
      && is_short g.
Proof.
  unfold LegacyReport.is_short, LegacyReport.analysis, LegacyReport.move_count, member.
  destruct (nullish g); [discriminate|]. cbn [bind].
  fold (analysis_of g "white"). fold (analysis_of g "black").
  destruct (truthy (analysis_of g "white") && truthy (analysis_of g "black")).
  - intros H; injection H as <-. reflexivity.
  - intros H. apply bind_Ok_inv in H as (mc & Emc & H).
    apply split_length_pieces in Emc; subst mc. injection H as <-. reflexivity.
Qed.

Section LegacyReportProofs.

Context {C : Coercions}.

Lemma legacy_counts (games : list value) (st st' : state) (u l s : N) :
  LegacyReport.count_where LegacyReport.is_unanalyzed games = Ok u ->
  LegacyReport.count_where LegacyReport.has_analysis games = Ok l ->
  LegacyReport.count_where LegacyReport.is_short games = Ok s ->
  aggregate games st = Ok st' ->
  unanalyzedCount st' = (unanalyzedCount st + u)%N
  /\ lichessCount st' = (lichessCount st + l)%N
  /\ (shortCount st' <= shortCount st + s)%N
  /\ (Forall (fun g => plain_analysis g "white" /\ plain_analysis g "black") games ->
      shortCount st' = (shortCount st + s)%N).
Proof.
  revert st u l s; induction games as [|g games IH]; intros st u l s Hu Hl Hs H.
  - injection Hu as <-. injection Hl as <-. injection Hs as <-. injection H as <-.
    split; [lia|]. split; [lia|]. split; [lia | intros _; lia].
  - cbn [LegacyReport.count_where] in Hu, Hl, Hs. cbn [aggregate] in H.
    apply bind_Ok_inv in Hu as (bu & Ebu & Hu). apply bind_Ok_inv in Hu as (u' & Hu' & Hu).
    apply bind_Ok_inv in Hl as (bl & Ebl & Hl). apply bind_Ok_inv in Hl as (l' & Hl' & Hl).
    apply bind_Ok_inv in Hs as (bs & Ebs & Hs). apply bind_Ok_inv in Hs as (s' & Hs' & Hs).
    apply bind_Ok_inv in H as (st1 & E & H).
    injection Hu as <-. injection Hl as <-. injection Hs as <-.
    destruct (IH _ _ _ _ Hu' Hl' Hs' H) as (IHu & IHl & IHs & IHeq).
    pose proof (onGame_counters _ _ _ E) as (_ & _ & Hsc & Huc).
    pose proof (onGame_analysis_counters _ _ _ E) as (Hlc & _).
    apply legacy_is_unanalyzed in Ebu. apply legacy_has_analysis in Ebl.
    apply legacy_is_short in Ebs.
    assert (Hshort : (fst (classification g) <= (if bs then 1 else 0))%N
                     /\ (plain_analysis g "white" /\ plain_analysis g "black" ->
                         fst (classification g) = (if bs then 1 else 0)%N)).
    { subst bs. unfold classification, both_analyzed, plain_analysis.
      pose proof (truthy_not_nullish (analysis_of g "white")) as Hw.
      pose proof (truthy_not_nullish (analysis_of g "black")) as Hb.
      destruct (truthy (analysis_of g "white")), (truthy (analysis_of g "black"));
        try rewrite (Hw eq_refl); try rewrite (Hb eq_refl);
        destruct (nullish (analysis_of g "white")), (nullish (analysis_of g "black"));
        destruct (is_short g); destruct (move_list_present g);
        cbn [negb andb orb fst]; (split; [lia | intros [? ?]; try discriminate; try lia]). }
    destruct Hshort as [Hle Heq].
    split; [|split; [|split]].
    + rewrite IHu, Huc, Ebu. destruct bu; lia.
    + rewrite IHl, Hlc, Ebl. destruct (some_analyzed g); lia.
    + rewrite Hsc in IHs. destruct bs; lia.
    + intros Hall. apply Forall_cons_iff in Hall as [Hg Hrest].
      rewrite (IHeq Hrest), Hsc, (Heq Hg). destruct bs; lia.
Qed.

Lemma aggregate_balanced (games : list value) (st st' : state) :
  counters_balanced st -> aggregate games st = Ok st' -> counters_balanced st'.
Proof.
  revert st; induction games as [|g games IH]; intros st Hb H.
  - now injection H as <-.
  - cbn [aggregate] in H. apply bind_Ok_inv in H as (st1 & E & H).
    apply (IH _ (onGame_balanced _ _ _ Hb E) H).
Qed.

(** X13. The counts of part_000 against the counters of server.js on the
    same decoded games: the number of games, the games analysed by Lichess
    and the unanalysed games agree; part_000 reports as [totalAnalyzed] the
    games with some analysed side, which is at least the fully analysed
    games server.js reports; and part_000 counts at least as many short
    games, the same number when no analysis of the feed is one of [0],
    [false] and the empty string. *)
Theorem legacy_report_agrees (games : list value) (r : LegacyReport.report)
    (st : state) :
  LegacyReport.report_of games = Ok r ->
  aggregate games initial = Ok st ->
  LegacyReport.gameCount r = gameCount st
  /\ LegacyReport.analyzedByLichess r = lichessCount st
  /\ LegacyReport.unanalyzedGames r = unanalyzedCount st
  /\ LegacyReport.totalAnalyzed r = lichessCount st
  /\ (fullyAnalyzedCount st <= LegacyReport.totalAnalyzed r)%N
  /\ (shortCount st <= LegacyReport.skippedShortGames r)%N
  /\ (Forall (fun g => plain_analysis g "white" /\ plain_analysis g "black") games ->
      LegacyReport.skippedShortGames r = shortCount st).
Proof.
  unfold LegacyReport.report_of. intros Hr H.
  apply bind_Ok_inv in Hr as (u & Hu & Hr).
  apply bind_Ok_inv in Hr as (l & Hl & Hr).
  apply bind_Ok_inv in Hr as (s & Hs & Hr). injection Hr as <-.
  cbn [LegacyReport.gameCount LegacyReport.analyzedByLichess
       LegacyReport.unanalyzedGames LegacyReport.totalAnalyzed
       LegacyReport.skippedShortGames].
  destruct (legacy_counts _ _ _ _ _ _ Hu Hl Hs H) as (Hu' & Hl' & Hs' & Heq).
  pose proof (aggregate_sum _ _ _ H) as (Hc & _).
  assert (Hbal : counters_balanced st).
  { apply (aggregate_balanced games initial st); [|exact H].
    unfold counters_balanced. simpl. lia. }
  destruct Hbal as (_ & Hf & _).
  change (gameCount initial) with 0%N in Hc.
  change (unanalyzedCount initial) with 0%N in Hu'.
  change (lichessCount initial) with 0%N in Hl'.
  change (shortCount initial) with 0%N in Hs', Heq.
  repeat split; try lia.
  intros Hall. specialize (Heq Hall). lia.
Qed.

End LegacyReportProofs.

(** ** The accumulators of part_000 (src/unnamed/part_000, lines 41-50) *)

Lemma legacy_Map_get_set_KStr (s : string) (p : Legacy.player) (ps : Legacy.players_map) :
  Legacy.Map_get (KStr s) (Legacy.Map_set (KStr s) p ps) = Some p.
Proof.
  induction ps as [|[k' p'] ps IH]; simpl.
  - now rewrite String.eqb_refl.
  - destruct (key_eqb k' (KStr s)) eqn:E; simpl; rewrite E; auto.
Qed.

Lemma legacy_Map_get_set_other (s : string) (k : key) (p : Legacy.player)
    (ps : Legacy.players_map) :
  k <> KStr s ->
  Legacy.Map_get (KStr s) (Legacy.Map_set k p ps) = Legacy.Map_get (KStr s) ps.
Proof.
  intros Hk. induction ps as [|[k' p'] ps IH]; simpl.
  - destruct (key_eqb k (KStr s)) eqn:E; [|reflexivity].
    apply key_eqb_KStr in E. contradiction.
  - destruct (key_eqb k' k) eqn:E1; simpl.
    + destruct (key_eqb k' (KStr s)) eqn:E2; [|reflexivity].
      apply key_eqb_KStr in E2. subst k'.
      apply key_eqb_KStr_l in E1. contradiction.
    + now rewrite IH.
Qed.

Lemma legacy_Map_has_get (k : key) (ps : Legacy.players_map) :
  Legacy.Map_has k ps = true <-> exists p, Legacy.Map_get k ps = Some p.
Proof.
  induction ps as [|[k' p'] ps IH]; simpl.
  - split; [discriminate | intros [p H]; discriminate].
  - destruct (key_eqb k' k); simpl; [split; eauto | exact IH].
Qed.

Lemma legacy_Map_has_false_get (k : key) (ps : Legacy.players_map) :
  Legacy.Map_has k ps = false -> Legacy.Map_get k ps = None.
Proof.
  intros H. destruct (Legacy.Map_get k ps) as [p|] eqn:E; [|reflexivity].
  assert (Legacy.Map_has k ps = true) by (apply legacy_Map_has_get; eauto). congruence.
Qed.

(** What the accumulator of a name holds in part_000 after the sides
    [sides] have been charged to it. *)
Definition legacy_entry (o : option Legacy.player) (sides : list value) : Prop :=
  match o with
  | None => sides = []
  | Some p =>
      exists first rest,
        sides = first :: rest
        /\ Legacy.username p = side_name first
        /\ Legacy.team p = opt_member first "team"
        /\ Legacy.gamesPlayed p = N.of_nat (List.length sides)
        /\ Legacy.analyzedGames p = count_sides analysed_side sides
  end.

Lemma sides_of_name (s : string) (games : list value) (side : value) :
  In side (sides_of s games) -> side_name side = VStr s.
Proof.
  induction games as [|g games IH]; cbn [sides_of]; [intros []|].
  rewrite !in_app_iff. intros [H | [H | H]]; [| |auto].
  - destruct (resolves_to s g "white") eqn:E; [|destruct H].
    destruct H as [<-|[]].
    unfold resolves_to in E. destruct (side_name (side_of g "white")); try discriminate.
    apply String.eqb_eq in E. now subst.
  - destruct (resolves_to s g "black") eqn:E; [|destruct H].
    destruct H as [<-|[]].
    unfold resolves_to in E. destruct (side_name (side_of g "black")); try discriminate.
    apply String.eqb_eq in E. now subst.
Qed.

Section LegacyLoopProofs.

Context {C : Coercions}.

Lemma legacy_update_player (side : value) (s s' : Legacy.player) :
  Legacy.update_player side s = Ok s' ->
  Legacy.username s' = Legacy.username s
  /\ Legacy.team s' = Legacy.team s
  /\ Legacy.gamesPlayed s' = (Legacy.gamesPlayed s + 1)%N
  /\ Legacy.analyzedGames s'
     = (Legacy.analyzedGames s + (if analysed_side side then 1 else 0))%N.
Proof.
  unfold Legacy.update_player, analysed_side.
  destruct (truthy (opt_member side "analysis")).
  - intros H. bind_inv H. injection H as <-. cbn. auto.
  - intros H. injection H as <-. cbn. repeat split. lia.
Qed.

Lemma legacy_record_side_entry (s : string) (g : value) (game : N) (c : string)
    (ps ps' : Legacy.players_map) (sides : list value) :
  Legacy.record_side g game c ps = Ok ps' ->
  legacy_entry (Legacy.Map_get (KStr s) ps) sides ->
  legacy_entry (Legacy.Map_get (KStr s) ps')
    (sides ++ (if resolves_to s g c then [side_of g c] else [])).
Proof.
  unfold Legacy.record_side. intros H Hin.
  apply bind_Ok_inv in H as (players & Ep & H).
  apply member_Ok in Ep as [_ ->]. fold (side_of g c) in H.
  set (side := side_of g c) in *.
  set (k := key_of (side_name side) game (c =? "white")) in *.
  set (ps1 := if negb (Legacy.Map_has k ps) then _ else ps) in *.
  destruct (Legacy.Map_get k ps1) as [s0|] eqn:Eg; [|discriminate].
  apply bind_Ok_inv in H as (a & Eu & H). injection H as <-.
  apply legacy_update_player in Eu as (Hn & Ht & Hg & Ha).
  destruct (resolves_to s g c) eqn:Er.
  - apply resolves_to_spec in Er. fold side in Er.
    assert (Hk : k = KStr s) by (subst k; rewrite Er; reflexivity).
    subst ps1. rewrite Hk in *. clear k Hk.
    rewrite legacy_Map_get_set_KStr. cbn [legacy_entry].
    destruct (Legacy.Map_has (KStr s) ps) eqn:Eh; cbn [negb] in Eg.
    + rewrite Eg in Hin. cbn [legacy_entry] in Hin.
      destruct Hin as (first & rest & -> & Hn0 & Ht0 & Hg0 & Ha0).
      exists first, (rest ++ [side]). split; [reflexivity|].
      split; [congruence|]. split; [congruence|].
      rewrite Hg, Ha, Hg0, Ha0, count_sides_app, length_app.
      split; [cbn [List.length]; lia|].
      unfold count_sides at 3. cbn [filter].
      destruct (analysed_side side); cbn [List.length]; lia.
    + rewrite (legacy_Map_has_false_get _ _ Eh) in Hin. cbn [legacy_entry] in Hin.
      subst sides. rewrite legacy_Map_get_set_KStr in Eg. injection Eg as <-.
      exists side, []. split; [reflexivity|].
      cbn in Hn, Ht, Hg, Ha. rewrite Hn, Ht, Hg, Ha.
      split; [reflexivity|]. split; [reflexivity|].
      unfold count_sides. cbn [app filter List.length].
      split; [reflexivity|]. destruct (analysed_side side); reflexivity.
  - rewrite app_nil_r.
    assert (Hk : k <> KStr s).
    { subst k. intros Hk. apply key_of_KStr in Hk.
      assert (resolves_to s g c = true) by (apply resolves_to_spec; exact Hk).
      congruence. }
    rewrite legacy_Map_get_set_other by exact Hk.
    subst ps1. destruct (negb (Legacy.Map_has k ps)); [|exact Hin].
    rewrite legacy_Map_get_set_other by exact Hk. exact Hin.
Qed.

Lemma legacy_aggregate_entry (s : string) (games : list value) (game : N)
    (ps ps' : Legacy.players_map) (sides : list value) :
  Legacy.aggregate games game ps = Ok ps' ->
  legacy_entry (Legacy.Map_get (KStr s) ps) sides ->
  legacy_entry (Legacy.Map_get (KStr s) ps') (sides ++ sides_of s games).
Proof.
  revert game ps sides; induction games as [|g games IH]; intros game ps sides H Hin.
  - injection H as <-. cbn [sides_of]. now rewrite app_nil_r.
  - cbn [Legacy.aggregate] in H.
    apply bind_Ok_inv in H as (ps1 & Hw & H).
    apply bind_Ok_inv in H as (ps2 & Hb & H).
    apply (legacy_record_side_entry s _ _ _ _ _ _ Hw) in Hin.
    apply (legacy_record_side_entry s _ _ _ _ _ _ Hb) in Hin.
    apply (IH _ _ _ H) in Hin. cbn [sides_of].
    rewrite <- !app_assoc in Hin. exact Hin.
Qed.

(** X14. The accumulator of a name in part_000 after any list of games:
    there is one exactly when some side is charged to the name; its
    [gamesPlayed] and [analyzedGames] count these sides and the analysed
    ones among them, as in server.js; and its team is the team of the first
    of these sides, whatever teams the later ones carry. *)
Theorem legacy_profile (s : string) (games : list value) (ps : Legacy.players_map) :
  Legacy.aggregate games 0 [] = Ok ps ->
  match Legacy.Map_get (KStr s) ps with
  | None => sides_of s games = []
  | Some p =>
      exists first rest,
        sides_of s games = first :: rest
        /\ Legacy.username p = VStr s
        /\ Legacy.team p = opt_member first "team"
        /\ Legacy.gamesPlayed p = N.of_nat (List.length (sides_of s games))
        /\ Legacy.analyzedGames p = count_sides analysed_side (sides_of s games)
  end.
Proof.
  intros H.
  pose proof (legacy_aggregate_entry s games 0 [] ps [] H eq_refl) as Hentry.
  cbn [app] in Hentry. unfold legacy_entry in Hentry.
  destruct (Legacy.Map_get (KStr s) ps) as [p|]; [|exact Hentry].
  destruct Hentry as (first & rest & Hs & Hn & Ht & Hg & Ha).
  exists first, rest. repeat split; try assumption.
  rewrite Hn. apply (sides_of_name s games). rewrite Hs. now left.
Qed.

End LegacyLoopProofs.

(** ** The games of part_000 (src/unnamed/part_000, line 25)

    part_000 reads the whole body as one text, trims it, cuts it at every
    newline, drops the blank lines and parses the others as they are. *)

Module LegacyGames.

Section Games.

Context {char : Type} {T : Text char} {D : TextDecoder char}.
Context {J : Type} (JSON_parse : list char -> option J).

(** [await gRes.text()]: the bytes decoded at once. *)
Definition text (bytes : list Byte.byte) : list char :=
  let '(decoder, t) := decode_stream dinit bytes in t ++ dflush decoder.

(** [s.split("\n")]: one more piece than there are newlines. *)
Fixpoint split_newline (s : list char) : list (list char) :=
  match s with
  | [] => [[]]
  | c :: rest =>
      if is_newline c then [] :: split_newline rest
      else match split_newline rest with
           | l :: ls => (c :: l) :: ls
           | [] => [[c]]
           end
  end.

(** [lines.map(l => JSON.parse(l))]: the first line that does not parse
    throws. *)
Fixpoint parse_all (lines : list (list char)) : result (list J) :=
  match lines with
  | [] => Ok []
  | l :: rest =>
      match JSON_parse l with
      | Some g => gs <- parse_all rest ;; Ok (g :: gs)
      | None => Throw (SyntaxError "Unexpected token in JSON")
      end
  end.

Definition games_of (bytes : list Byte.byte) : result (list J) :=
  parse_all (filter (fun l => nonempty (trim l)) (split_newline (trim (text bytes)))).

End Games.

End LegacyGames.

Section SplitProofs.

Context {char : Type} {T : Text char}.

Definition all_space (s : list char) : bool := forallb is_space s.

(** The non-blank lines, trimmed. *)
Definition record_lines (lines : list (list char)) : list (list char) :=
  filter nonempty (map trim lines).

(** [p] put in front of the first line. *)
Definition prepend (p : list char) (lines : list (list char)) : list (list char) :=
  match lines with
  | [] => [p]
  | l :: ls => (p ++ l) :: ls
  end.

Lemma split_newline_lines_of (s : list char) :
  LegacyGames.split_newline s = fst (lines_of s) ++ [snd (lines_of s)].
Proof.
  induction s as [|c s IH]; [reflexivity|].
  cbn [LegacyGames.split_newline lines_of]. rewrite IH.
  destruct (lines_of s) as [ls tl]. cbn [fst snd].
  destruct (is_newline c); [reflexivity|].
  destruct ls as [|l ls]; reflexivity.
Qed.

Lemma lines_of_app_no_newline (t f : list char) :
  indexOf_newline f = None ->
  lines_of (t ++ f) = (fst (lines_of t), snd (lines_of t) ++ f).
Proof.
  intros Hf. induction t as [|c t IH].
  - cbn [app]. rewrite (lines_of_no_newline _ Hf). reflexivity.
  - cbn [app lines_of]. rewrite IH. destruct (lines_of t) as [ls tl]. cbn [fst snd].
    destruct (is_newline c); [reflexivity|].
    destruct ls as [|l ls]; reflexivity.
Qed.

Lemma split_prepend (c : char) (s : list char) :
  is_newline c = false ->
  LegacyGames.split_newline (c :: s) = prepend [c] (LegacyGames.split_newline s).
Proof.
  intros Hc. cbn [LegacyGames.split_newline]. rewrite Hc.
  destruct (LegacyGames.split_newline s); reflexivity.
Qed.

Lemma split_nonempty (s : list char) : LegacyGames.split_newline s <> [].
Proof.
  destruct s as [|c s]; cbn; [discriminate|].
  destruct (is_newline c); [discriminate|].
  destruct (LegacyGames.split_newline s); discriminate.
Qed.

Lemma prepend_prepend (p q : list char) (lines : list (list char)) :
  lines <> [] -> prepend p (prepend q lines) = prepend (p ++ q) lines.
Proof.
  destruct lines as [|l ls]; [contradiction|].
  intros _. cbn. now rewrite app_assoc.
Qed.

Lemma prepend_nil (lines : list (list char)) :
  lines <> [] -> prepend [] lines = lines.
Proof. destruct lines; [contradiction | reflexivity]. Qed.

Lemma trimStart_app (a b : list char) :
  trimStart (a ++ b) = if all_space a then trimStart b else trimStart a ++ b.
Proof.
  induction a as [|c a IH]; [reflexivity|].
  cbn [app trimStart all_space forallb]. destruct (is_space c); [exact IH | reflexivity].
Qed.

Lemma trimStart_all_space (s : list char) : all_space s = true -> trimStart s = [].
Proof.
  induction s as [|c s IH]; [reflexivity|].
  cbn [all_space forallb trimStart]. destruct (is_space c); [exact IH | discriminate].
Qed.

Lemma all_space_rev (s : list char) : all_space (rev s) = all_space s.
Proof.
  unfold all_space. induction s as [|c s IH]; [reflexivity|].
  cbn [rev forallb]. rewrite forallb_app, IH. cbn [forallb].
  rewrite andb_true_r. apply andb_comm.
Qed.

Lemma all_space_trimStart (s : list char) :
  all_space s = false -> all_space (trimStart s) = false.
Proof.
  induction s as [|c s IH]; [discriminate|].
  cbn [all_space forallb trimStart].
  destruct (is_space c) eqn:Ec; [exact IH|].
  intros _. cbn [forallb]. now rewrite Ec.
Qed.

(** Trailing white space does not show after trimming. *)
Lemma trim_app_spaces (p ws : list char) :
  all_space ws = true -> trim (p ++ ws) = trim p.
Proof.
  intros Hws. unfold trim. rewrite trimStart_app.
  destruct (all_space p) eqn:Ep.
  - rewrite (trimStart_all_space _ Hws), (trimStart_all_space _ Ep). reflexivity.
  - rewrite rev_app_distr, trimStart_app, all_space_rev, Hws. reflexivity.
Qed.

(** Leading white space does not show after trimming. *)
Lemma trim_spaces_app (ws p : list char) :
  all_space ws = true -> trim (ws ++ p) = trim p.
Proof.
  intros Hws. unfold trim. rewrite trimStart_app, Hws. reflexivity.
Qed.

Lemma trim_all_space (s : list char) : all_space s = true -> trim s = [].
Proof.
  intros H. unfold trim. rewrite (trimStart_all_space _ H). reflexivity.
Qed.

(** [rev (trimStart (rev s))], from the front. *)
Lemma trimEnd_cons (c : char) (s : list char) :
  rev (trimStart (rev (c :: s)))
  = if all_space (c :: s) then [] else c :: rev (trimStart (rev s)).
Proof.
  cbn [rev]. rewrite trimStart_app, all_space_rev.
  destruct (all_space s) eqn:Es.
  - cbn [all_space forallb trimStart]. fold (all_space s). rewrite Es, andb_true_r.
    rewrite <- all_space_rev in Es. rewrite (trimStart_all_space _ Es).
    destruct (is_space c); reflexivity.
  - cbn [all_space forallb]. fold (all_space s). rewrite Es, andb_false_r.
    rewrite rev_app_distr. reflexivity.
Qed.

(** Lines of white space leave nothing, and white space in front of the
    first line does not show. *)
Lemma record_lines_spaces (p ws : list char) :
  all_space ws = true ->
  record_lines (prepend p (LegacyGames.split_newline ws)) = record_lines [p].
Proof.
  revert p; induction ws as [|c ws IH]; intros p Hws.
  - cbn. now rewrite app_nil_r.
  - cbn [all_space forallb] in Hws. apply andb_true_iff in Hws as [Hc Hws].
    destruct (is_newline c) eqn:En.
    + cbn [LegacyGames.split_newline]. rewrite En. cbn [prepend].
      rewrite app_nil_r. unfold record_lines. cbn [map filter].
      fold (record_lines (LegacyGames.split_newline ws)).
      rewrite <- (prepend_nil (LegacyGames.split_newline ws)) by apply split_nonempty.
      rewrite (IH [] Hws). unfold record_lines. cbn [map filter].
      rewrite (trim_all_space []) by reflexivity. cbn [nonempty].
      destruct (nonempty (trim p)); reflexivity.
    + rewrite (split_prepend _ _ En), prepend_prepend by apply split_nonempty.
      rewrite (IH _ Hws). unfold record_lines. cbn [map filter].
      rewrite trim_app_spaces; [reflexivity|].
      cbn [all_space forallb]. now rewrite Hc.
Qed.

Lemma record_lines_trimStart (s : list char) :
  record_lines (LegacyGames.split_newline (trimStart s))
  = record_lines (LegacyGames.split_newline s).
Proof.
  induction s as [|c s IH]; [reflexivity|].
  cbn [trimStart]. destruct (is_space c) eqn:Ec; [|reflexivity].
  rewrite IH. destruct (is_newline c) eqn:En.
  - cbn [LegacyGames.split_newline]. rewrite En. unfold record_lines. cbn [map filter].
    rewrite (trim_all_space []) by reflexivity. reflexivity.
  - rewrite (split_prepend _ _ En).
    destruct (LegacyGames.split_newline s) as [|l ls] eqn:El.
    + exfalso. exact (split_nonempty s El).
    + cbn [prepend]. unfold record_lines. cbn [map filter].
      rewrite (trim_spaces_app [c] l); [reflexivity|].
      cbn [all_space forallb]. now rewrite Ec.
Qed.

Lemma record_lines_trimEnd (p s : list char) :
  record_lines (prepend p (LegacyGames.split_newline (rev (trimStart (rev s)))))
  = record_lines (prepend p (LegacyGames.split_newline s)).
Proof.
  revert p; induction s as [|c s IH]; intros p; [reflexivity|].
  rewrite trimEnd_cons. destruct (all_space (c :: s)) eqn:Ea.
  - rewrite (record_lines_spaces p (c :: s) Ea). cbn. now rewrite app_nil_r.
  - destruct (is_newline c) eqn:En.
    + cbn [LegacyGames.split_newline]. rewrite En. cbn [prepend].
      unfold record_lines. cbn [map filter].
      fold (record_lines (LegacyGames.split_newline (rev (trimStart (rev s))))).
      fold (record_lines (LegacyGames.split_newline s)).
      rewrite <- (prepend_nil (LegacyGames.split_newline (rev (trimStart (rev s)))))
        by apply split_nonempty.
      rewrite <- (prepend_nil (LegacyGames.split_newline s)) by apply split_nonempty.
      rewrite IH. reflexivity.
    + rewrite !(split_prepend _ _ En), !prepend_prepend by apply split_nonempty.
      apply IH.
Qed.

(** Trimming the text before cutting it changes no record line. *)
Lemma record_lines_trim (s : list char) :
  record_lines (LegacyGames.split_newline (trim s)) = record_lines (LegacyGames.split_newline s).
Proof.
  unfold trim.
  rewrite <- (prepend_nil (LegacyGames.split_newline (rev (trimStart (rev (trimStart s))))))
    by apply split_nonempty.
  rewrite record_lines_trimEnd, prepend_nil by apply split_nonempty.
  apply record_lines_trimStart.
Qed.

End SplitProofs.

Lemma utf8_flush_no_newline (d : UTF8.state) :
  indexOf_newline (T := UTF8.text) (UTF8.flush d) = None.
Proof.
  unfold UTF8.flush. destruct (UTF8.bytes_needed d =? 0)%N; [reflexivity|].
  unfold UTF8.output. cbn [UTF8.strip_bom].
  destruct (UTF8.bom_seen d); reflexivity.
Qed.

Section LegacyGamesProofs.

Context {J : Type} (JSON_parse : list N -> option J).

Lemma parse_all_returns (lines : list (list N)) (games : list J) :
  Forall (fun l => JSON_parse l = JSON_parse (trim (T := UTF8.text) l)) lines ->
  LegacyGames.parse_all JSON_parse
    (filter (fun l => nonempty (trim (T := UTF8.text) l)) lines) = Ok games
  <-> Forall2 (fun l g => JSON_parse l = Some g)
              (record_lines (T := UTF8.text) lines) games.
Proof.
  intros Hall; revert games; induction Hall as [|l lines Hl _ IH]; intros games.
  - cbn. split.
    + intros H; injection H as <-. constructor.
    + intros H; inversion H. reflexivity.
  - unfold record_lines in *. cbn [filter map].
    destruct (nonempty (trim l)); [|apply IH].
    cbn [LegacyGames.parse_all]. rewrite Hl.
    destruct (JSON_parse (trim l)) as [g|] eqn:Ep.
    + split.
      * intros H. apply bind_Ok_inv in H as (gs & Hgs & H). injection H as <-.
        constructor; [exact Ep | apply IH; exact Hgs].
      * intros H. inversion H as [|? y ? ys Hy HF]; subst.
        rewrite Ep in Hy. injection Hy as <-.
        apply IH in HF. rewrite HF. reflexivity.
    + split; [discriminate|].
      intros H. inversion H; subst. congruence.
Qed.

Lemma stream_lines_split (bytes : list Byte.byte) :
  stream_lines (T := UTF8.text) (D := UTF8.decoder) bytes
  = LegacyGames.split_newline (T := UTF8.text)
      (LegacyGames.text (D := UTF8.decoder) bytes).
Proof.
  unfold stream_lines, LegacyGames.text.
  destruct (decode_stream dinit bytes) as [d t].
  rewrite split_newline_lines_of.
  rewrite (lines_of_app_no_newline t (dflush d)) by apply utf8_flush_no_newline.
  destruct (lines_of t); reflexivity.
Qed.

(** X15. part_000 and server.js decode the same games from the same
    body, as long as no line of the body is padded with white space that
    [JSON.parse] does not take (part_000 parses the lines as they are,
    server.js trims them first): [forEachNdjson] returns on a body exactly
    when part_000 decodes it and the callback returns on each of the games
    part_000 gets, in order, and with the same final state. *)
Theorem legacy_games_same {St : Type} (onItem : J -> St -> result St)
    (chunks : list (list Byte.byte)) (st st' : St) :
  Forall (fun l => JSON_parse l = JSON_parse (trim (T := UTF8.text) l))
         (LegacyGames.split_newline (T := UTF8.text)
            (trim (T := UTF8.text)
               (LegacyGames.text (D := UTF8.decoder) (concat chunks)))) ->
  forEachNdjson (T := UTF8.text) (D := UTF8.decoder) JSON_parse onItem
    (Some (chunks, Done)) st = Ok st'
  <-> exists games,
        LegacyGames.games_of (T := UTF8.text) (D := UTF8.decoder) JSON_parse
          (concat chunks) = Ok games
        /\ run onItem games st = Ok st'.
Proof.
  intros Hpad.
  assert (Hlines : forall games,
            LegacyGames.games_of (T := UTF8.text) (D := UTF8.decoder) JSON_parse
              (concat chunks) = Ok games
            <-> Forall2 (fun l g => JSON_parse l = Some g)
                  (payload_lines (T := UTF8.text) (D := UTF8.decoder) (concat chunks))
                  games).
  { intros games. unfold LegacyGames.games_of.
    rewrite (parse_all_returns _ _ Hpad).
    rewrite record_lines_trim.
    unfold payload_lines. rewrite stream_lines_split. reflexivity. }
  rewrite forEachNdjson_lines. split.
  - intros (items & HF & H). exists items. split; [apply Hlines; exact HF | exact H].
  - intros (games & Hg & H). exists games. split; [apply Hlines; exact Hg | exact H].
Qed.

End LegacyGamesProofs.

(** ** The further properties on the sample feeds *)

Lemma stream_games_records_witness :
  exists st,
    stream_games (C := sample_coercions) parse_known
      (Some ([bytes_of analysed_line], Done)) = Ok st
    /\ aggregate (C := sample_coercions)
         (feed_records parse_known [bytes_of analysed_line]) initial = Ok st
    /\ gameCount st = 1%N.
Proof.
  eexists. split; [vm_compute; reflexivity|].
  destruct (stream_games_records (C := sample_coercions) parse_known
              [bytes_of analysed_line] _ ltac:(vm_compute; reflexivity)) as [Ha Hc].
  split; [exact Ha | rewrite Hc; vm_compute; reflexivity].
Defined.

Lemma player_profile_witness :
  aggregate (C := sample_coercions) two_games initial = Ok after_two_games
  /\ match Map_get (KStr "Anonymous") (ps after_two_games) with
     | None => sides_of "Anonymous" two_games = []
     | Some p =>
         sides_of "Anonymous" two_games <> []
         /\ username p = VStr "Anonymous"
         /\ gamesPlayed p = N.of_nat (List.length (sides_of "Anonymous" two_games))
         /\ analyzedGames p = count_sides analysed_side (sides_of "Anonymous" two_games)
         /\ N.of_nat (List.length (accuracies p))
            = count_sides rated_side (sides_of "Anonymous" two_games)
     end.
Proof.
  assert (H : aggregate (C := sample_coercions) two_games initial = Ok after_two_games)
    by (vm_compute; reflexivity).
  split; [exact H|].
  apply (player_profile (C := sample_coercions) "Anonymous" two_games after_two_games H).
Defined.

Definition after_team_comes_later : state :=
  Eval vm_compute in
    match aggregate (C := sample_coercions) team_comes_later initial with
    | Ok st => st
    | Throw _ => initial
    end.

Lemma team_settled_witness :
  aggregate (C := sample_coercions) team_comes_later initial = Ok after_team_comes_later
  /\ team_of "bob" (ps after_team_comes_later) = Some (VStr "team-b").
Proof.
  assert (H : aggregate (C := sample_coercions) team_comes_later initial
              = Ok after_team_comes_later) by (vm_compute; reflexivity).
  split; [exact H|].
  rewrite (team_settled (C := sample_coercions) "bob" team_comes_later
             after_team_comes_later H).
  reflexivity.
Defined.

Lemma counters_stay_numbers_witness :
  aggregate (C := sample_coercions) two_games initial = Ok after_two_games
  /\ Forall counters_not_NaN (Map_values (ps after_two_games)).
Proof.
  assert (H : aggregate (C := sample_coercions) two_games initial = Ok after_two_games)
    by (vm_compute; reflexivity).
  split; [exact H|].
  apply (counters_stay_numbers (C := sample_coercions) two_games after_two_games);
    [|exact H].
  repeat constructor;
    intros field x [<-|[<-|[<-|[]]]] Hx; vm_compute in Hx; injection Hx as <-; reflexivity.
Defined.

Lemma analysed_sides_bound_witness :
  aggregate (C := sample_coercions) two_games initial = Ok after_two_games
  /\ (sum_analyzedGames (ps after_two_games)
      <= lichessCount after_two_games + fullyAnalyzedCount after_two_games)%N.
Proof.
  assert (H : aggregate (C := sample_coercions) two_games initial = Ok after_two_games)
    by (vm_compute; reflexivity).
  split; [exact H|].
  apply (analysed_sides_bound (C := sample_coercions) two_games after_two_games H).
Defined.

Lemma legacy_report_agrees_witness :
  exists r,
    LegacyReport.report_of two_games = Ok r
    /\ aggregate (C := sample_coercions) two_games initial = Ok after_two_games
    /\ LegacyReport.gameCount r = gameCount after_two_games
    /\ LegacyReport.analyzedByLichess r = lichessCount after_two_games
    /\ LegacyReport.unanalyzedGames r = unanalyzedCount after_two_games
    /\ (fullyAnalyzedCount after_two_games <= LegacyReport.totalAnalyzed r)%N
    /\ (shortCount after_two_games <= LegacyReport.skippedShortGames r)%N.
Proof.
  assert (H : aggregate (C := sample_coercions) two_games initial = Ok after_two_games)
    by (vm_compute; reflexivity).
  eexists. split; [vm_compute; reflexivity|]. split; [exact H|].
  destruct (legacy_report_agrees (C := sample_coercions) two_games _ after_two_games
              ltac:(vm_compute; reflexivity) H)
    as (Hg & Hl & Hu & _ & Hf & Hs & _).
  auto.
Defined.

Lemma legacy_profile_witness :
  exists ps,
    Legacy.aggregate (C := sample_coercions) team_comes_later 0 [] = Ok ps
    /\ exists p,
         Legacy.Map_get (KStr "bob") ps = Some p
         /\ Legacy.team p = VNull /\ Legacy.gamesPlayed p = 2%N.
Proof.
  eexists. split; [vm_compute; reflexivity|].
  pose proof (legacy_profile (C := sample_coercions) "bob" team_comes_later _
                ltac:(vm_compute; reflexivity)) as H.
  match type of H with
  | match ?o with _ => _ end =>
      destruct o as [p|] eqn:Ep; [|vm_compute in Ep; discriminate]
  end.
  exists p. split; [reflexivity|].
  destruct H as (first & rest & Hs & _ & Ht & Hg & _).
  vm_compute in Hs. injection Hs as <- <-.
  split; [exact Ht | exact Hg].
Defined.

Definition after_analysed_record : state :=
  Eval vm_compute in
    match aggregate (C := sample_coercions) [analysed_record] initial with
    | Ok st => st
    | Throw _ => initial
    end.

Lemma legacy_games_same_witness :
  forEachNdjson (T := UTF8.text) (D := UTF8.decoder) parse_known
    (onGame (C := sample_coercions)) (Some ([bytes_of analysed_line], Done)) initial
  = Ok after_analysed_record
  <-> exists games,
        LegacyGames.games_of (T := UTF8.text) (D := UTF8.decoder) parse_known
          (concat [bytes_of analysed_line]) = Ok games
        /\ run (onGame (C := sample_coercions)) games initial
           = Ok after_analysed_record.
Proof.
  apply (legacy_games_same parse_known (onGame (C := sample_coercions))
           [bytes_of analysed_line]).
  vm_compute. repeat constructor.
Defined.

(** ** The superlatives (src/server.js, lines 127-144) *)

(** [a - b] *)
Definition js_sub : number -> number -> number := SFsub prec emax.

(** [x > 0]: what [sort] looks at in the number its comparator gives. *)
Definition positive_number (x : number) : bool :=
  match x with
  | S754_finite false _ _ | S754_infinity false => true
  | _ => false
  end.

(** The fields the superlatives sort on. *)
Inductive field : Type := Inaccuracies | Mistakes | Blunders | Accuracy.

(** [p[k]] *)
Definition field_of (k : field) (p : metric) : number :=
  match k with
  | Inaccuracies => inaccuracies (base p)
  | Mistakes => mistakes (base p)
  | Blunders => blunders (base p)
  | Accuracy => accuracy p
  end.

(** [[...arr].sort(comparefn)]. The sort of the language is stable, and
    for a comparator that orders the elements consistently its result is
    the one arrangement in that order that keeps equal elements as they
    were: the one insertion builds. An element goes in front of another
    when the comparator gives a number above zero for the other against
    it; NaN counts as zero. *)
Section Sort.

Context {A : Type} (comparefn : A -> A -> number).

Fixpoint insert (x : A) (sorted : list A) : list A :=
  match sorted with
  | [] => [x]
  | y :: rest =>
      if positive_number (comparefn y x) then x :: sorted
      else y :: insert x rest
  end.

Definition sort (arr : list A) : list A :=
  fold_left (fun sorted x => insert x sorted) arr [].

End Sort.

(** [(a, b) => b[k] - a[k]] *)
Definition descending (k : field) (a b : metric) : number :=
  js_sub (field_of k b) (field_of k a).

(** [(a, b) => { const d = a[k] - b[k];
                 return d !== 0 ? d : (k2 ? b[k2] - a[k2] : 0); }] *)
Definition ascending (k : field) (k2 : option field) (a b : metric) : number :=
  let d := js_sub (field_of k a) (field_of k b) in
  if negb (is_zero d) then d
  else match k2 with
       | Some k2 => js_sub (field_of k2 b) (field_of k2 a)
       | None => zero
       end.

Definition sd (arr : list metric) (k : field) : list metric :=
  sort (descending k) arr.

Definition sa (arr : list metric) (k : field) (k2 : option field) : list metric :=
  sort (ascending k k2) arr.

(** [arr[0].username], [arr[0][k]]: a [TypeError] on an empty array. *)
Definition at_0 (arr : list metric) : result metric :=
  match arr with
  | [] => Throw (TypeError "Cannot read properties of undefined")
  | p :: _ => Ok p
  end.

(** [{ player: ..., count: ... }], [{ player: ..., accuracy: ... }] *)
Record superlative : Type := mkSuperlative {
  s_player : value;
  s_count : number
}.

Definition most (pool : list metric) (k : field) : result superlative :=
  p <- at_0 (sd pool k) ;;
  c <- at_0 (sd pool k) ;;
  Ok (mkSuperlative (username (base p)) (field_of k c)).

Definition least (pool : list metric) (k : field) (k2 : option field) : result superlative :=
  p <- at_0 (sa pool k k2) ;;
  c <- at_0 (sa pool k k2) ;;
  Ok (mkSuperlative (username (base p)) (field_of k c)).

(** The [metrics] object of the reply (lines 135-144). *)
Record superlatives : Type := mkSuperlatives {
  mostInaccuracies : superlative;
  leastInaccuracies : superlative;
  mostMistakes : superlative;
  leastMistakes : superlative;
  mostBlunders : superlative;
  leastBlunders : superlative;
  highestAccuracy : superlative;
  lowestAccuracy : superlative
}.

Definition superlatives_of (pool : list metric) : result superlatives :=
  a <- most pool Inaccuracies ;;
  b <- least pool Inaccuracies (Some Accuracy) ;;
  c <- most pool Mistakes ;;
  d <- least pool Mistakes (Some Accuracy) ;;
  e <- most pool Blunders ;;
  f <- least pool Blunders (Some Accuracy) ;;
  g <- most pool Accuracy ;;
  h <- least pool Accuracy None ;;
  Ok (mkSuperlatives a b c d e f g h).

(** *** The sign of a difference of binary64 numbers *)

Section DifferenceSign.

Local Open Scope Z_scope.

Lemma digits2_pos_bounds (m : positive) :
  2 ^ (Zpos (digits2_pos m) - 1) <= Zpos m < 2 ^ Zpos (digits2_pos m).
Proof.
  induction m as [m IH|m IH|]; cbn [digits2_pos].
  - rewrite Pos2Z.inj_succ. change (Zpos m~1) with (2 * Zpos m + 1).
    replace (Z.succ (Zpos (digits2_pos m)) - 1) with (Z.succ (Zpos (digits2_pos m) - 1)) by lia.
    rewrite !Z.pow_succ_r by lia.
    destruct IH as [IH1 IH2]. revert IH1 IH2.
    generalize (2 ^ (Zpos (digits2_pos m) - 1)) (2 ^ Zpos (digits2_pos m)). lia.
  - rewrite Pos2Z.inj_succ. change (Zpos m~0) with (2 * Zpos m).
    replace (Z.succ (Zpos (digits2_pos m)) - 1) with (Z.succ (Zpos (digits2_pos m) - 1)) by lia.
    rewrite !Z.pow_succ_r by lia.
    destruct IH as [IH1 IH2]. revert IH1 IH2.
    generalize (2 ^ (Zpos (digits2_pos m) - 1)) (2 ^ Zpos (digits2_pos m)). lia.
  - simpl. lia.
Qed.

Lemma shr_1_half (mrs : shr_record) :
  0 <= shr_m mrs -> shr_m (shr_1 mrs) = shr_m mrs / 2.
Proof.
  destruct mrs as [m r s0]. cbn [shr_m shr_1].
  destruct m as [|p|p]; intros H; [reflexivity | | lia].
  destruct p as [p|p|]; cbn [shr_m].
  - change (Zpos p~1) with (2 * Zpos p + 1). apply (Z.div_unique _ _ _ 1); lia.
  - change (Zpos p~0) with (2 * Zpos p). apply (Z.div_unique _ _ _ 0); lia.
  - reflexivity.
Qed.

Lemma iter_shr_1 (p : positive) (mrs : shr_record) :
  0 <= shr_m mrs ->
  shr_m (iter_pos shr_1 p mrs) = shr_m mrs / 2 ^ Zpos p.
Proof.
  revert mrs; induction p as [p IH|p IH|]; intros mrs H; cbn [iter_pos].
  - assert (H1 : 0 <= shr_m (shr_1 mrs)) by (apply shr_1_nonneg; exact H).
    assert (H2 : 0 <= shr_m (iter_pos shr_1 p (shr_1 mrs))).
    { apply (iter_pos_invariant (fun r => 0 <= shr_m r)); auto using shr_1_nonneg. }
    rewrite (IH _ H2), (IH _ H1), shr_1_half by exact H.
    rewrite !Z.div_div by lia.
    f_equal. change (Zpos p~1) with (2 * Zpos p + 1).
    replace (2 * Zpos p + 1) with (1 + Zpos p + Zpos p) by lia.
    rewrite !Z.pow_add_r by lia. lia.
  - assert (H2 : 0 <= shr_m (iter_pos shr_1 p mrs)).
    { apply (iter_pos_invariant (fun r => 0 <= shr_m r)); auto using shr_1_nonneg. }
    rewrite (IH _ H2), (IH _ H).
    rewrite !Z.div_div by lia.
    f_equal. change (Zpos p~0) with (2 * Zpos p).
    replace (2 * Zpos p) with (Zpos p + Zpos p) by lia.
    rewrite !Z.pow_add_r by lia. lia.
  - rewrite shr_1_half by exact H. reflexivity.
Qed.

(** Shifting to the format keeps a positive mantissa positive, when the
    exponent is not below the least one. *)
Lemma shr_fexp_pos (m e : Z) (l : location) :
  0 < m -> -1074 <= e ->
  0 < shr_m (fst (shr_fexp prec emax m e l)) /\ -1074 <= snd (shr_fexp prec emax m e l).
Proof.
  intros Hm He. unfold shr_fexp, shr.
  assert (Hrec : shr_m (shr_record_of_loc m l) = m)
    by (destruct l as [|[ | | ]]; reflexivity).
  destruct (fexp prec emax (Zdigits2 m + e) - e) as [|n|n] eqn:En;
    cbn [fst snd]; rewrite ?Hrec; try (split; lia).
  destruct m as [|p|p]; try lia. cbn [Zdigits2] in En.
  pose proof (digits2_pos_bounds p) as [Hlo _].
  unfold fexp, SpecFloat.emin, prec, emax in En.
  rewrite iter_shr_1 by (rewrite Hrec; lia). rewrite Hrec. split; [|lia].
  apply Z.div_str_pos. split; [apply Z.pow_pos_nonneg; lia|].
  apply Z.le_trans with (2 ^ (Zpos (digits2_pos p) - 1)); [|exact Hlo].
  apply Z.pow_le_mono_r; lia.
Qed.

Definition sign_is (s : bool) (x : number) : Prop :=
  match x with
  | S754_finite s' _ _ | S754_infinity s' => s' = s
  | _ => False
  end.

Lemma binary_round_aux_sign (sx : bool) (mx ex : Z) (lx : location) :
  0 < mx -> -1074 <= ex -> sign_is sx (binary_round_aux prec emax sx mx ex lx).
Proof.
  intros Hm He. unfold binary_round_aux.
  pose proof (shr_fexp_pos mx ex lx Hm He) as [H1 H1e].
  destruct (shr_fexp prec emax mx ex lx) as [mrs' e']. cbn [fst snd] in H1, H1e.
  assert (Hr : 0 < round_nearest_even (shr_m mrs') (loc_of_shr_record mrs')).
  { unfold round_nearest_even.
    destruct (loc_of_shr_record mrs') as [|[ | | ]]; try destruct (Z.even _); lia. }
  pose proof (shr_fexp_pos _ e' loc_Exact Hr H1e) as [H2 _].
  destruct (shr_fexp prec emax _ e' loc_Exact) as [mrs'' e'']. cbn [fst] in H2.
  destruct (shr_m mrs'') as [|p|p]; try lia.
  destruct (e'' <=? emax - prec); reflexivity.
Qed.

Lemma binary_round_sign (sx : bool) (mx : positive) (ex : Z) :
  -1074 <= ex -> sign_is sx (binary_round prec emax sx mx ex).
Proof.
  intros He. unfold binary_round.
  destruct (shl_align mx ex (fexp prec emax (Zpos (digits2_pos mx) + ex))) as [mz ez] eqn:Ea.
  apply binary_round_aux_sign; [lia|].
  unfold shl_align in Ea.
  destruct (fexp prec emax (Zpos (digits2_pos mx) + ex) - ex) eqn:Ed;
    injection Ea as <- <-; try lia.
  unfold fexp, SpecFloat.emin, prec, emax. lia.
Qed.

Lemma binary_normalize_sign (m e : Z) :
  -1074 <= e ->
  match m with
  | Z0 => binary_normalize prec emax m e false = S754_zero false
  | Zpos _ => sign_is false (binary_normalize prec emax m e false)
  | Zneg _ => sign_is true (binary_normalize prec emax m e false)
  end.
Proof.
  intros He. destruct m; cbn [binary_normalize];
    [reflexivity | apply binary_round_sign; exact He | apply binary_round_sign; exact He].
Qed.

Lemma iter_xO (m d : positive) : Zpos (Pos.iter xO m d) = Zpos m * 2 ^ Zpos d.
Proof.
  induction d as [|d IH] using Pos.peano_ind.
  - rewrite Z.pow_1_r. change (Zpos (Pos.iter xO m 1)) with (2 * Zpos m). lia.
  - rewrite Pos.iter_succ. change (Zpos (Pos.iter xO m d)~0) with (2 * Zpos (Pos.iter xO m d)).
    rewrite IH, Pos2Z.inj_succ, Z.pow_succ_r by lia. lia.
Qed.

Lemma shl_align_fst (mx : positive) (ex ez : Z) :
  ez <= ex -> Zpos (fst (shl_align mx ex ez)) = Zpos mx * 2 ^ (ex - ez).
Proof.
  intros H. unfold shl_align.
  destruct (ez - ex) as [|d|d] eqn:Ed; cbn [fst]; try lia.
  - replace (ex - ez) with 0 by lia. lia.
  - rewrite iter_xO. f_equal. f_equal. lia.
Qed.

(** What validity says of a finite number. *)
Lemma bounded_inv (m : positive) (e : Z) :
  bounded prec emax m e = true ->
  -1074 <= e /\ Zpos (digits2_pos m) <= 53
  /\ (e = -1074 \/ Zpos (digits2_pos m) = 53).
Proof.
  unfold bounded, canonical_mantissa, fexp, SpecFloat.emin, prec, emax.
  intros H. apply andb_true_iff in H as [H _]. apply Z.eqb_eq in H. lia.
Qed.

(** Of two valid positive numbers, the one with the smaller exponent is
    the smaller. *)
Lemma bounded_exponent_lt (mx my : positive) (ex ey : Z) :
  bounded prec emax mx ex = true -> bounded prec emax my ey = true ->
  ex < ey -> Zpos mx < Zpos my * 2 ^ (ey - ex).
Proof.
  intros Hx Hy Hlt.
  apply bounded_inv in Hx as (Hex & Hdx & _).
  apply bounded_inv in Hy as (Hey & _ & Hdy).
  destruct Hdy as [->|Hdy]; [lia|].
  pose proof (digits2_pos_bounds mx) as [_ Hmx].
  pose proof (digits2_pos_bounds my) as [Hmy _]. rewrite Hdy in Hmy.
  assert (H1 : 2 ^ Zpos (digits2_pos mx) <= 2 ^ 53) by (apply Z.pow_le_mono_r; lia).
  assert (H2 : 2 ^ 1 <= 2 ^ (ey - ex)) by (apply Z.pow_le_mono_r; lia).
  change (2 ^ 1) with 2 in H2. change (2 ^ (53 - 1)) with 4503599627370496 in Hmy.
  change (2 ^ 53) with 9007199254740992 in H1.
  nia.
Qed.

(** The difference of two valid finite numbers against their comparison. *)
Lemma sub_finite_compare (sx sy : bool) (mx my : positive) (ex ey : Z) :
  bounded prec emax mx ex = true -> bounded prec emax my ey = true ->
  match SFcompare (S754_finite sx mx ex) (S754_finite sy my ey) with
  | Some Gt => sign_is false (js_sub (S754_finite sx mx ex) (S754_finite sy my ey))
  | Some Lt => sign_is true (js_sub (S754_finite sx mx ex) (S754_finite sy my ey))
  | Some Eq => js_sub (S754_finite sx mx ex) (S754_finite sy my ey) = S754_zero false
  | None => False
  end.
Proof.
  intros Vx Vy. unfold js_sub. cbn [SFsub SFcompare].
  pose proof (bounded_inv _ _ Vx) as (Hex & _ & _).
  pose proof (bounded_inv _ _ Vy) as (Hey & _ & _).
  assert (Hez : -1074 <= Z.min ex ey) by lia.
  pose proof (shl_align_fst mx ex (Z.min ex ey) ltac:(lia)) as Hx.
  pose proof (shl_align_fst my ey (Z.min ex ey) ltac:(lia)) as Hy.
  set (X := Zpos (fst (shl_align mx ex (Z.min ex ey)))) in *.
  set (Y := Zpos (fst (shl_align my ey (Z.min ex ey)))) in *.
  assert (HX : 0 < X) by (subst X; lia).
  assert (HY : 0 < Y) by (subst Y; lia).
  assert (Hcmp : (ex < ey -> X < Y) /\ (ey < ex -> Y < X)
                 /\ (ex = ey -> X = Zpos mx /\ Y = Zpos my)).
  { split; [|split].
    - intros Hlt. rewrite Hx, Hy. rewrite Z.min_l by lia.
      replace (ex - ex) with 0 by lia. rewrite Z.pow_0_r, Z.mul_1_r.
      apply bounded_exponent_lt; assumption.
    - intros Hlt. rewrite Hx, Hy. rewrite Z.min_r by lia.
      replace (ey - ey) with 0 by lia. rewrite Z.pow_0_r, Z.mul_1_r.
      apply bounded_exponent_lt; assumption.
    - intros ->. rewrite Hx, Hy, Z.min_id, Z.sub_diag. cbn. lia. }
  destruct Hcmp as (Hlt & Hgt & Heq).
  pose proof (binary_normalize_sign (cond_Zopp sx X - cond_Zopp sy Y) (Z.min ex ey) Hez) as Hs.
  change (Pos.compare_cont Eq mx my) with (Pos.compare mx my).
  destruct sx, sy; cbn [cond_Zopp] in *;
    try (destruct (- X - Y) as [|p|p] eqn:ED; [lia | lia | exact Hs]);
    try (destruct (X - - Y) as [|p|p] eqn:ED; [lia | exact Hs | lia]);
    (destruct (Z.compare_spec ex ey) as [E|E|E];
     [ destruct (Heq E) as [EX EY]; rewrite EX, EY in *;
       destruct (Pos.compare_spec mx my) as [F|F|F]; cbn [CompOpp]
     | specialize (Hlt E) | specialize (Hgt E) ];
     match type of Hs with
     | match ?D with _ => _ end => destruct D as [|p|p] eqn:ED
     end; first [exact Hs | lia]).
Qed.

(** The sign of the difference of two valid numbers is their comparison. *)
Lemma js_sub_positive (x y : number) :
  valid_binary prec emax x = true -> valid_binary prec emax y = true ->
  is_nan x = false -> is_nan y = false ->
  positive_number (js_sub x y) = true <-> SFcompare x y = Some Gt.
Proof.
  intros Vx Vy Nx Ny.
  destruct x as [sx|sx| |sx mx ex]; try discriminate;
    destruct y as [sy|sy| |sy my ey]; try discriminate;
    try (unfold js_sub; cbn [SFsub SFcompare positive_number];
         first [ destruct sx; destruct sy; cbn; split; congruence
               | destruct sx; cbn; split; congruence
               | destruct sy; cbn; split; congruence ]).
  pose proof (sub_finite_compare sx sy mx my ex ey Vx Vy) as H.
  destruct (SFcompare (S754_finite sx mx ex) (S754_finite sy my ey)) as [[ | | ]|];
    try contradiction.
  - rewrite H. cbn. split; discriminate.
  - destruct (js_sub _ _) as [s|s| |s m e]; cbn in H; try contradiction; subst s;
      cbn; split; discriminate.
  - destruct (js_sub _ _) as [s|s| |s m e]; cbn in H; try contradiction; subst s;
      cbn; split; reflexivity.
Qed.

(** The difference of two valid finite numbers is a zero exactly when they
    compare equal. *)
Lemma js_sub_zero (x y : number) :
  valid_binary prec emax x = true -> valid_binary prec emax y = true ->
  is_finite x = true -> is_finite y = true ->
  is_zero (js_sub x y) = true <-> SFcompare x y = Some Eq.
Proof.
  intros Vx Vy Fx Fy.
  destruct x as [sx|sx| |sx mx ex]; try discriminate;
    destruct y as [sy|sy| |sy my ey]; try discriminate;
    try (unfold js_sub; cbn [SFsub SFcompare is_zero];
         first [ destruct sx; destruct sy; cbn; split; congruence
               | destruct sx; cbn; split; congruence
               | destruct sy; cbn; split; congruence ]).
  pose proof (sub_finite_compare sx sy mx my ex ey Vx Vy) as H.
  destruct (SFcompare (S754_finite sx mx ex) (S754_finite sy my ey)) as [[ | | ]|];
    try contradiction.
  - rewrite H. cbn. split; reflexivity.
  - destruct (js_sub _ _) as [s|s| |s m e]; cbn in H; try contradiction; subst s;
      cbn; split; discriminate.
  - destruct (js_sub _ _) as [s|s| |s m e]; cbn in H; try contradiction; subst s;
      cbn; split; discriminate.
Qed.

End DifferenceSign.

(** *** The order of binary64 numbers *)

(** The place of a number on the line: class, then exponent, then
    mantissa, as [SFcompare] reads them. *)
Definition rank (x : number) : Z * Z * Z :=
  match x with
  | S754_infinity true => (-2, 0, 0)%Z
  | S754_finite true m e => (-1, - e, - Zpos m)%Z
  | S754_zero _ | S754_nan => (0, 0, 0)%Z
  | S754_finite false m e => (1, e, Zpos m)%Z
  | S754_infinity false => (2, 0, 0)%Z
  end.

Definition lex_lt (a b : Z * Z * Z) : Prop :=
  (fst (fst a) < fst (fst b)
   \/ (fst (fst a) = fst (fst b)
       /\ (snd (fst a) < snd (fst b)
           \/ (snd (fst a) = snd (fst b) /\ snd a < snd b))))%Z.

Lemma SFcompare_rank (x y : number) :
  is_nan x = false -> is_nan y = false ->
  match SFcompare x y with
  | Some Gt => lex_lt (rank y) (rank x)
  | Some Lt => lex_lt (rank x) (rank y)
  | Some Eq => rank x = rank y
  | None => False
  end.
Proof.
  intros Nx Ny.
  destruct x as [sx|sx| |sx mx ex]; try discriminate;
    destruct y as [sy|sy| |sy my ey]; try discriminate;
    cbn [SFcompare];
    try (destruct sx; destruct sy; cbn; unfold lex_lt; cbn; first [reflexivity | lia]);
    try (destruct sx; cbn; unfold lex_lt; cbn; first [reflexivity | lia]);
    try (destruct sy; cbn; unfold lex_lt; cbn; first [reflexivity | lia]).
  change (Pos.compare_cont Eq mx my) with (Pos.compare mx my).
  destruct sx, sy; cbn [rank]; unfold lex_lt; cbn [fst snd]; try lia;
    destruct (Z.compare_spec ex ey) as [E|E|E]; try lia;
    destruct (Pos.compare_spec mx my) as [F|F|F]; cbn [CompOpp];
    first [subst; reflexivity | lia].
Qed.

Definition eq3 (a b : Z * Z * Z) : Prop :=
  fst (fst a) = fst (fst b) /\ snd (fst a) = snd (fst b) /\ snd a = snd b.

Lemma SFltb_rank (x y : number) :
  is_nan x = false -> is_nan y = false ->
  SFltb x y = true <-> lex_lt (rank x) (rank y).
Proof.
  intros Nx Ny. pose proof (SFcompare_rank x y Nx Ny) as H. unfold SFltb.
  destruct (SFcompare x y) as [[ | | ]|]; try contradiction;
    [rewrite H | | ]; unfold lex_lt in *; split; intros H0;
    first [reflexivity | discriminate | lia].
Qed.

Lemma SFleb_rank (x y : number) :
  is_nan x = false -> is_nan y = false ->
  SFleb x y = true <-> ~ lex_lt (rank y) (rank x).
Proof.
  intros Nx Ny. pose proof (SFcompare_rank x y Nx Ny) as H. unfold SFleb.
  destruct (SFcompare x y) as [[ | | ]|]; try contradiction;
    [rewrite H | | ]; unfold lex_lt in *; split; intros H0;
    first [reflexivity | discriminate | lia].
Qed.

Lemma SFeqb_rank (x y : number) :
  is_nan x = false -> is_nan y = false ->
  SFeqb x y = true <-> eq3 (rank x) (rank y).
Proof.
  intros Nx Ny. pose proof (SFcompare_rank x y Nx Ny) as H. unfold SFeqb, eq3.
  destruct (SFcompare x y) as [[ | | ]|]; try contradiction;
    [rewrite H | | ]; unfold lex_lt in *; split; intros H0;
    first [reflexivity | discriminate | lia | auto].
Qed.

Lemma SFcompare_Gt_rank (x y : number) :
  is_nan x = false -> is_nan y = false ->
  SFcompare x y = Some Gt <-> lex_lt (rank y) (rank x).
Proof.
  intros Nx Ny. pose proof (SFcompare_rank x y Nx Ny) as H.
  destruct (SFcompare x y) as [[ | | ]|]; try contradiction;
    [rewrite H | | ]; unfold lex_lt in *; split; intros H0;
    first [reflexivity | discriminate | lia].
Qed.

Lemma SFcompare_Eq_rank (x y : number) :
  is_nan x = false -> is_nan y = false ->
  SFcompare x y = Some Eq <-> eq3 (rank x) (rank y).
Proof.
  intros Nx Ny. pose proof (SFcompare_rank x y Nx Ny) as H. unfold eq3.
  destruct (SFcompare x y) as [[ | | ]|]; try contradiction;
    [rewrite H | | ]; unfold lex_lt in *; split; intros H0;
    first [reflexivity | discriminate | lia | auto].
Qed.


(** *** The head of a sorted copy *)

Section SortProofs.

Context {A : Type} (comparefn : A -> A -> number).

(** [x] is put in front of [y]. *)
Definition before (x y : A) : bool := positive_number (comparefn y x).

Lemma sort_snoc (l : list A) (x : A) :
  sort comparefn (l ++ [x]) = insert comparefn x (sort comparefn l).
Proof. unfold sort. rewrite fold_left_app. reflexivity. Qed.

Lemma insert_In (x y : A) (sorted : list A) :
  In y (insert comparefn x sorted) <-> y = x \/ In y sorted.
Proof.
  induction sorted as [|z rest IH]; cbn [insert].
  - cbn. intuition.
  - destruct (positive_number (comparefn z x)); cbn [In]; [intuition|].
    rewrite IH. intuition.
Qed.

Lemma sort_In (y : A) (l : list A) : In y (sort comparefn l) <-> In y l.
Proof.
  induction l as [|x l IH] using rev_ind; [reflexivity|].
  rewrite sort_snoc, insert_In, in_app_iff, IH. cbn. intuition.
Qed.

Lemma sort_nonempty (l : list A) : l <> [] -> sort comparefn l <> [].
Proof.
  destruct l as [|x l]; [contradiction|]. intros _ E.
  assert (H : In x (sort comparefn (x :: l))) by (apply sort_In; now left).
  rewrite E in H. destruct H.
Qed.

Variable P : A -> Prop.
Hypothesis asym : forall x y, P x -> P y -> before x y = true -> before y x = false.
Hypothesis cotrans : forall x y z, P x -> P y -> P z ->
  before x y = true -> before x z = true \/ before z y = true.

(** The head of the sorted copy: the first element that no other one goes
    in front of. *)
Lemma sort_head (l : list A) :
  Forall P l -> l <> [] ->
  exists l1 m l2 rest,
    l = l1 ++ m :: l2 /\ sort comparefn l = m :: rest
    /\ (forall x, In x l1 -> before m x = true)
    /\ (forall x, In x l2 -> before x m = false).
Proof.
  induction l as [|x l IH] using rev_ind; [contradiction|].
  intros Hall _. apply Forall_app in Hall as [Hall Hx].
  apply Forall_inv in Hx. rewrite sort_snoc.
  destruct l as [|x0 l0].
  - exists [], x, [], []. cbn. repeat split; intros y [].
  - destruct (IH Hall ltac:(discriminate)) as (l1 & m & l2 & rest & El & Es & H1 & H2).
    rewrite Es. cbn [insert]. fold (before x m).
    assert (Pm : P m).
    { rewrite El in Hall. apply Forall_app in Hall as [_ Hm]. now apply Forall_inv in Hm. }
    assert (P1 : forall y, In y l1 -> P y).
    { intros y Hy. rewrite El in Hall. apply Forall_app in Hall as [Hl _].
      rewrite Forall_forall in Hl. auto. }
    assert (P2 : forall y, In y l2 -> P y).
    { intros y Hy. rewrite El in Hall. apply Forall_app in Hall as [_ Hl].
      apply Forall_inv_tail in Hl. rewrite Forall_forall in Hl. auto. }
    destruct (before x m) eqn:Eb.
    + exists (x0 :: l0), x, [], (m :: rest). rewrite El.
      split; [reflexivity|]. split; [reflexivity|]. split; [|intros y []].
      intros y Hy. apply in_app_iff in Hy as [Hy|[<-|Hy]].
      * destruct (cotrans x m y Hx Pm (P1 y Hy) Eb) as [H|H]; [exact H|].
        rewrite (asym _ _ Pm (P1 y Hy) (H1 y Hy)) in H. discriminate.
      * exact Eb.
      * destruct (cotrans x m y Hx Pm (P2 y Hy) Eb) as [H|H]; [exact H|].
        rewrite (H2 y Hy) in H. discriminate.
    + exists l1, m, (l2 ++ [x]), (insert comparefn x rest). rewrite El.
      split; [now rewrite <- app_assoc|]. split; [reflexivity|]. split; [exact H1|].
      intros y Hy. apply in_app_iff in Hy as [Hy|[<-|[]]]; auto.
Qed.

End SortProofs.

(** A key in two parts, read in order. *)
Definition lt6 (a b : (Z * Z * Z) * (Z * Z * Z)) : Prop :=
  lex_lt (fst a) (fst b) \/ (eq3 (fst a) (fst b) /\ lex_lt (snd a) (snd b)).

Definition opposite (a : Z * Z * Z) : Z * Z * Z :=
  (- fst (fst a), - snd (fst a), - snd a)%Z.

Section KeyedSort.

Context {A : Type} (comparefn : A -> A -> number).
Variable P : A -> Prop.
Variable K : A -> (Z * Z * Z) * (Z * Z * Z).
Hypothesis before_K : forall x y, P x -> P y ->
  (before comparefn x y = true <-> lt6 (K x) (K y)).

Lemma keyed_asym (x y : A) :
  P x -> P y -> before comparefn x y = true -> before comparefn y x = false.
Proof.
  intros Px Py H. apply (before_K x y Px Py) in H.
  destruct (before comparefn y x) eqn:E; [|reflexivity].
  apply (before_K y x Py Px) in E. exfalso.
  destruct (K x) as [[[a1 a2] a3] [[a4 a5] a6]], (K y) as [[[b1 b2] b3] [[b4 b5] b6]].
  unfold lt6, lex_lt, eq3 in *. cbn [fst snd] in *. lia.
Qed.

Lemma keyed_cotrans (x y z : A) :
  P x -> P y -> P z -> before comparefn x y = true ->
  before comparefn x z = true \/ before comparefn z y = true.
Proof.
  intros Px Py Pz H. apply (before_K x y Px Py) in H.
  rewrite (before_K x z Px Pz), (before_K z y Pz Py).
  destruct (K x) as [[[a1 a2] a3] [[a4 a5] a6]], (K y) as [[[b1 b2] b3] [[b4 b5] b6]],
           (K z) as [[[c1 c2] c3] [[c4 c5] c6]].
  unfold lt6, lex_lt, eq3 in *. cbn [fst snd] in *. lia.
Qed.

(** The head of the sorted copy is the first element with the least key. *)
Lemma keyed_sort_head (l : list A) :
  Forall P l -> l <> [] ->
  exists l1 m l2 rest,
    l = l1 ++ m :: l2 /\ sort comparefn l = m :: rest
    /\ (forall x, In x l1 -> lt6 (K m) (K x))
    /\ (forall x, In x l2 -> ~ lt6 (K x) (K m)).
Proof.
  intros Hall Hne.
  destruct (sort_head comparefn P keyed_asym keyed_cotrans l Hall Hne)
    as (l1 & m & l2 & rest & El & Es & H1 & H2).
  assert (Pm : P m).
  { rewrite El in Hall. apply Forall_app in Hall as [_ Hm]. now apply Forall_inv in Hm. }
  rewrite Forall_forall in Hall.
  exists l1, m, l2, rest. split; [exact El|]. split; [exact Es|]. split.
  - intros x Hx. apply before_K; [exact Pm | | auto].
    apply Hall. rewrite El. apply in_app_iff. now left.
  - intros x Hx Hlt. apply before_K in Hlt; [| |exact Pm].
    + rewrite (H2 x Hx) in Hlt. discriminate.
    + apply Hall. rewrite El. apply in_app_iff. right. now right.
Qed.

End KeyedSort.

(** *** The eight superlatives *)

(** A binary64 number that is not NaN, and one that is finite. *)
Definition real_number (x : number) : Prop :=
  valid_binary prec emax x = true /\ is_nan x = false.

Definition finite_number (x : number) : Prop :=
  valid_binary prec emax x = true /\ is_finite x = true.

Lemma finite_number_real (x : number) : finite_number x -> real_number x.
Proof. intros [V F]. split; [exact V|]. destruct x; try discriminate; reflexivity. Qed.

Definition descending_key (k : field) (p : metric) : (Z * Z * Z) * (Z * Z * Z) :=
  (opposite (rank (field_of k p)), (0, 0, 0)%Z).

Definition ascending_key (k : field) (k2 : option field) (p : metric)
    : (Z * Z * Z) * (Z * Z * Z) :=
  (rank (field_of k p),
   match k2 with
   | Some k2 => opposite (rank (field_of k2 p))
   | None => (0, 0, 0)%Z
   end).

Lemma before_descending (k : field) (x y : metric) :
  real_number (field_of k x) -> real_number (field_of k y) ->
  before (descending k) x y = true <-> lt6 (descending_key k x) (descending_key k y).
Proof.
  intros [Vx Nx] [Vy Ny]. unfold before, descending.
  rewrite (js_sub_positive _ _ Vx Vy Nx Ny), (SFcompare_Gt_rank _ _ Nx Ny).
  unfold descending_key, lt6, lex_lt, eq3, opposite.
  destruct (rank (field_of k x)) as [[a1 a2] a3], (rank (field_of k y)) as [[b1 b2] b3].
  cbn [fst snd]. lia.
Qed.

Lemma before_ascending (k : field) (k2 : option field) (x y : metric) :
  finite_number (field_of k x) -> finite_number (field_of k y) ->
  match k2 with
  | Some k2 => real_number (field_of k2 x) /\ real_number (field_of k2 y)
  | None => True
  end ->
  before (ascending k k2) x y = true
  <-> lt6 (ascending_key k k2 x) (ascending_key k k2 y).
Proof.
  intros Fx Fy H2.
  pose proof (finite_number_real _ Fx) as [_ Nx].
  pose proof (finite_number_real _ Fy) as [_ Ny].
  destruct Fx as [Vx Fx], Fy as [Vy Fy].
  unfold before, ascending. cbv zeta.
  pose proof (js_sub_zero _ _ Vy Vx Fy Fx) as Hz.
  rewrite (SFcompare_Eq_rank _ _ Ny Nx) in Hz.
  pose proof (js_sub_positive _ _ Vy Vx Ny Nx) as Hp.
  rewrite (SFcompare_Gt_rank _ _ Ny Nx) in Hp.
  unfold ascending_key, lt6. cbn [fst snd].
  destruct (is_zero (js_sub (field_of k y) (field_of k x))) eqn:Ez; cbn [negb].
  - assert (He : eq3 (rank (field_of k y)) (rank (field_of k x))) by (apply Hz; reflexivity).
    destruct k2 as [k2|].
    + destruct H2 as [[Vx2 Nx2] [Vy2 Ny2]].
      rewrite (js_sub_positive _ _ Vx2 Vy2 Nx2 Ny2), (SFcompare_Gt_rank _ _ Nx2 Ny2).
      unfold lex_lt, eq3, opposite in *.
      destruct (rank (field_of k x)) as [[a1 a2] a3], (rank (field_of k y)) as [[b1 b2] b3],
               (rank (field_of k2 x)) as [[c1 c2] c3], (rank (field_of k2 y)) as [[d1 d2] d3].
      cbn [fst snd] in *. lia.
    + cbn. unfold lex_lt, eq3 in *.
      destruct (rank (field_of k x)) as [[a1 a2] a3], (rank (field_of k y)) as [[b1 b2] b3].
      cbn [fst snd] in *. split; [discriminate | lia].
  - assert (He : ~ eq3 (rank (field_of k y)) (rank (field_of k x))).
    { intros He. apply Hz in He. congruence. }
    rewrite Hp. unfold lex_lt, eq3 in *.
    destruct (rank (field_of k x)) as [[a1 a2] a3], (rank (field_of k y)) as [[b1 b2] b3].
    cbn [fst snd] in *. lia.
Qed.

(** X17. [mostInaccuracies], [mostMistakes], [mostBlunders] and
    [highestAccuracy]: when the figures of the pool are binary64 numbers
    and none is NaN, the superlative names the first member of the pool,
    in its order, whose figure is the greatest: every member before it has
    a smaller figure, no member after it a greater one. *)
Theorem most_is_first_maximum (pool : list metric) (k : field) :
  pool <> [] ->
  Forall (fun p => real_number (field_of k p)) pool ->
  exists l1 m l2,
    pool = l1 ++ m :: l2
    /\ most pool k = Ok (mkSuperlative (username (base m)) (field_of k m))
    /\ (forall x, In x l1 -> SFltb (field_of k x) (field_of k m) = true)
    /\ (forall x, In x l2 -> SFleb (field_of k x) (field_of k m) = true).
Proof.
  intros Hne Hall.
  destruct (keyed_sort_head (descending k) (fun p => real_number (field_of k p))
              (descending_key k) (before_descending k) pool Hall Hne)
    as (l1 & m & l2 & rest & El & Es & H1 & H2).
  exists l1, m, l2. split; [exact El|].
  split; [unfold most, sd; rewrite Es; reflexivity|].
  rewrite Forall_forall in Hall.
  assert (Pm : real_number (field_of k m)).
  { apply Hall. rewrite El. apply in_app_iff. right. now left. }
  split; intros x Hx.
  - assert (Px : real_number (field_of k x)).
    { apply Hall. rewrite El. apply in_app_iff. now left. }
    apply SFltb_rank; [apply Px | apply Pm|].
    specialize (H1 x Hx). unfold descending_key, lt6, lex_lt, eq3, opposite in *.
    destruct (rank (field_of k x)) as [[a1 a2] a3], (rank (field_of k m)) as [[b1 b2] b3].
    cbn [fst snd] in *. lia.
  - assert (Px : real_number (field_of k x)).
    { apply Hall. rewrite El. apply in_app_iff. right. now right. }
    apply SFleb_rank; [apply Px | apply Pm|].
    specialize (H2 x Hx). unfold descending_key, lt6, lex_lt, eq3, opposite in *.
    destruct (rank (field_of k x)) as [[a1 a2] a3], (rank (field_of k m)) as [[b1 b2] b3].
    cbn [fst snd] in *. lia.
Qed.

(** X18. [leastInaccuracies], [leastMistakes], [leastBlunders] (ties broken
    by the higher accuracy) and [lowestAccuracy] (no tie-break): when the
    figures of the pool are finite binary64 numbers, and the tie-breaking
    ones are not NaN, the superlative names the first member of the pool
    with the least figure and, among these, the greatest tie-breaking
    figure. *)
Theorem least_is_first_minimum (pool : list metric) (k : field) (k2 : option field) :
  pool <> [] ->
  Forall (fun p => finite_number (field_of k p)
                   /\ match k2 with
                      | Some k2 => real_number (field_of k2 p)
                      | None => True
                      end) pool ->
  exists l1 m l2,
    pool = l1 ++ m :: l2
    /\ least pool k k2 = Ok (mkSuperlative (username (base m)) (field_of k m))
    /\ (forall x, In x l1 ->
          SFltb (field_of k m) (field_of k x) = true
          \/ (SFeqb (field_of k m) (field_of k x) = true
              /\ match k2 with
                 | Some k2 => SFltb (field_of k2 x) (field_of k2 m) = true
                 | None => False
                 end))
    /\ (forall x, In x l2 ->
          SFltb (field_of k m) (field_of k x) = true
          \/ (SFeqb (field_of k m) (field_of k x) = true
              /\ match k2 with
                 | Some k2 => SFleb (field_of k2 x) (field_of k2 m) = true
                 | None => True
                 end)).
Proof.
  intros Hne Hall.
  set (P := fun p => finite_number (field_of k p)
                     /\ match k2 with
                        | Some k2 => real_number (field_of k2 p)
                        | None => True
                        end) in *.
  assert (HK : forall x y, P x -> P y ->
             before (ascending k k2) x y = true
             <-> lt6 (ascending_key k k2 x) (ascending_key k k2 y)).
  { intros x y [Fx Gx] [Fy Gy]. apply before_ascending; try assumption.
    destruct k2; auto. }
  destruct (keyed_sort_head (ascending k k2) P (ascending_key k k2) HK pool Hall Hne)
    as (l1 & m & l2 & rest & El & Es & H1 & H2).
  exists l1, m, l2. split; [exact El|].
  split; [unfold least, sa; rewrite Es; reflexivity|].
  rewrite Forall_forall in Hall.
  assert (Pm : P m).
  { apply Hall. rewrite El. apply in_app_iff. right. now left. }
  destruct Pm as [Fm Gm]. pose proof (finite_number_real _ Fm) as [_ Nm].
  split; intros x Hx.
  - assert (Px : P x).
    { apply Hall. rewrite El. apply in_app_iff. now left. }
    destruct Px as [Fx Gx]. pose proof (finite_number_real _ Fx) as [_ Nx].
    rewrite (SFltb_rank _ _ Nm Nx), (SFeqb_rank _ _ Nm Nx).
    specialize (H1 x Hx). unfold ascending_key, lt6 in H1. cbn [fst snd] in H1.
    destruct H1 as [H1 | [He H1]]; [left; exact H1 | right; split; [exact He|]].
    destruct k2 as [k2|].
    + destruct Gm as [_ Nm2], Gx as [_ Nx2]. apply (SFltb_rank _ _ Nx2 Nm2).
      unfold lex_lt, opposite in *.
      destruct (rank (field_of k2 x)) as [[a1 a2] a3], (rank (field_of k2 m)) as [[b1 b2] b3].
      cbn [fst snd] in *. lia.
    + unfold lex_lt in H1. cbn in H1. lia.
  - assert (Px : P x).
    { apply Hall. rewrite El. apply in_app_iff. right. now right. }
    destruct Px as [Fx Gx]. pose proof (finite_number_real _ Fx) as [_ Nx].
    rewrite (SFltb_rank _ _ Nm Nx), (SFeqb_rank _ _ Nm Nx).
    specialize (H2 x Hx). unfold ascending_key, lt6 in H2. cbn [fst snd] in H2.
    assert (Hd : lex_lt (rank (field_of k m)) (rank (field_of k x))
                 \/ eq3 (rank (field_of k m)) (rank (field_of k x))).
    { unfold lex_lt, eq3 in *.
      destruct (rank (field_of k x)) as [[a1 a2] a3], (rank (field_of k m)) as [[b1 b2] b3].
      cbn [fst snd] in *. lia. }
    destruct Hd as [Hd|Hd]; [left; exact Hd | right; split; [exact Hd|]].
    destruct k2 as [k2|]; [|exact I].
    destruct Gm as [_ Nm2], Gx as [_ Nx2]. apply (SFleb_rank _ _ Nx2 Nm2).
    intros Hlt. apply H2. right. split.
    + unfold eq3 in *. lia.
    + unfold lex_lt, opposite in *.
      destruct (rank (field_of k2 x)) as [[a1 a2] a3], (rank (field_of k2 m)) as [[b1 b2] b3].
      cbn [fst snd] in *. lia.
Qed.

(** The superlative is the name and the figure of one member of the pool. *)
Definition drawn_from (pool : list metric) (k : field) (s : superlative) : Prop :=
  exists m, In m pool /\ s = mkSuperlative (username (base m)) (field_of k m).

Lemma most_drawn (pool : list metric) (k : field) :
  pool <> [] -> exists s, most pool k = Ok s /\ drawn_from pool k s.
Proof.
  intros Hne. unfold most, sd.
  pose proof (sort_nonempty (descending k) pool Hne) as Hs.
  destruct (sort (descending k) pool) as [|m rest] eqn:Es; [contradiction|].
  eexists. split; [reflexivity|]. exists m. split; [|reflexivity].
  apply (sort_In (descending k)). rewrite Es. now left.
Qed.

Lemma least_drawn (pool : list metric) (k : field) (k2 : option field) :
  pool <> [] -> exists s, least pool k k2 = Ok s /\ drawn_from pool k s.
Proof.
  intros Hne. unfold least, sa.
  pose proof (sort_nonempty (ascending k k2) pool Hne) as Hs.
  destruct (sort (ascending k k2) pool) as [|m rest] eqn:Es; [contradiction|].
  eexists. split; [reflexivity|]. exists m. split; [|reflexivity].
  apply (sort_In (ascending k k2)). rewrite Es. now left.
Qed.

Lemma superlatives_drawn (pool : list metric) :
  pool <> [] ->
  exists b,
    superlatives_of pool = Ok b
    /\ drawn_from pool Inaccuracies (mostInaccuracies b)
    /\ drawn_from pool Inaccuracies (leastInaccuracies b)
    /\ drawn_from pool Mistakes (mostMistakes b)
    /\ drawn_from pool Mistakes (leastMistakes b)
    /\ drawn_from pool Blunders (mostBlunders b)
    /\ drawn_from pool Blunders (leastBlunders b)
    /\ drawn_from pool Accuracy (highestAccuracy b)
    /\ drawn_from pool Accuracy (lowestAccuracy b).
Proof.
  intros Hne. unfold superlatives_of.
  destruct (most_drawn pool Inaccuracies Hne) as (a & -> & Ha).
  destruct (least_drawn pool Inaccuracies (Some Accuracy) Hne) as (b & -> & Hb).
  destruct (most_drawn pool Mistakes Hne) as (c & -> & Hc).
  destruct (least_drawn pool Mistakes (Some Accuracy) Hne) as (d & -> & Hd).
  destruct (most_drawn pool Blunders Hne) as (e & -> & He).
  destruct (least_drawn pool Blunders (Some Accuracy) Hne) as (f & -> & Hf).
  destruct (most_drawn pool Accuracy Hne) as (g & -> & Hg).
  destruct (least_drawn pool Accuracy None Hne) as (h & -> & Hh).
  cbn [bind]. eexists. split; [reflexivity|]. cbn. auto 10.
Qed.

Section SuperlativeProofs.

Context {C : Coercions}.
Context (JSON_parse : list N -> option value).

Lemma success_payload_pool (up : upstream) (req_body : value) (p : payload) :
  sent (analyze JSON_parse up req_body) = Success p ->
  pool (playerMetrics p) <> []
  /\ eligiblePlayers p = List.length (pool (playerMetrics p)).
Proof.
  intros H. pose proof (analyze_cases JSON_parse up req_body) as Hc. cbv zeta in Hc.
  destruct Hc as [Hc | [Hc | [[e Hc] | (t & st & id & Hr & H0 & Hp & Hc)]]].
  - exfalso.
    decompose [or] Hc; subst;
      match goal with E : analyze _ _ _ = _ |- _ => rewrite E in H; discriminate end.
  - exfalso. destruct Hc as [Hc|Hc]; rewrite Hc in H; discriminate.
  - exfalso. rewrite Hc in H.
    destruct (on_exception_error e) as (msg & Hm & _). congruence.
  - rewrite Hc in H. injection H as <-. cbn. auto.
Qed.

(** X16. Where the handler builds the success payload, the pool it takes
    the eight superlatives from is not empty, so none of the sixteen
    [sort(...)[0]] reads an undefined element; and each superlative is
    the name and the figure of one member of that pool, whatever the
    figures are (NaN included). On an empty pool the first read throws. *)
Theorem reply_superlatives (up : upstream) (req_body : value) (p : payload) :
  sent (analyze JSON_parse up req_body) = Success p ->
  (exists e, superlatives_of [] = Throw e)
  /\ exists b,
       superlatives_of (pool (playerMetrics p)) = Ok b
       /\ drawn_from (pool (playerMetrics p)) Inaccuracies (mostInaccuracies b)
       /\ drawn_from (pool (playerMetrics p)) Inaccuracies (leastInaccuracies b)
       /\ drawn_from (pool (playerMetrics p)) Mistakes (mostMistakes b)
       /\ drawn_from (pool (playerMetrics p)) Mistakes (leastMistakes b)
       /\ drawn_from (pool (playerMetrics p)) Blunders (mostBlunders b)
       /\ drawn_from (pool (playerMetrics p)) Blunders (leastBlunders b)
       /\ drawn_from (pool (playerMetrics p)) Accuracy (highestAccuracy b)
       /\ drawn_from (pool (playerMetrics p)) Accuracy (lowestAccuracy b).
Proof.
  intros H. split; [eexists; reflexivity|].
  apply superlatives_drawn. apply (success_payload_pool up req_body p H).
Qed.

End SuperlativeProofs.

(** *** The superlatives of a sample pool *)

Definition sample_pool : list metric :=
  [mkMetric (mkPlayer (VStr "carol") (num_of_Z 3) (num_of_Z 1) zero 4 4 VNull [])
     (decimal 905 1);
   mkMetric (mkPlayer (VStr "dave") (num_of_Z 5) zero zero 4 4 VNull [])
     (decimal 871 1);
   mkMetric (mkPlayer (VStr "erin") (num_of_Z 3) (num_of_Z 2) (num_of_Z 1) 4 4 VNull [])
     (decimal 932 1);
   mkMetric (mkPlayer (VStr "frank") (num_of_Z 5) zero zero 4 4 VNull [])
     (decimal 880 1)].

Lemma reply_superlatives_witness :
  exists p,
    sent (analyze (C := sample_coercions) parse_known (serving analysed_line) valid_request)
    = Success p
    /\ exists b, superlatives_of (pool (playerMetrics p)) = Ok b.
Proof.
  eexists. split; [vm_compute; reflexivity|].
  destruct (reply_superlatives (C := sample_coercions) parse_known
              (serving analysed_line) valid_request _ ltac:(vm_compute; reflexivity))
    as (_ & b & Hb & _).
  exists b. exact Hb.
Defined.

Lemma most_is_first_maximum_witness :
  exists l1 m l2,
    sample_pool = l1 ++ m :: l2
    /\ most sample_pool Inaccuracies
       = Ok (mkSuperlative (username (base m)) (field_of Inaccuracies m))
    /\ (forall x, In x l1 ->
          SFltb (field_of Inaccuracies x) (field_of Inaccuracies m) = true)
    /\ (forall x, In x l2 ->
          SFleb (field_of Inaccuracies x) (field_of Inaccuracies m) = true).
Proof.
  apply (most_is_first_maximum sample_pool Inaccuracies); [discriminate|].
  repeat constructor.
Defined.

Lemma least_is_first_minimum_witness :
  exists l1 m l2,
    sample_pool = l1 ++ m :: l2
    /\ least sample_pool Inaccuracies (Some Accuracy)
       = Ok (mkSuperlative (username (base m)) (field_of Inaccuracies m))
    /\ (forall x, In x l1 ->
          SFltb (field_of Inaccuracies m) (field_of Inaccuracies x) = true
          \/ (SFeqb (field_of Inaccuracies m) (field_of Inaccuracies x) = true
              /\ SFltb (field_of Accuracy x) (field_of Accuracy m) = true))
    /\ (forall x, In x l2 ->
          SFltb (field_of Inaccuracies m) (field_of Inaccuracies x) = true
          \/ (SFeqb (field_of Inaccuracies m) (field_of Inaccuracies x) = true
              /\ SFleb (field_of Accuracy x) (field_of Accuracy m) = true)).
Proof.
  apply (least_is_first_minimum sample_pool Inaccuracies (Some Accuracy));
    [discriminate|].
  repeat constructor.
Defined.

(** On the sample pool: dave has the most inaccuracies (frank has as many,
    later in the pool), and erin the fewest with the higher accuracy (carol
    has as few, with a lower accuracy). *)
Example sample_pool_superlatives :
  most sample_pool Inaccuracies = Ok (mkSuperlative (VStr "dave") (num_of_Z 5))
  /\ least sample_pool Inaccuracies (Some Accuracy)
     = Ok (mkSuperlative (VStr "erin") (num_of_Z 3)).
Proof. split; vm_compute; reflexivity. Qed.

(** ** The request of part_000 (src/unnamed/part_000, lines 11-18) *)

Module LegacyRequest.

Section Request.

Context {C : Coercions}.

(** Lines 11-14 and the template literal of line 18: the reply of a
    rejected request, or the URL of the tournament. *)
Definition target (req_body : value) : result (reply + string) :=
  tournamentId <- member req_body "tournamentId" ;;
  type <- member req_body "type" ;;
  if negb (truthy tournamentId) || negb (truthy type) then
    Ok (inl (fail 400 "tournamentId et type requis"))
  else
    let endpoint := if strict_eq_string type "swiss" then "swiss" else "tournament" in
    id <- ToString tournamentId ;;
    Ok (inr (tournament_url id endpoint)).

End Request.

End LegacyRequest.

Section LegacyRequestProofs.

Context {C : Coercions}.

(** X19. part_000 checks less of the request than server.js: it queries
    the remote service exactly when the body is not [null] and both fields
    are truthy, with the identifier as it is written in the URL and the
    arena endpoint for every type other than "swiss"; a request server.js
    lets through is queried by part_000 at the same URL. *)
Theorem legacy_target (req_body : value) (url : string) :
  (LegacyRequest.target req_body = Ok (inr url) <->
   nullish req_body = false
   /\ truthy (get req_body "tournamentId") = true
   /\ truthy (get req_body "type") = true
   /\ exists id,
        ToString (get req_body "tournamentId") = Ok id
        /\ url = tournament_url id
                   (if strict_eq_string (get req_body "type") "swiss"
                    then "swiss" else "tournament"))
  /\ (forall id endpoint,
        validate req_body = Ok (inr (id, endpoint)) ->
        LegacyRequest.target req_body = Ok (inr (tournament_url id endpoint))).
Proof.
  split.
  - unfold LegacyRequest.target, member. split.
    + destruct (nullish req_body); [discriminate|]. cbn [bind].
      destruct (truthy (get req_body "tournamentId")); [|discriminate].
      destruct (truthy (get req_body "type")); [|discriminate]. cbn [negb orb].
      destruct (ToString (get req_body "tournamentId")) as [id|e]; [|discriminate].
      cbn [bind]. intros H. injection H as <-.
      split; [reflexivity|]. split; [reflexivity|]. split; [reflexivity|].
      exists id. split; reflexivity.
    + intros (H1 & H2 & H3 & id & H4 & ->).
      rewrite H1. cbn [bind]. rewrite H2, H3. cbn [negb orb]. rewrite H4. reflexivity.
  - intros id endpoint H. unfold validate, member in H.
    unfold LegacyRequest.target, member.
    destruct (nullish req_body); [discriminate|]. cbn [bind] in *.
    destruct (truthy (get req_body "tournamentId")); [|discriminate].
    destruct (truthy (get req_body "type")); [|discriminate]. cbn [negb orb] in *.
    destruct (ToString (get req_body "tournamentId")) as [s|e]; [|discriminate].
    cbn [bind] in *. destruct (test_alnum s); [|discriminate]. cbn [negb] in H.
    destruct (strict_eq_string (get req_body "type") "swiss");
      destruct (strict_eq_string (get req_body "type") "arena");
      cbn [negb andb] in H; try discriminate; injection H as <- <-; reflexivity.
Qed.

End LegacyRequestProofs.

(** A request with a type server.js rejects and an identifier that is a
    path: part_000 queries the arena endpoint with it. *)
Example legacy_target_unchecked :
  LegacyRequest.target (C := sample_coercions)
    (VObj [("tournamentId", VStr "x/../../account"); ("type", VStr "blitz")])
  = Ok (inr "https://lichess.org/api/tournament/x/../../account")
  /\ validate (C := sample_coercions)
       (VObj [("tournamentId", VStr "x/../../account"); ("type", VStr "blitz")])
     = Ok (inl (fail 400 "tournamentId invalide")).
Proof. split; vm_compute; reflexivity. Qed.

(** ** The two aggregations on the same games *)

Lemma teams_seen_sides (s : string) (games : list value) :
  teams_seen s games = map (fun side => opt_member side "team") (sides_of s games).
Proof.
  induction games as [|g games IH]; [reflexivity|].
  cbn [teams_seen sides_of]. rewrite !map_app, IH.
  destruct (resolves_to s g "white"), (resolves_to s g "black"); reflexivity.
Qed.

Section TwoAggregations.

Context {C : Coercions}.

(** X20. On the same decoded games, part_000 and server.js keep the same
    accumulators: a name has one in both or in neither, with the same
    [username], [gamesPlayed] and [analyzedGames]; the teams agree when the
    first side of the player has a truthy team or no side has one, and
    otherwise part_000 keeps the falsy team of the first side where
    server.js has taken a later one. *)
Theorem legacy_same_players (s : string) (games : list value)
    (lps : Legacy.players_map) (st : state) :
  Legacy.aggregate games 0 [] = Ok lps ->
  aggregate games initial = Ok st ->
  match Legacy.Map_get (KStr s) lps, Map_get (KStr s) (ps st) with
  | None, None => True
  | Some lp, Some p =>
      Legacy.username lp = username p
      /\ Legacy.gamesPlayed lp = gamesPlayed p
      /\ Legacy.analyzedGames lp = analyzedGames p
      /\ (truthy (Legacy.team lp) = true \/ truthy (team p) = false ->
          team p = Legacy.team lp)
      /\ (team p <> Legacy.team lp ->
          truthy (Legacy.team lp) = false /\ truthy (team p) = true)
  | _, _ => False
  end.
Proof.
  intros HL H.
  pose proof (legacy_aggregate_entry s games 0 [] lps [] HL eq_refl) as Hentry.
  cbn [app] in Hentry.
  pose proof (aggregate_tally gamesPlayed (fun _ => true) s games _ _
                (fun side p p' Hu => update_player_gamesPlayed side p p' Hu)
                (fun _ _ => eq_refl) H) as Hplayed.
  pose proof (aggregate_tally analyzedGames analysed_side s games _ _
                update_player_analysed (fun _ _ => eq_refl) H) as Hanalysed.
  assert (Hname : forall p, Map_get (KStr s) (ps st) = Some p -> username p = VStr s).
  { apply (aggregate_username s games initial st); [intros p Hp; discriminate | exact H]. }
  assert (Hpos : Forall played_and_analyzed (Map_values (ps st))).
  { apply (aggregate_played_and_analyzed games initial st); [constructor | exact H]. }
  pose proof (aggregate_team s games _ _ H) as Hteam.
  change (team_of s (ps initial)) with (@None value) in Hteam.
  rewrite teams_seen_sides in Hteam.
  unfold tally in *. change (Map_get (KStr s) (ps initial)) with (@None player) in *.
  rewrite count_sides_all in Hplayed. unfold team_of in Hteam.
  unfold legacy_entry in Hentry.
  destruct (Legacy.Map_get (KStr s) lps) as [lp|];
    destruct (Map_get (KStr s) (ps st)) as [p|] eqn:Ep.
  - destruct Hentry as (first & rest & Hs & Hn & Ht & Hg & Ha).
    rewrite Hs in Hteam. cbn [map option_map] in Hteam.
    rewrite settle_first_truthy in Hteam. injection Hteam as Hteam.
    assert (Hfirst : side_name first = VStr s).
    { apply (sides_of_name s games). rewrite Hs. now left. }
    split; [rewrite (Hname p eq_refl); congruence|].
    split; [lia|]. split; [lia|].
    rewrite Ht, Hteam. cbn [find].
    destruct (truthy (opt_member first "team")) eqn:Et.
    + split; [reflexivity | intros Hd; contradiction].
    + destruct (find truthy (map (fun side => opt_member side "team") rest)) as [v|] eqn:Ef.
      * apply find_some in Ef as [_ Hv]. split.
        -- intros [Hc|Hc]; congruence.
        -- intros _. split; [reflexivity | exact Hv].
      * split; [reflexivity | intros Hd; contradiction].
  - destruct Hentry as (first & rest & Hs & _). rewrite Hs in Hplayed.
    cbn [List.length] in Hplayed. lia.
  - subst. apply (Map_get_Forall _ _ _ _ Hpos) in Ep as [Hp _].
    rewrite Hentry in Hplayed. cbn in Hplayed. lia.
  - exact I.
Qed.

End TwoAggregations.

Lemma legacy_target_witness :
  validate (C := sample_coercions) valid_request = Ok (inr ("abc123", "swiss"))
  /\ LegacyRequest.target (C := sample_coercions) valid_request
     = Ok (inr (tournament_url "abc123" "swiss")).
Proof.
  assert (H : validate (C := sample_coercions) valid_request
              = Ok (inr ("abc123", "swiss"))) by (vm_compute; reflexivity).
  split; [exact H|].
  destruct (legacy_target (C := sample_coercions) valid_request
              (tournament_url "abc123" "swiss")) as [_ Hv].
  exact (Hv "abc123" "swiss" H).
Defined.

Lemma legacy_same_players_witness :
  exists lps,
    Legacy.aggregate (C := sample_coercions) team_comes_later 0 [] = Ok lps
    /\ aggregate (C := sample_coercions) team_comes_later initial
       = Ok after_team_comes_later
    /\ match Legacy.Map_get (KStr "bob") lps,
             Map_get (KStr "bob") (ps after_team_comes_later) with
       | None, None => True
       | Some lp, Some p =>
           Legacy.username lp = username p
           /\ Legacy.gamesPlayed lp = gamesPlayed p
           /\ Legacy.analyzedGames lp = analyzedGames p
           /\ (truthy (Legacy.team lp) = true \/ truthy (team p) = false ->
               team p = Legacy.team lp)
           /\ (team p <> Legacy.team lp ->
               truthy (Legacy.team lp) = false /\ truthy (team p) = true)
       | _, _ => False
       end.
Proof.
  assert (H : aggregate (C := sample_coercions) team_comes_later initial
              = Ok after_team_comes_later) by (vm_compute; reflexivity).
  eexists. split; [vm_compute; reflexivity|]. split; [exact H|].
  apply (legacy_same_players (C := sample_coercions) "bob" team_comes_later);
    [vm_compute; reflexivity | exact H].
Defined.

(** ** The figures of a player (src/server.js, lines 103-110) *)

Section FigureProofs.

Context {C : Coercions}.

(** [Number(a[name]) || 0] on the analysis of a side gives [x]. *)
Definition coerced (name : string) (side : value) (x : number) : Prop :=
  Number_or_0 (get (opt_member side "analysis") name) = Ok x.

(** [total] is the sum, from 0 and in order, of the coerced field of the
    analysed sides. *)
Definition totals (name : string) (sides : list value) (total : number) : Prop :=
  exists xs,
    Forall2 (coerced name) (filter analysed_side sides) xs
    /\ total = fold_left js_add xs zero.

(** The figures of an accumulator the sides [sides] have been charged to. *)
Definition figures (p : player) (sides : list value) : Prop :=
  totals "inaccuracy" sides (inaccuracies p)
  /\ totals "mistake" sides (mistakes p)
  /\ totals "blunder" sides (blunders p)
  /\ Forall2 (coerced "accuracy") (filter rated_side sides) (accuracies p).

Lemma totals_snoc (name : string) (sides : list value) (side : value)
    (total x : number) :
  totals name sides total -> analysed_side side = true -> coerced name side x ->
  totals name (sides ++ [side]) (js_add total x).
Proof.
  intros (xs & HF & ->) Ha Hx. exists (xs ++ [x]). split.
  - rewrite filter_app. cbn [filter]. rewrite Ha.
    apply Forall2_app; [exact HF | constructor; [exact Hx | constructor]].
  - rewrite fold_left_app. reflexivity.
Qed.

Lemma totals_skip (name : string) (sides : list value) (side : value) (total : number) :
  totals name sides total -> analysed_side side = false ->
  totals name (sides ++ [side]) total.
Proof.
  intros (xs & HF & ->) Ha. exists xs. split; [|reflexivity].
  rewrite filter_app. cbn [filter]. rewrite Ha, app_nil_r. exact HF.
Qed.

Lemma update_player_figures (side : value) (s s' : player) (sides : list value) :
  figures s sides -> update_player side s = Ok s' -> figures s' (sides ++ [side]).
Proof.
  intros (Hi & Hm & Hb & Hx) H. unfold figures.
  destruct (truthy (opt_member side "analysis")) eqn:Ha.
  - destruct (update_player_analysis _ _ _ H Ha)
      as (i & m & b & Ei & Em & Eb & -> & -> & -> & _ & Hnull & Hacc).
    split; [apply totals_snoc; assumption|].
    split; [apply totals_snoc; assumption|].
    split; [apply totals_snoc; assumption|].
    rewrite filter_app. cbn [filter]. unfold rated_side at 2, analysed_side. rewrite Ha.
    cbn [andb].
    destruct (nullish (get (opt_member side "analysis") "accuracy")) eqn:En; cbn [negb].
    + rewrite (Hnull eq_refl), app_nil_r. exact Hx.
    + destruct (Hacc eq_refl) as (x & Ex & ->).
      apply Forall2_app; [exact Hx | constructor; [exact Ex | constructor]].
  - destruct (update_player_no_analysis _ _ _ H Ha) as (-> & -> & -> & _ & ->).
    split; [apply totals_skip; assumption|].
    split; [apply totals_skip; assumption|].
    split; [apply totals_skip; assumption|].
    rewrite filter_app. cbn [filter]. unfold rated_side at 2, analysed_side. rewrite Ha.
    cbn [andb]. rewrite app_nil_r. exact Hx.
Qed.

Lemma figures_new (name side : value) : figures (new_player name side) [].
Proof.
  unfold figures, totals. cbn.
  repeat split; try (exists []; split; [constructor | reflexivity]); constructor.
Qed.

Definition entry_figures (o : option player) (sides : list value) : Prop :=
  match o with
  | None => sides = []
  | Some p => figures p sides
  end.

Lemma record_side_figures (s : string) (g : value) (game : N) (c : string)
    (ps ps' : players_map) (sides : list value) :
  record_side (get g "players") game c ps = Ok ps' ->
  entry_figures (Map_get (KStr s) ps) sides ->
  entry_figures (Map_get (KStr s) ps')
    (sides ++ (if resolves_to s g c then [side_of g c] else [])).
Proof.
  intros H Hin. apply (record_side_entry s) in H.
  fold (side_of g c) in H. destruct H as [Hyes Hno].
  destruct (resolves_to s g c) eqn:Er.
  - apply resolves_to_spec in Er.
    destruct (Hyes Er) as (s0 & a & Hs0 & Hu & ->). cbn [entry_figures].
    destruct Hs0 as [Hs0 | [Hs0 ->]]; rewrite Hs0 in Hin; cbn [entry_figures] in Hin.
    + apply (update_player_figures _ _ _ _ Hin Hu).
    + subst sides. apply (update_player_figures _ _ _ [] (figures_new _ _) Hu).
  - rewrite app_nil_r, Hno; [exact Hin|].
    intros E. apply resolves_to_spec in E. congruence.
Qed.

Lemma aggregate_figures (s : string) (games : list value) (st st' : state)
    (sides : list value) :
  aggregate games st = Ok st' ->
  entry_figures (Map_get (KStr s) (ps st)) sides ->
  entry_figures (Map_get (KStr s) (ps st')) (sides ++ sides_of s games).
Proof.
  revert st sides; induction games as [|g games IH]; intros st sides H Hin.
  - injection H as <-. cbn [sides_of]. now rewrite app_nil_r.
  - cbn [aggregate] in H. apply bind_Ok_inv in H as (st1 & E & H).
    apply onGame_sides in E as (ps1 & Hw & Hb).
    apply (record_side_figures s _ _ _ _ _ _ Hw) in Hin.
    apply (record_side_figures s _ _ _ _ _ _ Hb) in Hin.
    apply (IH _ _ H) in Hin. cbn [sides_of].
    rewrite <- !app_assoc in Hin. exact Hin.
Qed.

(** X21. The figures of a player after any stream, in terms of the feed:
    [inaccuracies], [mistakes] and [blunders] are the sums, from 0 and in
    stream order, of [Number(field) || 0] over the player's sides with a
    truthy analysis, and [accuracies] lists [Number(accuracy) || 0] of
    those of these sides whose accuracy is not [null], in stream order. *)
Theorem player_figures (s : string) (games : list value) (st : state) (p : player) :
  aggregate games initial = Ok st ->
  Map_get (KStr s) (ps st) = Some p ->
  totals "inaccuracy" (sides_of s games) (inaccuracies p)
  /\ totals "mistake" (sides_of s games) (mistakes p)
  /\ totals "blunder" (sides_of s games) (blunders p)
  /\ Forall2 (coerced "accuracy") (filter rated_side (sides_of s games)) (accuracies p).
Proof.
  intros H Hp.
  pose proof (aggregate_figures s games initial st [] H eq_refl) as Hf.
  rewrite Hp in Hf. exact Hf.
Qed.

End FigureProofs.

(** ** The order of the players (src/server.js, lines 96-99 and 117) *)

(** The [Map] keys of the sides of a stream, white before black, the games
    ranked from [game]. *)
Fixpoint side_keys {C : Coercions} (games : list value) (game : N) : list key :=
  match games with
  | [] => []
  | g :: rest =>
      key_of (side_name (side_of g "white")) game true
      :: key_of (side_name (side_of g "black")) game false
      :: side_keys rest (game + 1)%N
  end.

(** A key joins the end of the list the first time it is seen. *)
Definition see (seen : list key) (k : key) : list key :=
  if existsb (fun k' => key_eqb k' k) seen then seen else seen ++ [k].

Lemma Map_set_keys (k : key) (p : player) (ps : players_map) :
  map fst (Map_set k p ps) = see (map fst ps) k.
Proof.
  unfold see. induction ps as [|[k' p'] ps IH]; [reflexivity|].
  cbn [Map_set map fst existsb].
  destruct (key_eqb k' k) eqn:E; cbn [orb map fst]; [reflexivity|].
  rewrite IH. destruct (existsb (fun k'0 => key_eqb k'0 k) (map fst ps)); reflexivity.
Qed.

Section OrderProofs.

Context {C : Coercions}.

Lemma record_side_keys (players : value) (game : N) (c : string)
    (ps ps' : players_map) :
  record_side players game c ps = Ok ps' ->
  map fst ps' = see (map fst ps)
                  (key_of (side_name (opt_member players c)) game (c =? "white")).
Proof.
  intros H. apply record_side_upsert in H. cbv zeta in H.
  destruct H as (s0 & a & _ & _ & ->). apply Map_set_keys.
Qed.

Lemma aggregate_keys (games : list value) (st st' : state) :
  aggregate games st = Ok st' ->
  map fst (ps st') = fold_left see (side_keys games (gameCount st + 1)) (map fst (ps st)).
Proof.
  revert st; induction games as [|g games IH]; intros st H.
  - now injection H as <-.
  - cbn [aggregate] in H. apply bind_Ok_inv in H as (st1 & E & H).
    pose proof (onGame_counters _ _ _ E) as (Hc & _).
    apply onGame_sides in E as (ps1 & Hw & Hb).
    apply record_side_keys in Hw, Hb.
    rewrite (IH _ H), Hc, Hb, Hw. reflexivity.
Qed.

(** X22. The player map, and so [playerMetrics], lists the players in the
    order of their first appearance in the feed, white before black
    within a game: its keys are the keys of the sides of the stream, each
    kept where it is first seen. *)
Theorem players_in_order_of_appearance (games : list value) (st : state) :
  aggregate games initial = Ok st ->
  map fst (ps st) = fold_left see (side_keys games 1) []
  /\ map base (metrics_of (ps st)) = map snd (ps st).
Proof.
  intros H. split.
  - apply (aggregate_keys games initial st H).
  - unfold metrics_of, Map_values. rewrite !map_map. apply map_ext. reflexivity.
Qed.

End OrderProofs.

Lemma player_figures_witness :
  aggregate (C := sample_coercions) two_games initial = Ok after_two_games
  /\ exists p,
       Map_get (KStr "alice") (ps after_two_games) = Some p
       /\ totals (C := sample_coercions) "inaccuracy" (sides_of "alice" two_games)
            (inaccuracies p)
       /\ Forall2 (coerced (C := sample_coercions) "accuracy")
            (filter rated_side (sides_of "alice" two_games)) (accuracies p).
Proof.
  assert (H : aggregate (C := sample_coercions) two_games initial = Ok after_two_games)
    by (vm_compute; reflexivity).
  split; [exact H|]. eexists. split; [vm_compute; reflexivity|].
  destruct (player_figures (C := sample_coercions) "alice" two_games after_two_games _ H
              ltac:(vm_compute; reflexivity)) as (Hi & _ & _ & Hx).
  split; [exact Hi | exact Hx].
Defined.

Lemma players_in_order_of_appearance_witness :
  aggregate (C := sample_coercions) two_games initial = Ok after_two_games
  /\ map fst (ps after_two_games) = [KStr "alice"; KStr "bob"; KStr "Anonymous"].
Proof.
  assert (H : aggregate (C := sample_coercions) two_games initial = Ok after_two_games)
    by (vm_compute; reflexivity).
  split; [exact H|].
  destruct (players_in_order_of_appearance (C := sample_coercions) two_games
              after_two_games H) as [Hk _].
  rewrite Hk. vm_compute. reflexivity.
Defined.

(** ** The success payload, from the request to the reply
       (src/server.js, lines 48-146) *)

Section EndToEnd.

Context {C : Coercions}.
Context (JSON_parse : list N -> option value).

Lemma read_games_streamed_inv (up : upstream) (req_body tournament : value) (st : state) :
  read_games JSON_parse up req_body = Ok (Streamed tournament st) ->
  exists id endpoint gRes,
    validate req_body = Ok (inr (id, endpoint))
    /\ fetch_metadata up (tournament_url id endpoint) = Response true (Ok tournament)
    /\ fetch_games up (String.append (tournament_url id endpoint)
                         "/games?evals=true&accuracy=true&moves=true")
       = Response true gRes
    /\ stream_games JSON_parse gRes = Ok st.
Proof.
  unfold read_games. intros H.
  apply bind_Ok_inv in H as (v & Ev & H).
  destruct v as [r|[id endpoint]]; [discriminate|].
  apply bind_Ok_inv in H as (t & Et & H).
  destruct t as [r|t]; [discriminate|].
  apply bind_Ok_inv in H as (g & Eg & H).
  destruct g as [r|gRes]; [discriminate|].
  apply bind_Ok_inv in H as (st0 & Es & H). injection H as <- <-.
  exists id, endpoint, gRes. split; [exact Ev|].
  unfold get_tournament in Et. unfold get_games in Eg.
  destruct (fetch_metadata up (tournament_url id endpoint)) as [e|ok json]; [discriminate|].
  destruct ok; cbn [negb] in Et; [|discriminate].
  destruct json as [t'|e]; cbn [bind] in Et; [|discriminate].
  injection Et as ->.
  destruct (fetch_games up _) as [e|ok body0]; [discriminate|].
  destruct ok; cbn [negb] in Eg; [|discriminate].
  injection Eg as ->. auto.
Qed.

(** X23. When the handler sends the analysis, and what it sends then. It
    replies with the payload [p] exactly when the request passes
    validation; both calls of the validated URLs answer with success, the
    first with a tournament that is not [null], the second with a body
    whose stream ends without a read error; every non-blank line of that
    body parses and the callback returns on each record in turn; there is
    at least one game and the ranking pool is not empty; and [p] carries
    the identifier, name (the name, else the full name, else "Tournoi") and
    player count of the tournament with the counters and the metrics of
    the state aggregated from these records. *)
Theorem success_payload_from_feed (up : upstream) (req_body : value) (p : payload) :
  analyze JSON_parse up req_body = mkReply 200 (Success p) <->
  exists id endpoint tournament chunks games st,
    validate req_body = Ok (inr (id, endpoint))
    /\ fetch_metadata up (tournament_url id endpoint) = Response true (Ok tournament)
    /\ nullish tournament = false
    /\ fetch_games up (String.append (tournament_url id endpoint)
                         "/games?evals=true&accuracy=true&moves=true")
       = Response true (Some (chunks, Done))
    /\ Forall2 (fun l g => JSON_parse l = Some g)
         (payload_lines (T := UTF8.text) (D := UTF8.decoder) (concat chunks)) games
    /\ aggregate games initial = Ok st
    /\ gameCount st <> 0%N
    /\ pool (metrics_of (ps st)) <> []
    /\ p = mkPayload (get tournament "id")
             (js_or (get tournament "name")
                (js_or (get tournament "fullName") (VStr "Tournoi")))
             (get tournament "nbPlayers")
             (gameCount st) (lichessCount st) (fullyAnalyzedCount st)
             (shortCount st) (unanalyzedCount st)
             (List.length (pool (metrics_of (ps st))))
             (List.length (withAnalysis (metrics_of (ps st))))
             (metrics_of (ps st)).
Proof.
  split.
  - intros H. unfold analyze, handle in H.
    destruct (read_games JSON_parse up req_body) as [[r|tournament st]|e] eqn:E;
      cbn [bind] in H.
    + exfalso. apply read_games_replied in E.
      decompose [or] E; subst; discriminate.
    + apply read_games_streamed_inv in E as (id & endpoint & gRes & Hv & Hm & Hg & Hs).
      unfold finish in H.
      destruct (N.eqb_spec (gameCount st) 0) as [H0|H0]; [discriminate|].
      destruct (List.length (pool (metrics_of (ps st))) =? 0)%nat eqn:Ep; [discriminate|].
      destruct (member tournament "id") as [tid|e] eqn:Eid; cbn [bind] in H.
      * apply member_Ok in Eid as [Hnull ->]. injection H as <-.
        destruct gRes as [[chunks [|e]]|].
        -- unfold stream_games in Hs.
           apply forEachNdjson_lines in Hs as (games & HF & Hs).
           rewrite run_aggregate in Hs.
           exists id, endpoint, tournament, chunks, games, st.
           repeat (split; [assumption|]). split; [|reflexivity].
           intros Hp. rewrite Hp in Ep. discriminate.
        -- exfalso. unfold stream_games in Hs. simpl in Hs.
           destruct (read_loop _ _ _ _ _ _) as [[[d b] s]|]; discriminate.
        -- discriminate.
      * exfalso. unfold on_exception in H.
        destruct (exn_name e =? "AbortError"); discriminate.
    + exfalso. unfold on_exception in H.
      destruct (exn_name e =? "AbortError"); discriminate.
  - intros (id & endpoint & tournament & chunks & games & st
            & Hv & Hm & Hnull & Hg & HF & Ha & H0 & Hp & ->).
    unfold analyze, handle, read_games. rewrite Hv. cbn [bind].
    unfold get_tournament. rewrite Hm. cbn [negb bind].
    unfold get_games. rewrite Hg. cbn [negb bind].
    assert (Hs : stream_games JSON_parse (Some (chunks, Done)) = Ok st).
    { unfold stream_games. apply forEachNdjson_lines.
      exists games. split; [exact HF | rewrite run_aggregate; exact Ha]. }
    rewrite Hs. cbn [bind]. unfold finish.
    destruct (N.eqb_spec (gameCount st) 0) as [H1|_]; [contradiction|].
    destruct (pool (metrics_of (ps st))) as [|m pool0] eqn:Epool; [contradiction|].
    cbn [List.length Nat.eqb]. unfold member. rewrite Hnull. reflexivity.
Qed.

End EndToEnd.

Lemma success_payload_from_feed_witness :
  exists p,
    analyze (C := sample_coercions) parse_known (serving analysed_line) valid_request
    = mkReply 200 (Success p)
    /\ exists games st,
         aggregate (C := sample_coercions) games initial = Ok st
         /\ p_gameCount p = gameCount st
         /\ playerMetrics p = metrics_of (ps st).
Proof.
  eexists. split; [vm_compute; reflexivity|].
  match goal with
  | |- exists games st, _ /\ p_gameCount ?p = _ /\ _ =>
      destruct (success_payload_from_feed (C := sample_coercions) parse_known
                  (serving analysed_line) valid_request p) as [Hto _]
  end.
  destruct (Hto ltac:(vm_compute; reflexivity))
    as (id & endpoint & tournament & chunks & games & st
        & _ & _ & _ & _ & _ & Ha & _ & _ & Hp).
  exists games, st. split; [exact Ha|].
  injection Hp as _ _ _ Hc _ _ _ _ _ _ Hm. split; assumption.
Defined.

(** ** The requests that fail (src/server.js, lines 48-152) *)

(** Neither side of the game has an analysis that line 103 takes. *)
Definition unanalysed (g : value) : Prop :=
  truthy (analysis_of g "white") = false /\ truthy (analysis_of g "black") = false.

(** The sides with such an analysis, over the games. *)
Fixpoint analysed_sides (games : list value) : N :=
  match games with
  | [] => 0
  | g :: rest =>
      (if truthy (analysis_of g "white") then 1 else 0)
      + (if truthy (analysis_of g "black") then 1 else 0)
      + analysed_sides rest
  end%N.

(** The URL of the games call (line 63). *)
Definition games_url (id endpoint : string) : string :=
  String.append (tournament_url id endpoint) "/games?evals=true&accuracy=true&moves=true".

(** The error kinds of the specification, and one more for the failures
    it does not name: the handler itself throws. *)
Inductive error_kind : Type :=
| ValidationError
| NotFoundError
| UpstreamError
| DecodeError
| TimeoutError
| NoDataError
| UnexpectedError.

(** The status codes the handler answers each kind with. *)
Definition statuses_of (k : error_kind) : list N :=
  match k with
  | ValidationError => [400%N; 500%N]
  | NotFoundError => [404%N]
  | UpstreamError => [500%N]
  | DecodeError => [500%N]
  | TimeoutError => [504%N]
  | NoDataError => [404%N; 400%N]
  | UnexpectedError => [500%N]
  end.

Lemma analysed_sides_zero (games : list value) :
  analysed_sides games = 0%N <-> Forall unanalysed games.
Proof.
  induction games as [|g games IH]; cbn [analysed_sides].
  - split; [constructor | reflexivity].
  - rewrite Forall_cons_iff, <- IH. unfold unanalysed.
    destruct (truthy (analysis_of g "white")), (truthy (analysis_of g "black"));
      split; try lia; intros [[H1 H2] H3]; try discriminate; lia.
Qed.

Lemma sum_analyzedGames_zero (ps : players_map) :
  sum_analyzedGames ps = 0%N <->
  forall p, In p (Map_values ps) -> analyzedGames p = 0%N.
Proof.
  unfold Map_values. induction ps as [|[k p] ps IH]; simpl.
  - split; [intros _ p [] | reflexivity].
  - split.
    + intros H q [<- | Hq]; [lia|]. apply IH; [lia | exact Hq].
    + intros H. rewrite (H p (or_introl eq_refl)).
      rewrite (proj2 IH); [reflexivity|]. intros q Hq. apply H. now right.
Qed.

Lemma pool_metrics_empty (ps : players_map) :
  pool (metrics_of ps) = [] <->
  forall p, In p (Map_values ps) -> analyzedGames p = 0%N.
Proof.
  rewrite pool_empty_iff. unfold metrics_of. split.
  - intros H p Hp.
    apply (H (mkMetric p (accuracy_of (accuracies p)))).
    apply in_map_iff. eauto.
  - intros H m Hm. apply in_map_iff in Hm as (p & <- & Hp). simpl. auto.
Qed.

(** A non-empty run of the characters [[a-zA-Z0-9]]. *)
Definition alphanumeric (s : string) : Prop :=
  s <> "" /\ forall c, In c (list_ascii_of_string s) -> In c alphanumerics.

Lemma strict_eq_string_spec (v : value) (lit : string) :
  strict_eq_string v lit = true <-> v = VStr lit.
Proof.
  destruct v as [| |b|x|s|l|l]; simpl; try (split; [discriminate | intros H; discriminate]).
  rewrite String.eqb_eq. split; [intros -> | intros H; injection H as ->]; reflexivity.
Qed.

Section Failures.

Context {C : Coercions}.
Context (JSON_parse : list N -> option value).
Context (up : upstream).

(** *** The request, in the words of the specification *)

(** The input is well formed: both fields are there, the identifier,
    written as the string [id], is alphanumeric, and the type is one of
    the two, which gives the endpoint. *)
Definition accepted (req_body : value) (id endpoint : string) : Prop :=
  nullish req_body = false
  /\ truthy (get req_body "tournamentId") = true
  /\ truthy (get req_body "type") = true
  /\ ToString (get req_body "tournamentId") = Ok id
  /\ alphanumeric id
  /\ ((get req_body "type" = VStr "swiss" /\ endpoint = "swiss")
      \/ (get req_body "type" = VStr "arena" /\ endpoint = "tournament")).

(** A field is missing, the identifier is not alphanumeric, or the type
    is not one of the two. *)
Definition rejected (req_body : value) : Prop :=
  nullish req_body = false
  /\ (truthy (get req_body "tournamentId") = false
      \/ truthy (get req_body "type") = false
      \/ exists s,
           ToString (get req_body "tournamentId") = Ok s
           /\ (~ alphanumeric s
               \/ (get req_body "type" <> VStr "swiss"
                   /\ get req_body "type" <> VStr "arena"))).

(** The input cannot be read: the body is [null] or [undefined], or both
    fields are there and the identifier has no string, [e] being what the
    conversion throws. *)
Definition unreadable (req_body : value) (e : exn) : Prop :=
  (nullish req_body = true
   /\ e = TypeError "Cannot read properties of null or undefined")
  \/ (nullish req_body = false
      /\ truthy (get req_body "tournamentId") = true
      /\ truthy (get req_body "type") = true
      /\ ToString (get req_body "tournamentId") = Throw e).

(** The input is well formed and the metadata call answers with success
    and a body that reads as [tournament]. *)
Definition has_tournament (req_body : value) (id endpoint : string)
    (tournament : value) : Prop :=
  accepted req_body id endpoint
  /\ fetch_metadata up (tournament_url id endpoint) = Response true (Ok tournament).

(** Moreover the games call answers with success and a body, which gives
    [chunks] and ends with [fin]. *)
Definition has_stream (req_body tournament : value)
    (chunks : list (list Byte.byte)) (fin : stream_end) : Prop :=
  exists id endpoint,
    has_tournament req_body id endpoint tournament
    /\ fetch_games up (games_url id endpoint) = Response true (Some (chunks, fin)).

(** The lines such a body owes to the callback: every non-blank line when
    it ends normally, those closed by a newline when it ends in a read
    error. *)
Definition delivered_lines (chunks : list (list Byte.byte)) (fin : stream_end)
    : list (list N) :=
  match fin with
  | Done => payload_lines (T := UTF8.text) (D := UTF8.decoder) (concat chunks)
  | ReadError _ => complete_lines (T := UTF8.text) (D := UTF8.decoder) (concat chunks)
  end.

(** The stream is read to its normal end: [games] are the records of its
    non-blank lines, in order, and the callback returns on each in turn,
    leaving [st]. *)
Definition reads_feed (req_body tournament : value) (games : list value)
    (st : state) : Prop :=
  exists chunks,
    has_stream req_body tournament chunks Done
    /\ Forall2 (fun l g => JSON_parse l = Some g)
         (payload_lines (T := UTF8.text) (D := UTF8.decoder) (concat chunks)) games
    /\ aggregate games initial = Ok st.

(** Where the handler throws, with the kind of the taxonomy the failure
    falls under and the exception thrown:
    - validation: the input cannot be read;
    - upstream: a call, or the reading of the stream after the complete
      lines have been delivered, fails;
    - decode: a line of the stream does not parse, the lines before it
      delivered;
    - otherwise, a failure the taxonomy does not name: a metadata body that
      cannot be read, a games response without a body, a record the
      callback throws on, a tournament that is [null]. *)
Inductive throws_at (req_body : value) : error_kind -> exn -> Prop :=
| Throws_unreadable e :
    unreadable req_body e ->
    throws_at req_body ValidationError e
| Throws_metadata_transport id endpoint e :
    accepted req_body id endpoint ->
    fetch_metadata up (tournament_url id endpoint) = FetchThrow e ->
    throws_at req_body UpstreamError e
| Throws_metadata_unreadable id endpoint e :
    accepted req_body id endpoint ->
    fetch_metadata up (tournament_url id endpoint) = Response true (Throw e) ->
    throws_at req_body UnexpectedError e
| Throws_games_transport id endpoint tournament e :
    has_tournament req_body id endpoint tournament ->
    fetch_games up (games_url id endpoint) = FetchThrow e ->
    throws_at req_body UpstreamError e
| Throws_no_body id endpoint tournament :
    has_tournament req_body id endpoint tournament ->
    fetch_games up (games_url id endpoint) = Response true None ->
    throws_at req_body UnexpectedError (PlainError "Réponse NDJSON vide.")
| Throws_read tournament chunks e st :
    has_stream req_body tournament chunks (ReadError e) ->
    feed JSON_parse onGame (delivered_lines chunks (ReadError e)) initial = Ok st ->
    throws_at req_body UpstreamError e
| Throws_decode tournament chunks fin before l after st :
    has_stream req_body tournament chunks fin ->
    delivered_lines chunks fin = before ++ l :: after ->
    feed JSON_parse onGame before initial = Ok st ->
    JSON_parse l = None ->
    throws_at req_body DecodeError (SyntaxError "Unexpected token in JSON")
| Throws_callback tournament chunks fin before l after st g e :
    has_stream req_body tournament chunks fin ->
    delivered_lines chunks fin = before ++ l :: after ->
    feed JSON_parse onGame before initial = Ok st ->
    JSON_parse l = Some g ->
    onGame g st = Throw e ->
    throws_at req_body UnexpectedError e
| Throws_tournament tournament games st :
    reads_feed req_body tournament games st ->
    games <> [] ->
    ~ Forall unanalysed games ->
    nullish tournament = true ->
    throws_at req_body UnexpectedError
      (TypeError "Cannot read properties of null or undefined").

(** When a request fails with a given kind, and the status code it is
    answered with. Following the taxonomy of the specification:
    - validation: the input is rejected (400), or cannot be read (500);
    - not found: the metadata call answers without success (404);
    - upstream: the games call answers without success, or a call or the
      reading of the stream fails (500);
    - decode: a line of the stream does not parse (500);
    - no data: the stream is read to its end with no game (404) or with
      no analysed side (400);
    - timeout: what is thrown, wherever the handler throws, is named
      [AbortError], the name of what [fetch] throws when the timer of
      [fetchWithTimeout] fires (504);
    - otherwise the handler throws on what it received (500). *)
Inductive fails_as (req_body : value) : error_kind -> N -> Prop :=
| Fails_rejected :
    rejected req_body ->
    fails_as req_body ValidationError 400
| Fails_not_found id endpoint json :
    accepted req_body id endpoint ->
    fetch_metadata up (tournament_url id endpoint) = Response false json ->
    fails_as req_body NotFoundError 404
| Fails_games_status id endpoint tournament gRes :
    has_tournament req_body id endpoint tournament ->
    fetch_games up (games_url id endpoint) = Response false gRes ->
    fails_as req_body UpstreamError 500
| Fails_no_games tournament st :
    reads_feed req_body tournament [] st ->
    fails_as req_body NoDataError 404
| Fails_no_analysis tournament games st :
    reads_feed req_body tournament games st ->
    games <> [] ->
    Forall unanalysed games ->
    fails_as req_body NoDataError 400
| Fails_thrown k e :
    throws_at req_body k e ->
    exn_name e <> "AbortError" ->
    fails_as req_body k 500
| Fails_timeout k e :
    throws_at req_body k e ->
    exn_name e = "AbortError" ->
    fails_as req_body TimeoutError 504.

(** *** The checks of lines 50-55 *)

Lemma validate_accepted (req_body : value) (id endpoint : string) :
  validate req_body = Ok (inr (id, endpoint)) <-> accepted req_body id endpoint.
Proof.
  unfold accepted, alphanumeric. rewrite <- test_alnum_spec.
  unfold validate, member. split.
  - destruct (nullish req_body); [discriminate|]. cbn [bind].
    destruct (truthy (get req_body "tournamentId")); [|discriminate].
    destruct (truthy (get req_body "type")); [|discriminate]. cbn [negb orb].
    destruct (ToString (get req_body "tournamentId")) as [s|e]; [|discriminate].
    cbn [bind]. destruct (test_alnum s) eqn:Et; [|discriminate]. cbn [negb].
    destruct (get req_body "type") as [| | | |t| |]; cbn; try discriminate.
    destruct (String.eqb_spec t "swiss") as [->|Hs]; cbn.
    + intros H; injection H as <- <-.
      split; [reflexivity|]. split; [reflexivity|]. split; [reflexivity|].
      split; [reflexivity|]. split; [exact Et|]. left. split; reflexivity.
    + destruct (String.eqb_spec t "arena") as [->|Ha]; cbn; [|discriminate].
      intros H; injection H as <- <-.
      split; [reflexivity|]. split; [reflexivity|]. split; [reflexivity|].
      split; [reflexivity|]. split; [exact Et|]. right. split; reflexivity.
  - intros (H1 & H2 & H3 & H4 & H5 & Htype).
    rewrite H1. cbn [bind]. rewrite H2, H3. cbn [negb orb].
    rewrite H4. cbn [bind]. rewrite H5. cbn [negb].
    destruct Htype as [[-> ->] | [-> ->]]; reflexivity.
Qed.

(** Every request is accepted, rejected or unreadable, as [validate]
    finds it. *)
Lemma validate_cases (req_body : value) :
  match validate req_body with
  | Ok (inr (id, endpoint)) => accepted req_body id endpoint
  | Ok (inl r) =>
      rejected req_body
      /\ (r = fail 400 "tournamentId et type requis"
          \/ r = fail 400 "tournamentId invalide"
          \/ r = fail 400 "type invalide")
  | Throw e => unreadable req_body e
  end.
Proof.
  destruct (validate req_body) as [[r|[id endpoint]]|e] eqn:Hv.
  - split; [|apply (validate_rejects _ _ Hv)].
    unfold rejected. unfold validate, member in Hv.
    destruct (nullish req_body); [discriminate|]. split; [reflexivity|].
    cbn [bind] in Hv.
    destruct (truthy (get req_body "tournamentId")); [|auto].
    destruct (truthy (get req_body "type")); [|auto]. cbn [negb orb] in Hv.
    destruct (ToString (get req_body "tournamentId")) as [s|e]; [|discriminate].
    cbn [bind] in Hv. right. right. exists s. split; [reflexivity|].
    destruct (test_alnum s) eqn:Et; cbn [negb] in Hv.
    + right.
      destruct (strict_eq_string (get req_body "type") "swiss") eqn:Es;
        [discriminate|].
      destruct (strict_eq_string (get req_body "type") "arena") eqn:Ea;
        [discriminate|].
      split; intros Heq; apply strict_eq_string_spec in Heq; congruence.
    + left. intros Ha. apply test_alnum_spec in Ha. congruence.
  - apply validate_accepted. exact Hv.
  - unfold unreadable. unfold validate, member in Hv.
    destruct (nullish req_body); cbn [bind] in Hv.
    { left. injection Hv as <-. split; reflexivity. }
    right. split; [reflexivity|].
    destruct (truthy (get req_body "tournamentId")); [|discriminate].
    destruct (truthy (get req_body "type")); [|discriminate]. cbn [negb orb] in Hv.
    destruct (ToString (get req_body "tournamentId")) as [s|e']; cbn [bind] in Hv.
    + destruct (negb (test_alnum s)); [discriminate|].
      destruct (negb (strict_eq_string (get req_body "type") "swiss")
                && negb (strict_eq_string (get req_body "type") "arena")); discriminate.
    + injection Hv as ->. auto.
Qed.

(** The three findings exclude each other. *)
Lemma accepted_once (req_body : value) (id endpoint : string) :
  accepted req_body id endpoint ->
  ~ rejected req_body /\ forall e, ~ unreadable req_body e.
Proof.
  intros (H1 & H2 & H3 & H4 & H5 & Htype). split.
  - intros (_ & [H|[H|(s & Hs & H)]]); try congruence.
    rewrite H4 in Hs. injection Hs as <-.
    destruct H as [H|[Hswiss Harena]]; [contradiction|].
    destruct Htype as [[Ht _]|[Ht _]]; contradiction.
  - intros e [[H _]|(_ & _ & _ & H)]; congruence.
Qed.

Lemma rejected_validate (req_body : value) :
  rejected req_body ->
  exists r, validate req_body = Ok (inl r)
            /\ (r = fail 400 "tournamentId et type requis"
                \/ r = fail 400 "tournamentId invalide"
                \/ r = fail 400 "type invalide").
Proof.
  intros Hr. pose proof (validate_cases req_body) as Hc.
  destruct (validate req_body) as [[r|[id endpoint]]|e].
  - exists r. split; [reflexivity | apply Hc].
  - exfalso. apply (accepted_once _ _ _ Hc). exact Hr.
  - exfalso. destruct Hr as (Hn & Hr). destruct Hc as [[Hc _]|(_ & H2 & H3 & H4)].
    + congruence.
    + destruct Hr as [H|[H|(s & Hs & _)]]; congruence.
Qed.

Lemma unreadable_validate (req_body : value) (e : exn) :
  unreadable req_body e -> validate req_body = Throw e.
Proof.
  intros Hu. unfold validate, member.
  destruct Hu as [[Hn ->]|(Hn & Hi & Ht & Hs)]; rewrite Hn; cbn [bind].
  - reflexivity.
  - rewrite Hi, Ht. cbn [negb orb]. rewrite Hs. reflexivity.
Qed.

(** *** The stream, line by line *)

Lemma stream_games_delivered (chunks : list (list Byte.byte)) (fin : stream_end) :
  stream_games JSON_parse (Some (chunks, fin))
  = (st <- feed JSON_parse onGame (delivered_lines chunks fin) initial ;;
     match fin with
     | Done => Ok st
     | ReadError e => Throw e
     end).
Proof.
  unfold stream_games. destruct fin as [|e]; cbn [delivered_lines].
  - rewrite forEachNdjson_done, bind_Ok_r. reflexivity.
  - apply forEachNdjson_read_error.
Qed.

Lemma feed_stops (before after : list (list N)) (l : list N) (st0 st : state) :
  feed JSON_parse onGame before st0 = Ok st ->
  feed JSON_parse onGame (before ++ l :: after) st0
  = match JSON_parse l with
    | Some g => st' <- onGame g st ;; feed JSON_parse onGame after st'
    | None => Throw (SyntaxError "Unexpected token in JSON")
    end.
Proof. intros H. rewrite feed_app, H. reflexivity. Qed.

Lemma aggregate_analysed_count (games : list value) (st st' : state) :
  aggregate games st = Ok st' ->
  sum_analyzedGames (ps st') = (sum_analyzedGames (ps st) + analysed_sides games)%N.
Proof.
  revert st; induction games as [|g games IH]; intros st H.
  - injection H as <-. cbn [analysed_sides]. lia.
  - cbn [aggregate] in H. apply bind_Ok_inv in H as (st1 & E & H).
    apply onGame_analyzedGames in E. apply IH in H.
    cbn [analysed_sides]. lia.
Qed.

(** *** The handler, path by path *)

Lemma handle_paths (req_body : value) :
  match validate req_body with
  | Throw e => handle JSON_parse up req_body = Throw e
  | Ok (inl r) => handle JSON_parse up req_body = Ok r
  | Ok (inr (id, endpoint)) =>
      match fetch_metadata up (tournament_url id endpoint) with
      | FetchThrow e => handle JSON_parse up req_body = Throw e
      | Response false _ =>
          handle JSON_parse up req_body = Ok (fail 404 "Tournoi introuvable.")
      | Response true (Throw e) => handle JSON_parse up req_body = Throw e
      | Response true (Ok tournament) =>
          match fetch_games up (games_url id endpoint) with
          | FetchThrow e => handle JSON_parse up req_body = Throw e
          | Response false _ =>
              handle JSON_parse up req_body
              = Ok (fail 500 "Impossible de récupérer les parties.")
          | Response true None =>
              handle JSON_parse up req_body = Throw (PlainError "Réponse NDJSON vide.")
          | Response true (Some (chunks, fin)) =>
              match feed JSON_parse onGame (delivered_lines chunks fin) initial with
              | Throw e => handle JSON_parse up req_body = Throw e
              | Ok st =>
                  match fin with
                  | Done => handle JSON_parse up req_body = finish tournament st
                  | ReadError e => handle JSON_parse up req_body = Throw e
                  end
              end
          end
      end
  end.
Proof.
  unfold handle, read_games.
  destruct (validate req_body) as [[r|[id endpoint]]|e]; cbn [bind]; try reflexivity.
  unfold get_tournament.
  destruct (fetch_metadata up (tournament_url id endpoint)) as [e|[|] [tournament|e]];
    cbn [negb bind]; try reflexivity.
  unfold get_games, games_url.
  destruct (fetch_games up _) as [e|[|] [[chunks fin]|]]; cbn [negb bind]; try reflexivity.
  rewrite stream_games_delivered.
  destruct (feed JSON_parse onGame (delivered_lines chunks fin) initial) as [st|e];
    cbn [bind]; [|reflexivity].
  destruct fin; reflexivity.
Qed.

Lemma handle_stream (req_body tournament : value) (chunks : list (list Byte.byte))
    (fin : stream_end) :
  has_stream req_body tournament chunks fin ->
  match feed JSON_parse onGame (delivered_lines chunks fin) initial with
  | Throw e => handle JSON_parse up req_body = Throw e
  | Ok st =>
      match fin with
      | Done => handle JSON_parse up req_body = finish tournament st
      | ReadError e => handle JSON_parse up req_body = Throw e
      end
  end.
Proof.
  intros (id & endpoint & (Hv & Hm) & Hg). apply validate_accepted in Hv.
  pose proof (handle_paths req_body) as H. rewrite Hv, Hm, Hg in H. exact H.
Qed.

Lemma reads_feed_fed (req_body tournament : value) (games : list value) (st : state) :
  reads_feed req_body tournament games st ->
  exists chunks,
    has_stream req_body tournament chunks Done
    /\ feed JSON_parse onGame (delivered_lines chunks Done) initial = Ok st.
Proof.
  intros (chunks & Hs & HF & Ha). exists chunks. split; [exact Hs|].
  apply feed_Ok_iff. exists games. split; [exact HF|].
  rewrite run_aggregate. exact Ha.
Qed.

Lemma reads_feed_handle (req_body tournament : value) (games : list value) (st : state) :
  reads_feed req_body tournament games st ->
  handle JSON_parse up req_body = finish tournament st.
Proof.
  intros H. apply reads_feed_fed in H as (chunks & Hs & Hf).
  pose proof (handle_stream _ _ _ _ Hs) as H. rewrite Hf in H. exact H.
Qed.

Lemma reads_feed_streamed (req_body tournament : value) (st : state) :
  read_games JSON_parse up req_body = Ok (Streamed tournament st) <->
  exists games, reads_feed req_body tournament games st.
Proof.
  split.
  - intros H.
    apply read_games_streamed_inv in H as (id & endpoint & gRes & Hv & Hm & Hg & Hs).
    destruct gRes as [[chunks [|e]]|].
    + unfold stream_games in Hs.
      apply forEachNdjson_lines in Hs as (games & HF & Hs).
      rewrite run_aggregate in Hs. exists games, chunks.
      split; [|split; assumption].
      exists id, endpoint.
      split; [split; [apply validate_accepted|]; assumption | exact Hg].
    + exfalso. rewrite stream_games_delivered in Hs.
      destruct (feed _ _ _ _); discriminate.
    + discriminate.
  - intros (games & H). pose proof (reads_feed_fed _ _ _ _ H) as (chunks & Hs & Hf).
    destruct Hs as (id & endpoint & (Hv & Hm) & Hg). apply validate_accepted in Hv.
    unfold read_games. rewrite Hv. cbn [bind].
    unfold get_tournament. rewrite Hm. cbn [negb bind].
    unfold get_games. unfold games_url in Hg. rewrite Hg. cbn [negb bind].
    rewrite stream_games_delivered, Hf. reflexivity.
Qed.

(** What the state says of the games it was aggregated from. *)
Lemma reads_feed_counts (req_body tournament : value) (games : list value) (st : state) :
  reads_feed req_body tournament games st ->
  gameCount st = N.of_nat (List.length games)
  /\ (pool (metrics_of (ps st)) = [] <-> Forall unanalysed games).
Proof.
  intros (chunks & _ & _ & Ha). split.
  - apply aggregate_sum in Ha as (Hc & _). rewrite Hc. reflexivity.
  - apply aggregate_analysed_count in Ha.
    rewrite pool_metrics_empty, <- sum_analyzedGames_zero, Ha, <- analysed_sides_zero.
    reflexivity.
Qed.

Lemma finish_no_games (tournament : value) (st : state) :
  gameCount st = 0%N -> finish tournament st = Ok no_games.
Proof. unfold finish. intros ->. reflexivity. Qed.

Lemma finish_no_analysis (tournament : value) (st : state) :
  gameCount st <> 0%N -> pool (metrics_of (ps st)) = [] ->
  finish tournament st = Ok no_analysis.
Proof.
  unfold finish. intros H0 Hp.
  destruct (N.eqb_spec (gameCount st) 0); [contradiction|].
  rewrite Hp. reflexivity.
Qed.

Lemma finish_pool (tournament : value) (st : state) :
  gameCount st <> 0%N -> pool (metrics_of (ps st)) <> [] ->
  finish tournament st
  = if nullish tournament
    then Throw (TypeError "Cannot read properties of null or undefined")
    else Ok (mkReply 200 (Success
           (mkPayload (get tournament "id")
              (js_or (get tournament "name")
                 (js_or (get tournament "fullName") (VStr "Tournoi")))
              (get tournament "nbPlayers")
              (gameCount st) (lichessCount st) (fullyAnalyzedCount st)
              (shortCount st) (unanalyzedCount st)
              (List.length (pool (metrics_of (ps st))))
              (List.length (withAnalysis (metrics_of (ps st))))
              (metrics_of (ps st))))).
Proof.
  unfold finish. intros H0 Hp.
  destruct (N.eqb_spec (gameCount st) 0); [contradiction|].
  destruct (pool (metrics_of (ps st))) as [|m rest] eqn:E; [contradiction|].
  cbn [List.length Nat.eqb]. unfold member.
  destruct (nullish tournament); reflexivity.
Qed.

Lemma games_counted (games : list value) (n : N) :
  n = N.of_nat (List.length games) -> (n = 0%N <-> games = []).
Proof.
  intros ->. destruct games; simpl; split; try reflexivity; try discriminate; lia.
Qed.

(** C8. The request is answered with one of the two no-data replies
    exactly when it passes validation, both calls answer with success, the
    stream of the games is read to its normal end, every non-blank line
    parsing and the callback returning on each record, and either no game
    was decoded from the stream or no side of any decoded game has an
    analysis. In that case the game count is the number of decoded games;
    the ranking pool is empty exactly when no side has an analysis, which
    is when no player has an analysed game; the reply is the 404 one when
    no game was decoded and the 400 one otherwise. Both are 4xx errors
    and neither is a success payload. An empty stream decodes no game, so
    is answered with the 404 no-data reply. *)
Theorem no_data_exactly (req_body : value) :
  (no_data (analyze JSON_parse up req_body) <->
   exists tournament games st,
     reads_feed req_body tournament games st
     /\ (games = [] \/ Forall unanalysed games))
  /\ (forall tournament games st,
        reads_feed req_body tournament games st ->
        gameCount st = N.of_nat (List.length games)
        /\ (pool (metrics_of (ps st)) = [] <-> Forall unanalysed games)
        /\ (pool (metrics_of (ps st)) = [] <->
            forall p, In p (Map_values (ps st)) -> analyzedGames p = 0%N)
        /\ (games = [] -> analyze JSON_parse up req_body = no_games)
        /\ (games <> [] -> Forall unanalysed games ->
            analyze JSON_parse up req_body = no_analysis)
        /\ (games <> [] -> ~ Forall unanalysed games ->
            ~ no_data (analyze JSON_parse up req_body)))
  /\ (no_data (analyze JSON_parse up req_body) ->
      (400 <= status (analyze JSON_parse up req_body) < 500)%N
      /\ forall p, sent (analyze JSON_parse up req_body) <> Success p)
  /\ (forall tournament chunks,
        has_stream req_body tournament chunks Done ->
        concat chunks = [] ->
        reads_feed req_body tournament [] initial
        /\ analyze JSON_parse up req_body = no_games).
Proof.
  assert (Hfacts : forall tournament games st,
            reads_feed req_body tournament games st ->
            (games = [] -> analyze JSON_parse up req_body = no_games)
            /\ (games <> [] -> Forall unanalysed games ->
                analyze JSON_parse up req_body = no_analysis)
            /\ (games <> [] -> ~ Forall unanalysed games ->
                ~ no_data (analyze JSON_parse up req_body))).
  { intros tournament games st H.
    pose proof (reads_feed_counts _ _ _ _ H) as (Hc & Hp).
    pose proof (games_counted _ _ Hc) as H0.
    unfold analyze. rewrite (reads_feed_handle _ _ _ _ H).
    split; [|split].
    - intros Hg. rewrite finish_no_games by (apply H0; exact Hg). reflexivity.
    - intros Hg Hu. rewrite finish_no_analysis; [reflexivity | | apply Hp; exact Hu].
      intros Hz. apply Hg, H0, Hz.
    - intros Hg Hu. rewrite finish_pool.
      + destruct (nullish tournament).
        * apply on_exception_not_no_data.
        * intros [Hn|Hn]; discriminate.
      + intros Hz. apply Hg, H0, Hz.
      + intros Hz. apply Hu, Hp, Hz. }
  split; [|split; [|split]].
  - split.
    + intros Hno. apply no_data_streamed in Hno as (tournament & st & Hr & Hor).
      apply reads_feed_streamed in Hr as (games & H).
      exists tournament, games, st. split; [exact H|].
      pose proof (reads_feed_counts _ _ _ _ H) as (Hc & Hp).
      destruct Hor as [Hz|Hz].
      * left. apply (games_counted _ _ Hc), Hz.
      * right. apply Hp, Hz.
    + intros (tournament & games & st & H & Hor).
      destruct (Hfacts _ _ _ H) as (Hnone & Hunanalysed & _).
      destruct games as [|g games].
      * left. apply Hnone. reflexivity.
      * right. apply Hunanalysed; [discriminate|].
        destruct Hor as [Hz|Hz]; [discriminate | exact Hz].
  - intros tournament games st H.
    pose proof (reads_feed_counts _ _ _ _ H) as (Hc & Hp).
    destruct (Hfacts _ _ _ H) as (Hnone & Hunanalysed & Hother).
    split; [exact Hc|]. split; [exact Hp|]. split; [apply pool_metrics_empty|].
    split; [exact Hnone|]. split; [exact Hunanalysed | exact Hother].
  - intros [-> | ->]; simpl; split; try lia; intros p; discriminate.
  - intros tournament chunks Hs Hempty.
    assert (H : reads_feed req_body tournament [] initial).
    { exists chunks. split; [exact Hs|]. rewrite Hempty. split; [constructor | reflexivity]. }
    split; [exact H|]. apply (Hfacts _ _ _ H). reflexivity.
Qed.

(** *** Every failure has its status *)

Lemma on_exception_other (e : exn) :
  exn_name e <> "AbortError" ->
  status (on_exception e) = 500%N /\ exists msg, sent (on_exception e) = ErrorBody msg.
Proof.
  intros Hn. unfold on_exception.
  destruct (String.eqb_spec (exn_name e) "AbortError"); [contradiction|].
  split; [reflexivity | eexists; reflexivity].
Qed.

Lemma on_exception_abort (e : exn) :
  exn_name e = "AbortError" ->
  on_exception e = fail 504 "Lichess ne répond pas à temps.".
Proof. intros Hn. unfold on_exception. rewrite Hn. reflexivity. Qed.

Lemma analyze_throws (req_body : value) (e : exn) :
  handle JSON_parse up req_body = Throw e ->
  exn_name e <> "AbortError" ->
  status (analyze JSON_parse up req_body) = 500%N
  /\ exists msg, sent (analyze JSON_parse up req_body) = ErrorBody msg.
Proof.
  intros H Hn. unfold analyze. rewrite H. apply on_exception_other, Hn.
Qed.

Lemma throws_at_handle (req_body : value) (k : error_kind) (e : exn) :
  throws_at req_body k e -> handle JSON_parse up req_body = Throw e.
Proof.
  intros Hk. pose proof (handle_paths req_body) as Hp.
  destruct Hk as [e Hu | id ep e Hv Hm | id ep e Hv Hm | id ep t e [Hv Hm] Hg
                  | id ep t [Hv Hm] Hg | t chunks e st Hs Hf
                  | t chunks fin before l after st Hs Hl Hf Hj
                  | t chunks fin before l after st g e Hs Hl Hf Hj Hg
                  | t games st H Hg Hu Hnull];
    try apply validate_accepted in Hv.
  - apply unreadable_validate in Hu. rewrite Hu in Hp. exact Hp.
  - rewrite Hv, Hm in Hp. exact Hp.
  - rewrite Hv, Hm in Hp. exact Hp.
  - rewrite Hv, Hm, Hg in Hp. exact Hp.
  - rewrite Hv, Hm, Hg in Hp. exact Hp.
  - pose proof (handle_stream _ _ _ _ Hs) as H. rewrite Hf in H. exact H.
  - pose proof (handle_stream _ _ _ _ Hs) as H.
    rewrite Hl, (feed_stops _ _ _ _ _ Hf), Hj in H. exact H.
  - pose proof (handle_stream _ _ _ _ Hs) as H.
    rewrite Hl, (feed_stops _ _ _ _ _ Hf), Hj, Hg in H. exact H.
  - pose proof (reads_feed_counts _ _ _ _ H) as (Hc & Hpool).
    rewrite (reads_feed_handle _ _ _ _ H), finish_pool, Hnull; [reflexivity | |].
    + intros Hz. apply Hg, (games_counted _ _ Hc), Hz.
    + intros Hz. apply Hu, Hpool, Hz.
Qed.

Lemma fails_as_status (req_body : value) (k : error_kind) (s : N) :
  fails_as req_body k s ->
  status (analyze JSON_parse up req_body) = s
  /\ exists msg, sent (analyze JSON_parse up req_body) = ErrorBody msg.
Proof.
  intros Hk. pose proof (handle_paths req_body) as Hp.
  destruct Hk as [Hr | id ep json Hv Hm | id ep t gRes [Hv Hm] Hg
                  | t st H | t games st H Hg Hu | k e Ht Hn | k e Ht Hn];
    try apply validate_accepted in Hv.
  - apply rejected_validate in Hr as (r & Hv & Hr). rewrite Hv in Hp.
    unfold analyze. rewrite Hp.
    destruct Hr as [-> | [-> | ->]]; (split; [reflexivity | eexists; reflexivity]).
  - rewrite Hv, Hm in Hp. unfold analyze. rewrite Hp.
    split; [reflexivity | eexists; reflexivity].
  - rewrite Hv, Hm, Hg in Hp. unfold analyze. rewrite Hp.
    split; [reflexivity | eexists; reflexivity].
  - unfold analyze. rewrite (reads_feed_handle _ _ _ _ H).
    pose proof (reads_feed_counts _ _ _ _ H) as (Hc & _).
    rewrite finish_no_games by (rewrite Hc; reflexivity).
    split; [reflexivity | eexists; reflexivity].
  - unfold analyze. rewrite (reads_feed_handle _ _ _ _ H).
    pose proof (reads_feed_counts _ _ _ _ H) as (Hc & Hpool).
    rewrite finish_no_analysis.
    + split; [reflexivity | eexists; reflexivity].
    + intros Hz. apply Hg, (games_counted _ _ Hc), Hz.
    + apply Hpool, Hu.
  - apply throws_at_handle in Ht. apply (analyze_throws _ _ Ht Hn).
  - apply throws_at_handle in Ht. unfold analyze.
    rewrite Ht, (on_exception_abort _ Hn).
    split; [reflexivity | eexists; reflexivity].
Qed.

Lemma fails_as_listed (req_body : value) (k : error_kind) (s : N) :
  fails_as req_body k s -> In s (statuses_of k) /\ (s = 504%N <-> k = TimeoutError).
Proof.
  intros Hk.
  destruct Hk as [Hr | id ep json Hv Hm | id ep t gRes Ht Hg
                  | t st H | t games st H Hg Hu | k e Ht Hn | k e Ht Hn];
    try (simpl; split; [auto | split; intros; congruence || discriminate]).
  destruct Ht; simpl; (split; [auto | split; intros; discriminate]).
Qed.

Lemma fails_or_sends (req_body : value) :
  (exists p, analyze JSON_parse up req_body = mkReply 200 (Success p))
  \/ exists k s, fails_as req_body k s.
Proof.
  pose proof (handle_paths req_body) as Hp.
  pose proof (validate_cases req_body) as Hc.
  assert (Hthrow : forall k e,
            throws_at req_body k e ->
            (exists p, analyze JSON_parse up req_body = mkReply 200 (Success p))
            \/ exists k s, fails_as req_body k s).
  { intros k e Ht. right.
    destruct (String.eqb_spec (exn_name e) "AbortError") as [Hn|Hn].
    - exists TimeoutError, 504%N. exact (Fails_timeout _ k e Ht Hn).
    - exists k, 500%N. exact (Fails_thrown _ k e Ht Hn). }
  destruct (validate req_body) as [[r|[id ep]]|e] eqn:Hv.
  - right. exists ValidationError, 400%N. apply Fails_rejected. apply Hc.
  - rename Hc into Ha.
    destruct (fetch_metadata up (tournament_url id ep)) as [e|ok json] eqn:Hm.
    { apply (Hthrow UpstreamError e).
      exact (Throws_metadata_transport _ id ep e Ha Hm). }
    destruct ok.
    2:{ right. exists NotFoundError, 404%N. exact (Fails_not_found _ id ep json Ha Hm). }
    destruct json as [t|e].
    2:{ apply (Hthrow UnexpectedError e).
        exact (Throws_metadata_unreadable _ id ep e Ha Hm). }
    assert (Ht : has_tournament req_body id ep t) by (split; assumption).
    destruct (fetch_games up (games_url id ep)) as [e|ok gRes] eqn:Hg.
    { apply (Hthrow UpstreamError e).
      exact (Throws_games_transport _ id ep t e Ht Hg). }
    destruct ok.
    2:{ right. exists UpstreamError, 500%N.
        exact (Fails_games_status _ id ep t gRes Ht Hg). }
    destruct gRes as [[chunks fin]|].
    2:{ apply (Hthrow UnexpectedError (PlainError "Réponse NDJSON vide.")).
        exact (Throws_no_body _ id ep t Ht Hg). }
    assert (Hs : has_stream req_body t chunks fin) by (exists id, ep; split; assumption).
    destruct (feed JSON_parse onGame (delivered_lines chunks fin) initial) as [st|e] eqn:Hf.
    + destruct fin as [|e].
      * apply feed_Ok_iff in Hf as (games & HF & Hagg). rewrite run_aggregate in Hagg.
        assert (H : reads_feed req_body t games st)
          by (exists chunks; split; [exact Hs | split; assumption]).
        pose proof (reads_feed_counts _ _ _ _ H) as (Hcount & Hpool).
        destruct games as [|g games].
        { right. exists NoDataError, 404%N. exact (Fails_no_games _ t st H). }
        destruct (pool (metrics_of (ps st))) as [|m rest] eqn:Epool.
        { right. exists NoDataError, 400%N.
          apply (Fails_no_analysis _ t (g :: games) st H); [discriminate|].
          apply Hpool. reflexivity. }
        assert (Hu : ~ Forall unanalysed (g :: games)).
        { intros Hu. apply Hpool in Hu. discriminate. }
        destruct (nullish t) eqn:Hnull.
        { apply (Hthrow UnexpectedError
                   (TypeError "Cannot read properties of null or undefined")).
          apply (Throws_tournament _ t (g :: games) st H);
            [discriminate | exact Hu | exact Hnull]. }
        left. unfold analyze. rewrite Hp, finish_pool, Hnull.
        -- eexists. reflexivity.
        -- rewrite Hcount. discriminate.
        -- rewrite Epool. discriminate.
      * apply (Hthrow UpstreamError e).
        exact (Throws_read _ t chunks e st Hs Hf).
    + pose proof Hf as Hf'.
      apply feed_Throw_inv in Hf' as (before & l & after & st1 & Hl & Hb & Hor).
      destruct Hor as [[Hj ->] | (g & Hj & Hg')].
      * apply (Hthrow DecodeError (SyntaxError "Unexpected token in JSON")).
        exact (Throws_decode _ t chunks fin before l after st1 Hs Hl Hb Hj).
      * apply (Hthrow UnexpectedError e).
        exact (Throws_callback _ t chunks fin before l after st1 g e Hs Hl Hb Hj Hg').
  - apply (Hthrow ValidationError e). apply Throws_unreadable. exact Hc.
Qed.

(** C9, amended. Every request is answered with the analysis or fails
    with one of the kinds, and a request that fails with a kind is
    answered with an error body under the status code of that failure:
    validation 400 when the input is rejected and 500 when it cannot be
    read; not found 404; upstream 500; decode 500; timeout 504; no data
    404 (no game) or 400 (no analysed side); 500 for the failures the
    taxonomy does not name. The status is 504 exactly when the kind is a
    timeout, the one kind whose code no other kind shares; a call cut by
    the timer, on the metadata or on the games, is a timeout. *)
Theorem failure_status (req_body : value) :
  (forall k s, fails_as req_body k s ->
     status (analyze JSON_parse up req_body) = s
     /\ (exists msg, sent (analyze JSON_parse up req_body) = ErrorBody msg)
     /\ In s (statuses_of k)
     /\ (s = 504%N <-> k = TimeoutError))
  /\ ((exists p, analyze JSON_parse up req_body = mkReply 200 (Success p))
      \/ exists k s, fails_as req_body k s)
  /\ (forall id endpoint e,
        accepted req_body id endpoint ->
        fetch_metadata up (tournament_url id endpoint) = FetchThrow e ->
        exn_name e = "AbortError" ->
        fails_as req_body TimeoutError 504)
  /\ (forall id endpoint tournament e,
        has_tournament req_body id endpoint tournament ->
        fetch_games up (games_url id endpoint) = FetchThrow e ->
        exn_name e = "AbortError" ->
        fails_as req_body TimeoutError 504).
Proof.
  split; [|split; [|split]].
  - intros k s Hk. destruct (fails_as_status _ _ _ Hk) as (Hs & Hb).
    destruct (fails_as_listed _ _ _ Hk) as (Hin & H504).
    split; [exact Hs|]. split; [exact Hb|]. split; [exact Hin | exact H504].
  - apply fails_or_sends.
  - intros id endpoint e Ha Hm Hn.
    apply (Fails_timeout _ UpstreamError e); [|exact Hn].
    exact (Throws_metadata_transport _ id endpoint e Ha Hm).
  - intros id endpoint tournament e Ht Hg Hn.
    apply (Fails_timeout _ UpstreamError e); [|exact Hn].
    exact (Throws_games_transport _ id endpoint tournament e Ht Hg).
Qed.

End Failures.

(** ** The failing requests on the sample services *)

Lemma valid_request_accepted :
  accepted (C := sample_coercions) valid_request "abc123" "swiss".
Proof.
  split; [reflexivity|]. split; [reflexivity|]. split; [reflexivity|].
  split; [reflexivity|]. split; [|left; split; reflexivity].
  apply test_alnum_spec. reflexivity.
Defined.

(** C9, counterexample. Two requests that fail with different kinds and
    carry the same status: a games endpoint without success (upstream
    error) and a malformed line (decode error) are both answered 500; an
    unknown tournament (not found) and an empty stream (no data) are both
    answered 404. *)
Lemma error_kinds_share_status :
  fails_as (C := sample_coercions) sample_parse games_unavailable valid_request
    UpstreamError 500 /\
  fails_as (C := sample_coercions) sample_parse (serving "{oops") valid_request
    DecodeError 500 /\
  status (analyze (C := sample_coercions) sample_parse games_unavailable valid_request)
  = status (analyze (C := sample_coercions) sample_parse (serving "{oops") valid_request) /\
  fails_as (C := sample_coercions) sample_parse tournament_unknown valid_request
    NotFoundError 404 /\
  fails_as (C := sample_coercions) sample_parse (serving "") valid_request
    NoDataError 404 /\
  status (analyze (C := sample_coercions) sample_parse tournament_unknown valid_request)
  = status (analyze (C := sample_coercions) sample_parse (serving "") valid_request).
Proof.
  split; [|split; [|split; [|split; [|split]]]].
  - apply (Fails_games_status sample_parse games_unavailable valid_request
             "abc123" "swiss" sample_tournament None);
      [split; [exact valid_request_accepted|]|]; reflexivity.
  - apply (Fails_thrown sample_parse (serving "{oops") valid_request DecodeError
             (SyntaxError "Unexpected token in JSON")); [|discriminate].
    apply (Throws_decode sample_parse (serving "{oops") valid_request
             sample_tournament [bytes_of "{oops"] Done
             [] [0x7B; 0x6F; 0x6F; 0x70; 0x73]%N [] initial).
    + exists "abc123", "swiss".
      split; [split; [exact valid_request_accepted|]|]; reflexivity.
    + vm_compute. reflexivity.
    + reflexivity.
    + reflexivity.
  - vm_compute. reflexivity.
  - apply (Fails_not_found sample_parse tournament_unknown valid_request
             "abc123" "swiss" (Ok VNull)); [exact valid_request_accepted | reflexivity].
  - apply (Fails_no_games sample_parse (serving "") valid_request
             sample_tournament initial).
    exists [bytes_of ""]. split; [|split; [constructor | reflexivity]].
    exists "abc123", "swiss".
    split; [split; [exact valid_request_accepted|]|]; reflexivity.
  - vm_compute. reflexivity.
Qed.

Lemma failure_status_witness :
  fails_as (C := sample_coercions) sample_parse unresponsive valid_request
    TimeoutError 504 /\
  status (analyze (C := sample_coercions) sample_parse unresponsive valid_request)
  = 504%N.
Proof.
  destruct (failure_status (C := sample_coercions) sample_parse unresponsive valid_request)
    as (Hall & _ & Hmetadata & _).
  assert (H : fails_as (C := sample_coercions) sample_parse unresponsive valid_request
                TimeoutError 504)
    by (apply (Hmetadata "abc123" "swiss" AbortError);
        [exact valid_request_accepted | reflexivity | reflexivity]).
  split; [exact H|]. destruct (Hall _ _ H) as (Hs & _). exact Hs.
Defined.

(** Requests on which the checks of lines 50-52 throw: a body that is
    [null], and a [tournamentId] that has no string. Both are answered
    500, before any outbound call. *)
Definition unstringable_request : value :=
  VObj [("tournamentId", unconvertible); ("type", VStr "swiss")].

Example malformed_requests :
  fails_as (C := throwing_coercions) sample_parse unresponsive VNull ValidationError 500
  /\ analyze (C := throwing_coercions) sample_parse unresponsive VNull
     = fail 500 "Cannot read properties of null or undefined"
  /\ fails_as (C := throwing_coercions) sample_parse unresponsive unstringable_request
       ValidationError 500
  /\ analyze (C := throwing_coercions) sample_parse unresponsive unstringable_request
     = fail 500 "Cannot convert object to primitive value".
Proof.
  split; [|split; [|split]].
  - apply (Fails_thrown sample_parse unresponsive VNull ValidationError
             (TypeError "Cannot read properties of null or undefined"));
      [|discriminate].
    apply Throws_unreadable. left. split; reflexivity.
  - reflexivity.
  - apply (Fails_thrown sample_parse unresponsive unstringable_request ValidationError
             (TypeError "Cannot convert object to primitive value"));
      [|discriminate].
    apply Throws_unreadable. right.
    split; [reflexivity|]. split; [reflexivity|]. split; reflexivity.
  - reflexivity.
Qed.

Lemma no_data_exactly_witness :
  reads_feed (C := sample_coercions) sample_parse (serving "") valid_request
    sample_tournament [] initial /\
  no_data (analyze (C := sample_coercions) sample_parse (serving "") valid_request).
Proof.
  destruct (no_data_exactly (C := sample_coercions) sample_parse (serving "") valid_request)
    as ([_ Hback] & _ & _ & Hempty).
  assert (Hs : has_stream (C := sample_coercions) (serving "") valid_request sample_tournament [bytes_of ""] Done).
  { exists "abc123", "swiss".
    split; [split; [exact valid_request_accepted|]|]; reflexivity. }
  destruct (Hempty sample_tournament [bytes_of ""] Hs eq_refl) as (H & _).
  split; [exact H|].
  apply Hback. exists sample_tournament, [], initial.
  split; [exact H | left; reflexivity].
Defined.

(** One game without analysis: a game is decoded, the pool is empty, and
    the reply is the 400 one. *)
Example unanalysed_game_no_data :
  reads_feed (C := sample_coercions) sample_parse (serving "{}") valid_request
    sample_tournament [VObj []]
    (mkSt 1 0 0 0 1
       [(KStr "Anonymous", mkPlayer (VStr "Anonymous") zero zero zero 2 0 VUndefined [])])
  /\ Forall unanalysed [VObj []]
  /\ analyze (C := sample_coercions) sample_parse (serving "{}") valid_request
     = no_analysis.
Proof.
  split; [|split].
  - exists [bytes_of "{}"]. split; [|split].
    + exists "abc123", "swiss".
      split; [split; [exact valid_request_accepted|]|]; reflexivity.
    + vm_compute. constructor; [reflexivity | constructor].
    + vm_compute. reflexivity.
  - constructor; [split; reflexivity | constructor].
  - vm_compute. reflexivity.
Qed.
